(** * An in-memory ledger engine: balances, ledgers, locks, idempotency
      keys and rate limits

    Shallow embedding of [main.py].  The module-level dictionaries become the
    fields of one [State] record; every endpoint that touches them is a
    computation in a small monad that threads this state, stops at a raised
    [HTTPException] and records which account locks are taken.  Clock
    readings and fresh transaction ids are supplied by the caller of each
    endpoint.  Requests are served one after the other; what a request wrote
    before it raised or blocked stays written. *)

From Stdlib Require Import ZArith QArith Lia Floats.
From Stdlib Require Uint63.
From stdpp Require Import gmap strings list fin_maps sorting.

Open Scope Z_scope.

Module Bank.

(** ** Configuration *)

Definition PER_TRANSFER_MAX : Z := 10000.
Definition DAILY_TRANSFER_LIMIT : Z := 25000.
Definition IDEMPOTENCY_TTL_SECONDS : Z := 60 * 60 * 24.
Definition RATE_LIMIT_PER_MINUTE : nat := 10.

(** ** Clocks

    [time.time()] is a number of seconds, a binary64 float: its readings
    are primitive floats here, subtracted, added and compared as Python
    does, with the rounding of IEEE 754.  [datetime.utcnow()] has
    microsecond resolution and is the number of microseconds since the
    epoch; [date] is its UTC calendar day. *)

Definition datetime := Z.

Definition date (t : datetime) : Z := t / 86400000000.

(** [float(n)]: what an int becomes when it is added to a float.  The
    conversion is exact for the ints it is used on, which are not negative
    and below 2^53. *)
Definition float_of_int (n : Z) : float := PrimFloat.of_uint63 (Uint63.of_Z n).

(** ** Models *)

Record AmountRequest := {
  account_id : string;
  amount_req : Z
}.

Record TransferRequest := {
  from_account : string;
  to_account : string;
  amount_tr : Z
}.

Record LedgerEntry := {
  tx_id : string;
  type : string;
  amount : Z;
  balance_after : Z;
  timestamp : datetime
}.

(** The body of a successful transfer response, [{"tx_id": .., "status": ..}].
    It has two keys, so it is never falsy. *)
Record TransferResponse := {
  resp_tx_id : string;
  status : string
}.

Record IdempotencyRecord := {
  response : TransferResponse;
  expires_at : float
}.

(** ** In-memory storage

    A [threading.Lock] is either free ([false]) or held ([true]); it is not
    reentrant. *)

Record State := {
  accounts : gmap string Z;
  ledger : gmap string (list LedgerEntry);
  account_locks : gmap string bool;
  idempotency_store : gmap string IdempotencyRecord;
  rate_limits : gmap string (list float)
}.

Definition empty_state : State :=
  {| accounts := ∅; ledger := ∅; account_locks := ∅;
     idempotency_store := ∅; rate_limits := ∅ |}.

Definition set_accounts (f : gmap string Z → gmap string Z) (s : State) : State :=
  {| accounts := f (accounts s); ledger := ledger s;
     account_locks := account_locks s;
     idempotency_store := idempotency_store s; rate_limits := rate_limits s |}.

Definition set_ledger
    (f : gmap string (list LedgerEntry) → gmap string (list LedgerEntry))
    (s : State) : State :=
  {| accounts := accounts s; ledger := f (ledger s);
     account_locks := account_locks s;
     idempotency_store := idempotency_store s; rate_limits := rate_limits s |}.

Definition set_account_locks (f : gmap string bool → gmap string bool)
    (s : State) : State :=
  {| accounts := accounts s; ledger := ledger s;
     account_locks := f (account_locks s);
     idempotency_store := idempotency_store s; rate_limits := rate_limits s |}.

Definition set_idempotency_store
    (f : gmap string IdempotencyRecord → gmap string IdempotencyRecord)
    (s : State) : State :=
  {| accounts := accounts s; ledger := ledger s;
     account_locks := account_locks s;
     idempotency_store := f (idempotency_store s);
     rate_limits := rate_limits s |}.

Definition set_rate_limits
    (f : gmap string (list float) → gmap string (list float)) (s : State)
    : State :=
  {| accounts := accounts s; ledger := ledger s;
     account_locks := account_locks s;
     idempotency_store := idempotency_store s;
     rate_limits := f (rate_limits s) |}.

(** ** Exceptions *)

Inductive HTTPException :=
  | ValidationError
  | PerTransferLimitExceeded
  | DailyLimitExceeded
  | InsufficientFunds
  | RateLimited
  | KeyError.

Definition status_code (e : HTTPException) : Z :=
  match e with
  | ValidationError => 422
  | PerTransferLimitExceeded | DailyLimitExceeded | InsufficientFunds => 400
  | RateLimited => 429
  | KeyError => 500
  end.

Definition detail (e : HTTPException) : string :=
  match e with
  | ValidationError => "Input should be greater than 0"
  | PerTransferLimitExceeded => "Per-transfer limit exceeded: max 10000"
  | DailyLimitExceeded => "Daily transfer limit exceeded: max 25000"
  | InsufficientFunds => "Insufficient funds"
  | RateLimited => "Rate limit exceeded: max 10 transfers per minute"
  | KeyError => "Internal Server Error"
  end.

(** ** The monad of endpoint computations

    A computation either returns, raises, or blocks for ever on a lock that
    is held and that nobody will release.  Whatever it wrote to the state
    before raising or blocking stays written. *)

Inductive Event :=
  | Acquire (l : string)
  | Release (l : string).

Inductive Outcome (A : Type) :=
  | Returned (a : A)
  | Raised (e : HTTPException)
  | Blocked.
Arguments Returned {A} a.
Arguments Raised {A} e.
Arguments Blocked {A}.

Record Run (A : Type) := mkRun {
  outcome : Outcome A;
  final : State;
  events : list Event
}.
Arguments mkRun {A} _ _ _.
Arguments outcome {A} _.
Arguments final {A} _.
Arguments events {A} _.

Definition M (A : Type) : Type := State → Run A.

Definition raise {A} (e : HTTPException) : M A := λ s, mkRun (Raised e) s [].

Instance M_ret : MRet M := λ A a s, mkRun (Returned a) s [].

Instance M_bind : MBind M := λ A B k m s,
  match m s with
  | mkRun (Returned a) s1 ev1 =>
      match k a s1 with
      | mkRun o s2 ev2 => mkRun o s2 (ev1 ++ ev2)
      end
  | mkRun (Raised e) s1 ev1 => mkRun (Raised e) s1 ev1
  | mkRun Blocked s1 ev1 => mkRun Blocked s1 ev1
  end.

Definition read {A} (f : State → A) : M A := λ s, mkRun (Returned (f s)) s [].

Definition write (f : State → State) : M unit := λ s, mkRun (Returned tt) (f s) [].

(** [d[k]] on a dictionary raises [KeyError] when the key is missing. *)
Definition getitem {V} (f : State → gmap string V) (k : string) : M V := λ s,
  match f s !! k with
  | Some v => mkRun (Returned v) s []
  | None => mkRun (Raised KeyError) s []
  end.

(** ** Locks

    [Lock.acquire] takes a free lock and blocks on a held one; the [with]
    statement releases the lock when its body returns or raises.  A lock is
    named by the account it belongs to: [get_lock] is the only way to obtain
    one and it stores the lock first. *)

Definition acquire (l : string) : M unit := λ s,
  match account_locks s !! l with
  | Some true => mkRun Blocked s []
  | Some false =>
      mkRun (Returned tt) (set_account_locks <[l := true]> s) [Acquire l]
  | None => mkRun (Raised KeyError) s []
  end.

Definition release (l : string) : M unit := λ s,
  mkRun (Returned tt) (set_account_locks <[l := false]> s) [Release l].

Definition with_lock {A} (l : string) (body : M A) : M A := λ s,
  match acquire l s with
  | mkRun (Returned _) s1 ev1 =>
      match body s1 with
      | mkRun Blocked s2 ev2 => mkRun Blocked s2 (ev1 ++ ev2)
      | mkRun o s2 ev2 =>
          match release l s2 with
          | mkRun _ s3 ev3 => mkRun o s3 (ev1 ++ ev2 ++ ev3)
          end
      end
  | mkRun (Raised e) s1 ev1 => mkRun (Raised e) s1 ev1
  | mkRun Blocked s1 ev1 => mkRun Blocked s1 ev1
  end.

(** ** Helpers *)

Definition get_lock (account_id : string) : M string :=
  present ← read (λ s, bool_decide (is_Some (account_locks s !! account_id)));
  (if present : bool then mret tt
   else write (set_account_locks <[account_id := false]>));;
  mret account_id.

Definition check_rate_limit (account_id : string) (now : float) : M unit :=
  timestamps ← read (λ s, default [] (rate_limits s !! account_id));
  let timestamps := List.filter (λ t, (now - t <? 60)%float) timestamps in
  if bool_decide (RATE_LIMIT_PER_MINUTE ≤ length timestamps)%nat
  then raise RateLimited
  else write (set_rate_limits <[account_id := timestamps ++ [now]]>).

Definition check_idempotency (key : string) (now : float)
    : M (option TransferResponse) :=
  record ← read (λ s, idempotency_store s !! key);
  match record with
  | Some r =>
      if (now <? expires_at r)%float then mret (Some (response r))
      else mret None
  | None => mret None
  end.

Definition store_idempotency (key : string) (resp : TransferResponse)
    (now : float)
    : M unit :=
  write (set_idempotency_store
           <[key := {| response := resp;
                       expires_at :=
                         (now + float_of_int IDEMPOTENCY_TTL_SECONDS)%float |}]>).

Definition get_daily_transfer_total (account_id : string) (now : datetime)
    : M Z :=
  let today := date now in
  entries ← read (λ s, default [] (ledger s !! account_id));
  mret (fold_left
          (λ total entry,
             if bool_decide (type entry = "transfer_out")
                && bool_decide (date (timestamp entry) = today)
             then total + Z.abs (amount entry) else total)
          entries 0).

Definition ensure_account (account_id : string) : M unit :=
  present ← read (λ s, bool_decide (is_Some (accounts s !! account_id)));
  if present : bool then mret tt
  else
    write (set_accounts <[account_id := 0]>);;
    write (set_ledger <[account_id := []]>).

(** ** What an endpoint reads from outside

    One field for each place where the source reads a clock or draws a
    transaction id. *)

Record Env := {
  uuid4 : string;          (* str(uuid4()) *)
  utcnow : datetime;       (* datetime.utcnow() stamped on the entries *)
  utcnow_daily : datetime; (* datetime.utcnow() in get_daily_transfer_total *)
  time_rate : float;       (* time.time() in check_rate_limit *)
  time_check : float;      (* time.time() in check_idempotency *)
  time_store : float       (* time.time() in store_idempotency *)
}.

(** [Field(gt=0)]: the request is refused before the endpoint body runs. *)
Definition validate_gt0 (n : Z) : M unit :=
  if bool_decide (0 < n) then mret tt else raise ValidationError.

(** [sorted([x, y])]: strings compare by code point, the sort is stable. *)
Definition sorted2 (x y : string) : string * string :=
  if String.ltb y x then (y, x) else (x, y).

(** A string is truthy when it is not empty. *)
Definition truthy (k : string) : bool := negb (bool_decide (k = "")).

(** ** Endpoints *)

Record BalanceResponse := {
  bal_account_id : string;
  balance : Z
}.

Definition get_balance (account_id : string) : M BalanceResponse :=
  ensure_account account_id;;
  b ← getitem accounts account_id;
  mret {| bal_account_id := account_id; balance := b |}.

Definition deposit (req : AmountRequest) (env : Env) : M LedgerEntry :=
  validate_gt0 (amount_req req);;
  ensure_account (account_id req);;
  lock ← get_lock (account_id req);
  with_lock lock (
    b ← getitem accounts (account_id req);
    write (set_accounts <[account_id req := b + amount_req req]>);;
    b' ← getitem accounts (account_id req);
    let entry := {| tx_id := uuid4 env; type := "deposit";
                    amount := amount_req req; balance_after := b';
                    timestamp := utcnow env |} in
    l ← getitem ledger (account_id req);
    write (set_ledger <[account_id req := l ++ [entry]]>);;
    mret entry).

Definition withdraw (req : AmountRequest) (env : Env) : M LedgerEntry :=
  validate_gt0 (amount_req req);;
  ensure_account (account_id req);;
  lock ← get_lock (account_id req);
  with_lock lock (
    b ← getitem accounts (account_id req);
    if bool_decide (b < amount_req req) then raise InsufficientFunds
    else
      write (set_accounts <[account_id req := b - amount_req req]>);;
      b' ← getitem accounts (account_id req);
      let entry := {| tx_id := uuid4 env; type := "withdrawal";
                      amount := - amount_req req; balance_after := b';
                      timestamp := utcnow env |} in
      l ← getitem ledger (account_id req);
      write (set_ledger <[account_id req := l ++ [entry]]>);;
      mret entry).

(** The part of [transfer] that runs while both locks are held. *)
Definition transfer_locked (req : TransferRequest) (env : Env) : M string :=
  total ← get_daily_transfer_total (from_account req) (utcnow_daily env);
  if bool_decide (DAILY_TRANSFER_LIMIT < total + amount_tr req)
  then raise DailyLimitExceeded
  else
    b ← getitem accounts (from_account req);
    if bool_decide (b < amount_tr req) then raise InsufficientFunds
    else
      write (set_accounts <[from_account req := b - amount_tr req]>);;
      c ← getitem accounts (to_account req);
      write (set_accounts <[to_account req := c + amount_tr req]>);;
      let tx := uuid4 env in
      let ts := utcnow env in
      bf ← getitem accounts (from_account req);
      lf ← getitem ledger (from_account req);
      write (set_ledger
               <[from_account req :=
                   lf ++ [{| tx_id := tx; type := "transfer_out";
                             amount := - amount_tr req; balance_after := bf;
                             timestamp := ts |}]]>);;
      bt ← getitem accounts (to_account req);
      lt ← getitem ledger (to_account req);
      write (set_ledger
               <[to_account req :=
                   lt ++ [{| tx_id := tx; type := "transfer_in";
                             amount := amount_tr req; balance_after := bt;
                             timestamp := ts |}]]>);;
      mret tx.

Definition transfer (req : TransferRequest) (idempotency_key : option string)
    (env : Env) : M TransferResponse :=
  validate_gt0 (amount_tr req);;
  if bool_decide (PER_TRANSFER_MAX < amount_tr req)
  then raise PerTransferLimitExceeded
  else
    cached ← match idempotency_key with
             | Some key =>
                 if truthy key then check_idempotency key (time_check env)
                 else mret None
             | None => mret None
             end;
    match cached with
    | Some resp => mret resp
    | None =>
        ensure_account (from_account req);;
        ensure_account (to_account req);;
        check_rate_limit (from_account req) (time_rate env);;
        let '(first, second) := sorted2 (from_account req) (to_account req) in
        lock1 ← get_lock first;
        tx ← with_lock lock1 (
               lock2 ← get_lock second;
               with_lock lock2 (transfer_locked req env));
        let resp := {| resp_tx_id := tx; status := "success" |} in
        match idempotency_key with
        | Some key =>
            if truthy key then store_idempotency key resp (time_store env)
            else mret tt
        | None => mret tt
        end;;
        mret resp
    end.

Record SummaryResponse := {
  sum_account_id : string;
  sum_balance : Z;
  daily_transfer_total : Z;
  daily_transfer_limit : Z;
  daily_transfer_remaining : Z;
  transaction_count : nat
}.

Definition account_summary (account_id : string) (env : Env)
    : M SummaryResponse :=
  ensure_account account_id;;
  daily_total ← get_daily_transfer_total account_id (utcnow_daily env);
  b ← getitem accounts account_id;
  l ← getitem ledger account_id;
  mret {| sum_account_id := account_id; sum_balance := b;
          daily_transfer_total := daily_total;
          daily_transfer_limit := DAILY_TRANSFER_LIMIT;
          daily_transfer_remaining := DAILY_TRANSFER_LIMIT - daily_total;
          transaction_count := length l |}.

(** [l[start:stop]]: a negative index counts from the end, and both ends are
    clipped to the list. *)
Definition slice_index (i n : Z) : Z :=
  if bool_decide (i < 0) then Z.max 0 (i + n) else Z.min i n.

Definition slice {A} (l : list A) (start stop : Z) : list A :=
  let n := Z.of_nat (length l) in
  let a := slice_index start n in
  let b := slice_index stop n in
  take (Z.to_nat (b - a)) (drop (Z.to_nat a) l).

Record TransactionsResponse := {
  page_account_id : string;
  items : list LedgerEntry;
  total_transactions : Z;
  current_cursor : Z;
  next_cursor : option Z;
  has_more : bool
}.

Definition get_transactions (account_id : string) (limit cursor : Z)
    : M TransactionsResponse :=
  ensure_account account_id;;
  l ← getitem ledger account_id;
  let entries := slice l cursor (cursor + limit) in
  l' ← getitem ledger account_id;
  let total := Z.of_nat (length l') in
  mret {| page_account_id := account_id; items := entries;
          total_transactions := total; current_cursor := cursor;
          next_cursor := if bool_decide (cursor + limit < total)
                         then Some (cursor + limit) else None;
          has_more := bool_decide (cursor + limit < total) |}.

(** ** Sequences of requests

    Requests are served one at a time.  A lock that a request finds held is
    then held by an earlier request that is itself blocked, so it is never
    released. *)

Inductive Call :=
  | CallBalance (account_id : string)
  | CallDeposit (req : AmountRequest) (env : Env)
  | CallWithdraw (req : AmountRequest) (env : Env)
  | CallTransfer (req : TransferRequest) (key : option string) (env : Env)
  | CallTransactions (account_id : string) (limit cursor : Z)
  | CallSummary (account_id : string) (env : Env).

(** The state a request leaves behind, whatever its outcome. *)
Definition step (c : Call) (s : State) : State :=
  match c with
  | CallBalance a => final (get_balance a s)
  | CallDeposit req env => final (deposit req env s)
  | CallWithdraw req env => final (withdraw req env s)
  | CallTransfer req key env => final (transfer req key env s)
  | CallTransactions a limit cursor => final (get_transactions a limit cursor s)
  | CallSummary a env => final (account_summary a env s)
  end.

Definition run (cs : list Call) (s : State) : State :=
  fold_left (λ s c, step c s) cs s.

Inductive reachable : State → Prop :=
  | reachable_empty : reachable empty_state
  | reachable_step c s : reachable s → reachable (step c s).

(** * Reasoning about the endpoints *)

(** ** What one sees of an account

    An account that was never referenced reads as balance 0 with an empty
    history: every endpoint creates it before looking. *)

Definition balance_of (s : State) (a : string) : Z := default 0 (accounts s !! a).

Definition ledger_of (s : State) (a : string) : list LedgerEntry :=
  default [] (ledger s !! a).

(** ** The primitive state changes *)

Definition create (a : string) (s : State) : State :=
  if bool_decide (is_Some (accounts s !! a)) then s
  else set_ledger <[a := []]> (set_accounts <[a := 0]> s).

Definition mklock (a : string) (s : State) : State :=
  if bool_decide (is_Some (account_locks s !! a)) then s
  else set_account_locks <[a := false]> s.

Definition hold (a : string) (s : State) : State :=
  set_account_locks <[a := true]> s.

Definition free (a : string) (s : State) : State :=
  set_account_locks <[a := false]> s.

Definition rate_window (a : string) (now : float) (s : State) : list float :=
  List.filter (λ t, (now - t <? 60)%float) (default [] (rate_limits s !! a)).

Definition record_rate (a : string) (now : float) (s : State) : State :=
  set_rate_limits <[a := rate_window a now s ++ [now]]> s.

Definition daily_total (a : string) (now : datetime) (s : State) : Z :=
  fold_left
    (λ total entry,
       if bool_decide (type entry = "transfer_out")
          && bool_decide (date (timestamp entry) = date now)
       then total + Z.abs (amount entry) else total)
    (ledger_of s a) 0.

Definition cache_lookup (key : option string) (now : float) (s : State)
    : option TransferResponse :=
  match key with
  | Some k =>
      if truthy k then
        match idempotency_store s !! k with
        | Some r =>
            if (now <? expires_at r)%float then Some (response r) else None
        | None => None
        end
      else None
  | None => None
  end.

Definition store (key : option string) (resp : TransferResponse) (now : float)
    (s : State) : State :=
  match key with
  | Some k =>
      if truthy k then
        set_idempotency_store
          <[k := {| response := resp;
                    expires_at :=
                      (now + float_of_int IDEMPOTENCY_TTL_SECONDS)%float |}]> s
      else s
  | None => s
  end.

(** Book one signed amount: the balance moves by it and the entry, stamped
    with the new balance, goes to the end of the history. *)
Definition post (a tx ty : string) (amt : Z) (ts : datetime) (s : State) : State :=
  set_ledger
    <[a := ledger_of s a ++
           [{| tx_id := tx; type := ty; amount := amt;
               balance_after := balance_of s a + amt; timestamp := ts |}]]>
    (set_accounts <[a := balance_of s a + amt]> s).

(** Both legs of a transfer: the two balances move first, then the two
    entries are written, each stamped with the balance of its account. *)
Definition post_transfer (req : TransferRequest) (env : Env) (s : State) : State :=
  let s1 := set_accounts
              <[from_account req := balance_of s (from_account req) - amount_tr req]>
              s in
  let s2 := set_accounts
              <[to_account req := balance_of s1 (to_account req) + amount_tr req]>
              s1 in
  let s3 := set_ledger
              <[from_account req :=
                  ledger_of s2 (from_account req) ++
                  [{| tx_id := uuid4 env; type := "transfer_out";
                      amount := - amount_tr req;
                      balance_after := balance_of s2 (from_account req);
                      timestamp := utcnow env |}]]> s2 in
  set_ledger
    <[to_account req :=
        ledger_of s3 (to_account req) ++
        [{| tx_id := uuid4 env; type := "transfer_in";
            amount := amount_tr req;
            balance_after := balance_of s3 (to_account req);
            timestamp := utcnow env |}]]> s3.

(** Every account has a history and every history has an account. *)
Definition books_wf (s : State) : Prop :=
  ∀ a, is_Some (accounts s !! a) ↔ is_Some (ledger s !! a).

(** ** The ways through an endpoint

    Each constructor is one way through the body of the endpoint, with the
    test that selects it, the outcome, the state it leaves and the locks it
    took. *)

Definition held (l : string) (s : State) : Prop := account_locks s !! l = Some true.

Instance held_dec l s : Decision (held l s) :=
  decide (account_locks s !! l = Some true).

Definition first_lock (req : TransferRequest) : string :=
  fst (sorted2 (from_account req) (to_account req)).

Definition second_lock (req : TransferRequest) : string :=
  snd (sorted2 (from_account req) (to_account req)).

Definition deposit_entry (req : AmountRequest) (env : Env) (s : State) : LedgerEntry :=
  {| tx_id := uuid4 env; type := "deposit"; amount := amount_req req;
     balance_after := balance_of s (account_id req) + amount_req req;
     timestamp := utcnow env |}.

Definition withdrawal_entry (req : AmountRequest) (env : Env) (s : State) : LedgerEntry :=
  {| tx_id := uuid4 env; type := "withdrawal"; amount := - amount_req req;
     balance_after := balance_of s (account_id req) + - amount_req req;
     timestamp := utcnow env |}.

(** The state in which the body of [deposit] and [withdraw] starts. *)
Definition locked1 (a : string) (s : State) : State :=
  hold a (mklock a (create a s)).

Inductive deposit_path (req : AmountRequest) (env : Env) (s : State)
    : Run LedgerEntry → Prop :=
  | dp_invalid :
      ¬ 0 < amount_req req →
      deposit_path req env s (mkRun (Raised ValidationError) s [])
  | dp_blocked :
      0 < amount_req req →
      held (account_id req) s →
      deposit_path req env s
        (mkRun Blocked (mklock (account_id req) (create (account_id req) s)) [])
  | dp_ok :
      0 < amount_req req →
      ¬ held (account_id req) s →
      deposit_path req env s
        (mkRun (Returned (deposit_entry req env s))
           (free (account_id req)
              (post (account_id req) (uuid4 env) "deposit" (amount_req req)
                 (utcnow env) (locked1 (account_id req) s)))
           [Acquire (account_id req); Release (account_id req)]).

Inductive withdraw_path (req : AmountRequest) (env : Env) (s : State)
    : Run LedgerEntry → Prop :=
  | wp_invalid :
      ¬ 0 < amount_req req →
      withdraw_path req env s (mkRun (Raised ValidationError) s [])
  | wp_blocked :
      0 < amount_req req →
      held (account_id req) s →
      withdraw_path req env s
        (mkRun Blocked (mklock (account_id req) (create (account_id req) s)) [])
  | wp_insufficient :
      0 < amount_req req →
      ¬ held (account_id req) s →
      balance_of s (account_id req) < amount_req req →
      withdraw_path req env s
        (mkRun (Raised InsufficientFunds)
           (free (account_id req) (locked1 (account_id req) s))
           [Acquire (account_id req); Release (account_id req)])
  | wp_ok :
      0 < amount_req req →
      ¬ held (account_id req) s →
      ¬ balance_of s (account_id req) < amount_req req →
      withdraw_path req env s
        (mkRun (Returned (withdrawal_entry req env s))
           (free (account_id req)
              (post (account_id req) (uuid4 env) "withdrawal" (- amount_req req)
                 (utcnow env) (locked1 (account_id req) s)))
           [Acquire (account_id req); Release (account_id req)]).

(** The states a transfer goes through once it is past the cache: both
    accounts exist, the rate-limit slot is taken, then the first lock is
    created, then it is held and the second is created, then both are held. *)
Definition opened (req : TransferRequest) (s : State) : State :=
  create (to_account req) (create (from_account req) s).

Definition slotted (req : TransferRequest) (env : Env) (s : State) : State :=
  record_rate (from_account req) (time_rate env) (opened req s).

Definition at_first (req : TransferRequest) (env : Env) (s : State) : State :=
  mklock (first_lock req) (slotted req env s).

Definition at_second (req : TransferRequest) (env : Env) (s : State) : State :=
  mklock (second_lock req) (hold (first_lock req) (at_first req env s)).

Definition locked2 (req : TransferRequest) (env : Env) (s : State) : State :=
  hold (second_lock req) (at_second req env s).

Definition unlocked2 (req : TransferRequest) (s : State) : State :=
  free (first_lock req) (free (second_lock req) s).

Definition lock_events (req : TransferRequest) : list Event :=
  [Acquire (first_lock req); Acquire (second_lock req);
   Release (second_lock req); Release (first_lock req)].

Definition success (env : Env) : TransferResponse :=
  {| resp_tx_id := uuid4 env; status := "success" |}.

Definition rate_exceeded (req : TransferRequest) (env : Env) (s : State) : Prop :=
  (RATE_LIMIT_PER_MINUTE ≤
   length (rate_window (from_account req) (time_rate env) (opened req s)))%nat.

Definition daily_exceeded (req : TransferRequest) (env : Env) (s : State) : Prop :=
  DAILY_TRANSFER_LIMIT <
  daily_total (from_account req) (utcnow_daily env) (locked2 req env s)
  + amount_tr req.

Definition short_of_funds (req : TransferRequest) (env : Env) (s : State) : Prop :=
  balance_of (locked2 req env s) (from_account req) < amount_tr req.

Instance rate_exceeded_dec req env s : Decision (rate_exceeded req env s) :=
  decide (RATE_LIMIT_PER_MINUTE ≤
          length (rate_window (from_account req) (time_rate env) (opened req s)))%nat.

Instance daily_exceeded_dec req env s : Decision (daily_exceeded req env s) :=
  decide (DAILY_TRANSFER_LIMIT <
          daily_total (from_account req) (utcnow_daily env) (locked2 req env s)
          + amount_tr req).

Instance short_of_funds_dec req env s : Decision (short_of_funds req env s) :=
  decide (balance_of (locked2 req env s) (from_account req) < amount_tr req).

Inductive transfer_path (req : TransferRequest) (key : option string)
    (env : Env) (s : State) : Run TransferResponse → Prop :=
  | tp_invalid :
      ¬ 0 < amount_tr req →
      transfer_path req key env s (mkRun (Raised ValidationError) s [])
  | tp_per_transfer :
      0 < amount_tr req →
      PER_TRANSFER_MAX < amount_tr req →
      transfer_path req key env s (mkRun (Raised PerTransferLimitExceeded) s [])
  | tp_cached resp :
      0 < amount_tr req →
      ¬ PER_TRANSFER_MAX < amount_tr req →
      cache_lookup key (time_check env) s = Some resp →
      transfer_path req key env s (mkRun (Returned resp) s [])
  | tp_rate_limited :
      0 < amount_tr req →
      ¬ PER_TRANSFER_MAX < amount_tr req →
      cache_lookup key (time_check env) s = None →
      rate_exceeded req env s →
      transfer_path req key env s (mkRun (Raised RateLimited) (opened req s) [])
  | tp_blocked_first :
      0 < amount_tr req →
      ¬ PER_TRANSFER_MAX < amount_tr req →
      cache_lookup key (time_check env) s = None →
      ¬ rate_exceeded req env s →
      held (first_lock req) (at_first req env s) →
      transfer_path req key env s (mkRun Blocked (at_first req env s) [])
  | tp_blocked_second :
      0 < amount_tr req →
      ¬ PER_TRANSFER_MAX < amount_tr req →
      cache_lookup key (time_check env) s = None →
      ¬ rate_exceeded req env s →
      ¬ held (first_lock req) (at_first req env s) →
      held (second_lock req) (at_second req env s) →
      transfer_path req key env s
        (mkRun Blocked (at_second req env s) [Acquire (first_lock req)])
  | tp_daily :
      0 < amount_tr req →
      ¬ PER_TRANSFER_MAX < amount_tr req →
      cache_lookup key (time_check env) s = None →
      ¬ rate_exceeded req env s →
      ¬ held (first_lock req) (at_first req env s) →
      ¬ held (second_lock req) (at_second req env s) →
      daily_exceeded req env s →
      transfer_path req key env s
        (mkRun (Raised DailyLimitExceeded)
           (unlocked2 req (locked2 req env s)) (lock_events req))
  | tp_insufficient :
      0 < amount_tr req →
      ¬ PER_TRANSFER_MAX < amount_tr req →
      cache_lookup key (time_check env) s = None →
      ¬ rate_exceeded req env s →
      ¬ held (first_lock req) (at_first req env s) →
      ¬ held (second_lock req) (at_second req env s) →
      ¬ daily_exceeded req env s →
      short_of_funds req env s →
      transfer_path req key env s
        (mkRun (Raised InsufficientFunds)
           (unlocked2 req (locked2 req env s)) (lock_events req))
  | tp_ok :
      0 < amount_tr req →
      ¬ PER_TRANSFER_MAX < amount_tr req →
      cache_lookup key (time_check env) s = None →
      ¬ rate_exceeded req env s →
      ¬ held (first_lock req) (at_first req env s) →
      ¬ held (second_lock req) (at_second req env s) →
      ¬ daily_exceeded req env s →
      ¬ short_of_funds req env s →
      transfer_path req key env s
        (mkRun (Returned (success env))
           (store key (success env) (time_store env)
              (unlocked2 req (post_transfer req env (locked2 req env s))))
           (lock_events req)).

(** ** What a request does to the books

    The books are the balances and the histories.  A request leaves them
    alone, or creates the accounts it names, or also books one entry
    (deposit, withdrawal) or the two legs of a transfer. *)

Definition books_eq (s s' : State) : Prop :=
  accounts s = accounts s' ∧ ledger s = ledger s'.

Inductive Effect :=
  | Nothing
  | Touch (a : string)
  | Touch2 (req : TransferRequest)
  | Post (a tx ty : string) (amt : Z) (ts : datetime)
  | Legs (req : TransferRequest) (env : Env).

Definition apply_effect (e : Effect) (s : State) : State :=
  match e with
  | Nothing => s
  | Touch a => create a s
  | Touch2 req => opened req s
  | Post a tx ty amt ts => post a tx ty amt ts (create a s)
  | Legs req env => post_transfer req env (opened req s)
  end.

Inductive effect_of : Call → Effect → Prop :=
  | eo_nothing c : effect_of c Nothing
  | eo_touch_balance a : effect_of (CallBalance a) (Touch a)
  | eo_touch_summary a env : effect_of (CallSummary a env) (Touch a)
  | eo_touch_transactions a limit cursor :
      effect_of (CallTransactions a limit cursor) (Touch a)
  | eo_touch_deposit req env :
      effect_of (CallDeposit req env) (Touch (account_id req))
  | eo_touch_withdraw req env :
      effect_of (CallWithdraw req env) (Touch (account_id req))
  | eo_touch_transfer req key env :
      effect_of (CallTransfer req key env) (Touch2 req)
  | eo_deposit req env :
      0 < amount_req req →
      effect_of (CallDeposit req env)
        (Post (account_id req) (uuid4 env) "deposit" (amount_req req)
           (utcnow env))
  | eo_withdraw req env :
      0 < amount_req req →
      effect_of (CallWithdraw req env)
        (Post (account_id req) (uuid4 env) "withdrawal" (- amount_req req)
           (utcnow env))
  | eo_transfer req key env :
      0 < amount_tr req →
      from_account req ≠ to_account req →
      effect_of (CallTransfer req key env) (Legs req env).

(** ** Invariants of the books *)

Definition ledger_sum (l : list LedgerEntry) : Z :=
  foldr (λ e acc, amount e + acc) 0 l.

(** Replaying the history of an account from 0 gives its balance. *)
Definition balanced (s : State) : Prop :=
  ∀ a, balance_of s a = ledger_sum (ledger_of s a).

Definition is_leg (e : LedgerEntry) : bool :=
  bool_decide (type e = "transfer_out") || bool_decide (type e = "transfer_in").

Definition legs_sum (l : list LedgerEntry) : Z :=
  foldr (λ e acc, (if is_leg e then amount e else 0) + acc) 0 l.

(** The signed amounts of all transfer legs, over all accounts. *)
Definition transfer_net (s : State) : Z :=
  map_fold (λ _ l acc, legs_sum l + acc) 0 (ledger s).

(** [e'] is the other leg of [e]: same transaction, same time, opposite
    amount. *)
Definition mirrors (e e' : LedgerEntry) : Prop :=
  tx_id e' = tx_id e ∧ timestamp e' = timestamp e ∧ amount e' = - amount e.

Definition paired (s : State) : Prop :=
  (∀ a e, e ∈ ledger_of s a → type e = "transfer_out" →
     ∃ b e', e' ∈ ledger_of s b ∧ type e' = "transfer_in" ∧ mirrors e e') ∧
  (∀ a e, e ∈ ledger_of s a → type e = "transfer_in" →
     ∃ b e', e' ∈ ledger_of s b ∧ type e' = "transfer_out" ∧ mirrors e e').

(** No record is ever stored under the empty key. *)
Definition keys_truthy (s : State) : Prop := idempotency_store s !! "" = None.

Definition invariant (s : State) : Prop :=
  books_wf s ∧ balanced s ∧ transfer_net s = 0 ∧ paired s.

(** ** Vocabulary of the properties *)

(** The two entries one transfer writes. *)
Definition transfer_out_entry (req : TransferRequest) (env : Env) (s : State)
    : LedgerEntry :=
  {| tx_id := uuid4 env; type := "transfer_out"; amount := - amount_tr req;
     balance_after := balance_of s (from_account req) + - amount_tr req;
     timestamp := utcnow env |}.

Definition transfer_in_entry (req : TransferRequest) (env : Env) (s : State)
    : LedgerEntry :=
  {| tx_id := uuid4 env; type := "transfer_in"; amount := amount_tr req;
     balance_after := balance_of s (to_account req) + amount_tr req;
     timestamp := utcnow env |}.

(** What a successful transfer adds to the history of account [a]. *)
Definition transfer_appends (req : TransferRequest) (env : Env) (s : State)
    (a : string) : list LedgerEntry :=
  if decide (a = from_account req) then [transfer_out_entry req env s]
  else if decide (a = to_account req) then [transfer_in_entry req env s]
  else [].

(** Between [s] and [s'] no balance and no history moved: what can be read
    of any account is the same, every account and history that was stored is
    stored unchanged, and the idempotency store is the same. *)
Definition books_untouched (s s' : State) : Prop :=
  (∀ a, balance_of s' a = balance_of s a ∧ ledger_of s' a = ledger_of s a) ∧
  (∀ a b, accounts s !! a = Some b → accounts s' !! a = Some b) ∧
  (∀ a l, ledger s !! a = Some l → ledger s' !! a = Some l) ∧
  idempotency_store s' = idempotency_store s.

(** The rejections of the engine. *)
Definition rejection (e : HTTPException) : Prop :=
  e = InsufficientFunds ∨ e = PerTransferLimitExceeded ∨
  e = DailyLimitExceeded ∨ e = RateLimited.

(** The daily outbound total in the words of the specification: the sum of
    the absolute values of the [transfer_out] entries dated [as_of_date]. *)
Definition daily_outbound_total (entries : list LedgerEntry) (as_of_date : Z) : Z :=
  foldr Z.add 0
    (map (λ e, Z.abs (amount e))
       (List.filter
          (λ e, bool_decide (type e = "transfer_out")
                && bool_decide (date (timestamp e) = as_of_date))
          entries)).

(** A transfer gets as far as the daily-limit test: the request is valid and
    within the per-transfer ceiling, no cached response answers it, the rate
    limiter lets it through, and it can take both locks. *)
Definition reaches_daily_check (req : TransferRequest) (key : option string)
    (env : Env) (s : State) : Prop :=
  0 < amount_tr req ∧ amount_tr req ≤ PER_TRANSFER_MAX ∧
  cache_lookup key (time_check env) s = None ∧
  (length (rate_window (from_account req) (time_rate env) s)
   < RATE_LIMIT_PER_MINUTE)%nat ∧
  from_account req ≠ to_account req ∧
  ¬ held (from_account req) s ∧ ¬ held (to_account req) s.

(** The test of the limiter: the float difference of [now] and [t] is
    below 60. *)
Definition in_window (now t : float) : Prop := (now - t <? 60)%float = true.

(** The number a float stands for, when it is one. *)
Definition number_of (x : float) : option Q :=
  match Prim2SF x with
  | S754_zero _ => Some 0%Q
  | S754_finite s m e =>
      Some (inject_Z (if s then Z.neg m else Z.pos m) * Qpower 2 e)%Q
  | S754_infinity _ | S754_nan => None
  end.


(** The clock reading a request stamps on the entries it writes. *)
Definition call_stamp (c : Call) : option datetime :=
  match c with
  | CallDeposit _ env | CallWithdraw _ env | CallTransfer _ _ env =>
      Some (utcnow env)
  | CallBalance _ | CallTransactions _ _ _ | CallSummary _ _ => None
  end.

Definition stamps (cs : list Call) : list datetime := omap call_stamp cs.

(** From one request to the next the clock reads strictly later. *)
Definition clock_increasing (cs : list Call) : Prop :=
  StronglySorted Z.lt (stamps cs).

(** The clock never reads earlier than it did. *)
Definition clock_monotone (cs : list Call) : Prop :=
  StronglySorted Z.le (stamps cs).

Definition timestamps (l : list LedgerEntry) : list datetime := map timestamp l.

(** ** A small scenario

    All clocks read [sec] seconds after the epoch; [id] is the transaction
    id drawn. *)

Definition env_at (sec : Z) (id : string) : Env :=
  {| uuid4 := id; utcnow := sec * 1000000; utcnow_daily := sec * 1000000;
     time_rate := float_of_int sec; time_check := float_of_int sec;
     time_store := float_of_int sec |}.

Definition funded : State :=
  run [CallDeposit {| account_id := "user1"; amount_req := 1000 |}
         (env_at 10 "tx-1")] empty_state.

Definition pay_100 : TransferRequest :=
  {| from_account := "user1"; to_account := "user2"; amount_tr := 100 |}.

Definition paid : State := step (CallTransfer pay_100 (Some "key-1") (env_at 20 "tx-2")) funded.

(** Two deposits into the same account between two ticks of the clock. *)
Definition same_tick : list Call :=
  [CallDeposit {| account_id := "user1"; amount_req := 100 |} (env_at 10 "tx-1");
   CallDeposit {| account_id := "user1"; amount_req := 50 |} (env_at 10 "tx-2")].

(** A transfer from an account to itself, as the test suite sends it. *)
Definition to_self : TransferRequest :=
  {| from_account := "user1"; to_account := "user1"; amount_tr := 100 |}.

(** The request that sends the money back. *)
Definition reverse (req : TransferRequest) : TransferRequest :=
  {| from_account := to_account req; to_account := from_account req;
     amount_tr := amount_tr req |}.

(** After two transfers of 10,000 on the same day. *)
Definition spent_20000 : State :=
  run [CallDeposit {| account_id := "user1"; amount_req := 50000 |}
         (env_at 10 "tx-1");
       CallTransfer {| from_account := "user1"; to_account := "user2";
                       amount_tr := 10000 |} None (env_at 20 "tx-2");
       CallTransfer {| from_account := "user1"; to_account := "user3";
                       amount_tr := 10000 |} None (env_at 30 "tx-3")]
      empty_state.




(** A store one tick of the float clock after 2147483647. *)
Definition before_2_31 : float := 0x1.fffffffc00001p+30%float.


Definition clock_running : list Call :=
  [CallDeposit {| account_id := "user1"; amount_req := 1000 |} (env_at 10 "tx-1");
   CallWithdraw {| account_id := "user1"; amount_req := 200 |} (env_at 20 "tx-2");
   CallTransfer pay_100 None (env_at 30 "tx-3")].

(** ** Scenarios of the test suite *)

Definition transfer_to (dest : string) (amt sec : Z) (id : string) : Call :=
  CallTransfer {| from_account := "user1"; to_account := dest; amount_tr := amt |}
    None (env_at sec id).

(** 200,000 on user1, then ten transfers of 1,000 within ten seconds. *)
Definition ten_transfers : State :=
  run (CallDeposit {| account_id := "user1"; amount_req := 200000 |}
         (env_at 10 "tx-0")
       :: map (λ i, transfer_to "user2" 1000 (11 + Z.of_nat i) "tx") (seq 0 10))
      empty_state.

(** Fourteen deposits into one account. *)
Definition fourteen_entries : State :=
  run (map (λ i, CallDeposit {| account_id := "user1"; amount_req := 100 |}
                   (env_at (Z.of_nat i) "tx")) (seq 0 14))
      empty_state.

(** * Further properties of the engine *)

(** ** Vocabulary *)

(** What a successful transfer adds to the balance of account [b]. *)
Definition transfer_delta (req : TransferRequest) (b : string) : Z :=
  if decide (b = from_account req) then - amount_tr req
  else if decide (b = to_account req) then amount_tr req
  else 0.

(** Every account reads in [s'] as it does in [s]: same balance, same
    history. *)
Definition same_reading (s s' : State) : Prop :=
  ∀ b, balance_of s' b = balance_of s b ∧ ledger_of s' b = ledger_of s b.

(** The same locks are held in [s'] as in [s]. *)
Definition same_locks (s s' : State) : Prop := ∀ l, held l s' ↔ held l s.

(** One entry [e] was booked on account [a] between [s] and [s']. *)
Definition posted1 (s s' : State) (a : string) (e : LedgerEntry) : Prop :=
  (∀ b, balance_of s' b =
        if decide (b = a) then balance_of s a + amount e else balance_of s b) ∧
  (∀ b, ledger_of s' b =
        if decide (b = a) then ledger_of s a ++ [e] else ledger_of s b) ∧
  balance_after e = balance_of s a + amount e.

(** The two legs of the transfer [req] were booked between [s] and [s']. *)
Definition posted2 (s s' : State) (req : TransferRequest) (env : Env) : Prop :=
  (∀ b, balance_of s' b = balance_of s b + transfer_delta req b) ∧
  (∀ b, ledger_of s' b = ledger_of s b ++ transfer_appends req env s b).

(** Replaying a history from balance [b]: every entry records the balance
    that its amount leads to. *)
Fixpoint snapshots_from (b : Z) (l : list LedgerEntry) : Prop :=
  match l with
  | [] => True
  | e :: l' => balance_after e = b + amount e ∧ snapshots_from (balance_after e) l'
  end.

(** The four kinds of entries, with the sign of their amounts; the legs of a
    transfer are within the per-transfer ceiling. *)
Definition well_signed (e : LedgerEntry) : Prop :=
  (type e = "deposit" ∧ 0 < amount e) ∨
  (type e = "withdrawal" ∧ amount e < 0) ∨
  (type e = "transfer_out" ∧ - PER_TRANSFER_MAX ≤ amount e < 0) ∨
  (type e = "transfer_in" ∧ 0 < amount e ≤ PER_TRANSFER_MAX).

(** The sum of all balances. *)
Definition total_balance (s : State) : Z :=
  map_fold (λ _ b acc, b + acc) 0 (accounts s).

(** A transfer from an account to itself. *)
Definition self_transfer (c : Call) : Prop :=
  match c with
  | CallTransfer req _ _ => from_account req = to_account req
  | _ => False
  end.

(** The request waits for ever on a lock. *)
Definition blocks (c : Call) (s : State) : Prop :=
  match c with
  | CallBalance a => outcome (get_balance a s) = Blocked
  | CallDeposit req env => outcome (deposit req env s) = Blocked
  | CallWithdraw req env => outcome (withdraw req env s) = Blocked
  | CallTransfer req key env => outcome (transfer req key env s) = Blocked
  | CallTransactions a limit cursor =>
      outcome (get_transactions a limit cursor s) = Blocked
  | CallSummary a env => outcome (account_summary a env s) = Blocked
  end.

(** The scenario after the transfer of user1 to itself. *)
Definition stuck : State :=
  step (CallTransfer to_self None (env_at 20 "tx-2")) funded.

(** A client that reads a history page after page: it asks for [limit]
    entries at [cursor] and, as long as the answer carries a [next_cursor],
    asks again from there.  It is done when a page comes without
    [next_cursor], and then has the entries it read and the number of
    requests it made; it has nothing when a request fails, or when it has
    made [fuel] requests and the last page still carried a [next_cursor]. *)
Fixpoint read_pages (fuel : nat) (a : string) (limit cursor : Z) (s : State)
    : option (list LedgerEntry * nat) :=
  match fuel with
  | O => None
  | S n =>
      let r := get_transactions a limit cursor s in
      match outcome r with
      | Returned p =>
          match next_cursor p with
          | Some c =>
              match read_pages n a limit c (final r) with
              | Some (rest, k) => Some (items p ++ rest, S k)
              | None => None
              end
          | None => Some (items p, 1%nat)
          end
      | _ => None
      end
  end.

(** The readings of [datetime.utcnow()] a request takes, in the order in
    which its endpoint takes them when it runs to its end. *)
Definition readings (c : Call) : list datetime :=
  match c with
  | CallDeposit _ env | CallWithdraw _ env => [utcnow env]
  | CallTransfer _ _ env => [utcnow_daily env; utcnow env]
  | CallSummary _ env => [utcnow_daily env]
  | CallBalance _ | CallTransactions _ _ _ => []
  end.

Definition all_readings (cs : list Call) : list datetime :=
  concat (map readings cs).

(** The wall clock never reads earlier than it did, from one reading to the
    next, within a request and from one request to the next. *)
Definition wall_clock_monotone (cs : list Call) : Prop :=
  StronglySorted Z.le (all_readings cs).

(** The state after one rate-limit check for each of [times], in order. *)
Definition limiter_run (a : string) (times : list float) (s : State) : State :=
  fold_left (λ s t, final (check_rate_limit a t s)) times s.

(** The request returns. *)
Definition returns (c : Call) (s : State) : Prop :=
  match c with
  | CallBalance a => ∃ r, outcome (get_balance a s) = Returned r
  | CallDeposit req env => ∃ e, outcome (deposit req env s) = Returned e
  | CallWithdraw req env => ∃ e, outcome (withdraw req env s) = Returned e
  | CallTransfer req key env =>
      ∃ r, outcome (transfer req key env s) = Returned r
  | CallTransactions a limit cursor =>
      ∃ p, outcome (get_transactions a limit cursor s) = Returned p
  | CallSummary a env => ∃ r, outcome (account_summary a env s) = Returned r
  end.

(** The requests that only read. *)
Definition is_read (c : Call) : Prop :=
  match c with
  | CallBalance _ | CallTransactions _ _ _ | CallSummary _ _ => True
  | CallDeposit _ _ | CallWithdraw _ _ | CallTransfer _ _ _ => False
  end.

(** Every request sees the same in [s'] as in [s]: balances and histories
    read the same, the same locks are held, and the idempotency records and
    the rate windows are the same. *)
Definition same_view (s s' : State) : Prop :=
  same_reading s s' ∧ same_locks s s' ∧
  idempotency_store s' = idempotency_store s ∧ rate_limits s' = rate_limits s.

(** The accounts a request names. *)
Definition names (c : Call) : list string :=
  match c with
  | CallBalance a | CallTransactions a _ _ | CallSummary a _ => [a]
  | CallDeposit req _ | CallWithdraw req _ => [account_id req]
  | CallTransfer req _ _ => [from_account req; to_account req]
  end.

(** Nothing that is stored for account [b] differs between [s] and [s']:
    its balance, its history, its lock and its rate window. *)
Definition same_at (b : string) (s s' : State) : Prop :=
  accounts s' !! b = accounts s !! b ∧ ledger s' !! b = ledger s !! b ∧
  account_locks s' !! b = account_locks s !! b ∧
  rate_limits s' !! b = rate_limits s !! b.

(** ** Running the primitives *)

Lemma run_bind {A B} (m : M A) (k : A → M B) (s : State) :
  (m ≫= k) s =
  match m s with
  | mkRun (Returned a) s1 ev1 =>
      match k a s1 with
      | mkRun o s2 ev2 => mkRun o s2 (ev1 ++ ev2)
      end
  | mkRun (Raised e) s1 ev1 => mkRun (Raised e) s1 ev1
  | mkRun Blocked s1 ev1 => mkRun Blocked s1 ev1
  end.
Proof. reflexivity. Qed.

Lemma run_ret {A} (a : A) (s : State) : (mret a : M A) s = mkRun (Returned a) s [].
Proof. reflexivity. Qed.

Lemma run_eta {A} (r : Run A) : mkRun (outcome r) (final r) (events r) = r.
Proof. by destruct r. Qed.

Lemma run_bind_pure {A B} (m : M A) (k : A → M B) (s s1 : State) (a : A) :
  m s = mkRun (Returned a) s1 [] → (m ≫= k) s = k a s1.
Proof. intros E. rewrite run_bind, E. by destruct (k a s1). Qed.

Lemma run_bind_raised {A B} (m : M A) (k : A → M B) s s1 e ev :
  m s = mkRun (Raised e) s1 ev → (m ≫= k) s = mkRun (Raised e) s1 ev.
Proof. intros E. by rewrite run_bind, E. Qed.

Lemma run_bind_blocked {A B} (m : M A) (k : A → M B) s s1 ev :
  m s = mkRun Blocked s1 ev → (m ≫= k) s = mkRun Blocked s1 ev.
Proof. intros E. by rewrite run_bind, E. Qed.

Lemma run_validate_pos (n : Z) (s : State) :
  0 < n → validate_gt0 n s = mkRun (Returned tt) s [].
Proof. intros H. unfold validate_gt0. by rewrite bool_decide_eq_true_2. Qed.

Lemma run_validate_neg (n : Z) (s : State) :
  ¬ 0 < n → validate_gt0 n s = mkRun (Raised ValidationError) s [].
Proof. intros H. unfold validate_gt0. by rewrite bool_decide_eq_false_2. Qed.

Lemma run_ensure_account (a : string) (s : State) :
  ensure_account a s = mkRun (Returned tt) (create a s) [].
Proof.
  unfold ensure_account, create.
  rewrite (run_bind_pure _ _ s s (bool_decide (is_Some (accounts s !! a))));
    [|reflexivity].
  case_bool_decide; [reflexivity|].
  by rewrite (run_bind_pure _ _ s (set_accounts <[a:=0]> s) tt).
Qed.

Lemma run_get_lock (a : string) (s : State) :
  get_lock a s = mkRun (Returned a) (mklock a s) [].
Proof.
  unfold get_lock, mklock.
  rewrite (run_bind_pure _ _ s s (bool_decide (is_Some (account_locks s !! a))));
    [|reflexivity].
  case_bool_decide.
  - by rewrite (run_bind_pure _ _ s s tt).
  - by rewrite (run_bind_pure _ _ s (set_account_locks <[a:=false]> s) tt).
Qed.

Lemma run_check_rate_limit (a : string) (now : float) (s : State) :
  check_rate_limit a now s =
  if bool_decide (RATE_LIMIT_PER_MINUTE ≤ length (rate_window a now s))%nat
  then mkRun (Raised RateLimited) s []
  else mkRun (Returned tt) (record_rate a now s) [].
Proof.
  unfold check_rate_limit.
  rewrite (run_bind_pure _ _ s s (default [] (rate_limits s !! a)));
    [|reflexivity].
  fold (rate_window a now s). by case_bool_decide.
Qed.

Lemma run_get_daily_transfer_total (a : string) (now : datetime) (s : State) :
  get_daily_transfer_total a now s = mkRun (Returned (daily_total a now s)) s [].
Proof.
  unfold get_daily_transfer_total.
  by rewrite (run_bind_pure _ _ s s (default [] (ledger s !! a))).
Qed.

Lemma run_getitem {V} (f : State → gmap string V) (k : string) (v : V) s :
  f s !! k = Some v → getitem f k s = mkRun (Returned v) s [].
Proof. intros E. unfold getitem. by rewrite E. Qed.

Lemma run_with_lock_held {A} (l : string) (body : M A) (s : State) :
  held l s → with_lock l body s = mkRun Blocked s [].
Proof. intros H. unfold with_lock, acquire. by rewrite H. Qed.

Lemma run_with_lock_free {A} (l : string) (body : M A) (s : State) :
  account_locks s !! l = Some false →
  with_lock l body s =
  match body (hold l s) with
  | mkRun Blocked s2 ev2 => mkRun Blocked s2 (Acquire l :: ev2)
  | mkRun o s2 ev2 => mkRun o (free l s2) (Acquire l :: ev2 ++ [Release l])
  end.
Proof.
  intros H. unfold with_lock, acquire. rewrite H. fold (hold l s).
  by destruct (body (hold l s)) as [[?|?|] ? ?].
Qed.

(** ** The primitive state changes, field by field *)

Lemma mklock_lookup_held (a : string) (s : State) :
  held a (mklock a s) ↔ held a s.
Proof.
  unfold held, mklock. case_bool_decide as H; [done|].
  cbn [account_locks set_account_locks]. rewrite lookup_insert_eq.
  split; [done|]. intros E. destruct H. by rewrite E.
Qed.

Lemma mklock_lookup_free (a : string) (s : State) :
  ¬ held a s → account_locks (mklock a s) !! a = Some false.
Proof.
  unfold held, mklock. intros H. case_bool_decide as H1.
  - destruct H1 as [[] E]; congruence.
  - cbn [account_locks set_account_locks]. by rewrite lookup_insert_eq.
Qed.

Lemma accounts_create_lookup (a b : string) (s : State) :
  balance_of (create a s) b = balance_of s b.
Proof.
  unfold balance_of, create. case_bool_decide as H; [done|].
  cbn [accounts set_accounts set_ledger].
  destruct (decide (a = b)) as [->|Hne].
  - rewrite lookup_insert_eq. apply eq_None_not_Some in H. by rewrite H.
  - by rewrite lookup_insert_ne.
Qed.

Lemma accounts_create_is_Some (a : string) (s : State) :
  accounts (create a s) !! a = Some (balance_of s a).
Proof.
  unfold balance_of, create. case_bool_decide as H.
  - destruct H as [b E]. by rewrite E.
  - cbn [accounts set_accounts set_ledger]. rewrite lookup_insert_eq.
    apply eq_None_not_Some in H. by rewrite H.
Qed.

Lemma create_books_wf (a : string) (s : State) :
  books_wf s → books_wf (create a s).
Proof.
  unfold books_wf, create. intros Hwf. case_bool_decide as H; [done|].
  intros b. cbn [accounts ledger set_accounts set_ledger].
  destruct (decide (a = b)) as [->|Hne].
  - rewrite !lookup_insert_eq. split; eauto.
  - rewrite !lookup_insert_ne by done. apply Hwf.
Qed.

Lemma ledger_create_lookup (a b : string) (s : State) :
  books_wf s → ledger_of (create a s) b = ledger_of s b.
Proof.
  unfold ledger_of, create. intros Hwf. case_bool_decide as H; [done|].
  cbn [ledger set_accounts set_ledger].
  destruct (decide (a = b)) as [->|Hne].
  - rewrite lookup_insert_eq. rewrite (Hwf b) in H.
    apply eq_None_not_Some in H. by rewrite H.
  - by rewrite lookup_insert_ne.
Qed.

Lemma ledger_create_is_Some (a : string) (s : State) :
  books_wf s → ledger (create a s) !! a = Some (ledger_of s a).
Proof.
  unfold ledger_of, create. intros Hwf. case_bool_decide as H.
  - rewrite (Hwf a) in H. destruct H as [l E]. by rewrite E.
  - cbn [ledger set_accounts set_ledger]. rewrite lookup_insert_eq.
    rewrite (Hwf a) in H. apply eq_None_not_Some in H. by rewrite H.
Qed.

Lemma create_account_locks a s : account_locks (create a s) = account_locks s.
Proof. unfold create. by case_bool_decide. Qed.

Lemma create_idempotency_store a s :
  idempotency_store (create a s) = idempotency_store s.
Proof. unfold create. by case_bool_decide. Qed.

Lemma create_rate_limits a s : rate_limits (create a s) = rate_limits s.
Proof. unfold create. by case_bool_decide. Qed.

Lemma mklock_accounts a s : accounts (mklock a s) = accounts s.
Proof. unfold mklock. by case_bool_decide. Qed.

Lemma mklock_ledger a s : ledger (mklock a s) = ledger s.
Proof. unfold mklock. by case_bool_decide. Qed.

Lemma mklock_idempotency_store a s :
  idempotency_store (mklock a s) = idempotency_store s.
Proof. unfold mklock. by case_bool_decide. Qed.

Lemma mklock_rate_limits a s : rate_limits (mklock a s) = rate_limits s.
Proof. unfold mklock. by case_bool_decide. Qed.

Lemma locked1_accounts a s : accounts (locked1 a s) = accounts (create a s).
Proof. unfold locked1, hold. cbn [accounts set_account_locks]. apply mklock_accounts. Qed.

Lemma locked1_ledger a s : ledger (locked1 a s) = ledger (create a s).
Proof. unfold locked1, hold. cbn [ledger set_account_locks]. apply mklock_ledger. Qed.

Lemma locked1_balance_of a b s : balance_of (locked1 a s) b = balance_of s b.
Proof.
  unfold balance_of at 1. rewrite locked1_accounts. apply accounts_create_lookup.
Qed.

Lemma locked1_ledger_of a b s :
  books_wf s → ledger_of (locked1 a s) b = ledger_of s b.
Proof.
  intros. unfold ledger_of at 1. rewrite locked1_ledger.
  by apply ledger_create_lookup.
Qed.

(** ** Every run of an endpoint is one of its ways *)

Lemma run_post_tail (a tx ty : string) (amt nb : Z) (ts : datetime) (s : State) :
  is_Some (ledger s !! a) → nb = balance_of s a + amt →
  (write (set_accounts <[a := nb]>);;
   b' ← getitem accounts a;
   let entry := {| tx_id := tx; type := ty; amount := amt;
                   balance_after := b'; timestamp := ts |} in
   l ← getitem ledger a;
   write (set_ledger <[a := l ++ [entry]]>);;
   mret entry) s =
  mkRun (Returned {| tx_id := tx; type := ty; amount := amt;
                     balance_after := balance_of s a + amt; timestamp := ts |})
        (post a tx ty amt ts s) [].
Proof.
  intros [l Hl] ->.
  rewrite (run_bind_pure _ _ s (set_accounts <[a:=balance_of s a + amt]> s) tt)
    by done.
  rewrite (run_bind_pure _ _ _ (set_accounts <[a:=balance_of s a + amt]> s)
             (balance_of s a + amt)).
  2: { apply run_getitem. cbn [accounts set_accounts]. apply lookup_insert_eq. }
  cbv zeta.
  rewrite (run_bind_pure _ _ _ (set_accounts <[a:=balance_of s a + amt]> s) l).
  2: { by apply run_getitem. }
  rewrite (run_bind_pure _ _ _ (post a tx ty amt ts s) tt).
  2: { unfold write, post, ledger_of. by rewrite Hl. }
  done.
Qed.

Lemma locked1_has_account a s :
  accounts (locked1 a s) !! a = Some (balance_of s a).
Proof. by rewrite locked1_accounts, accounts_create_is_Some. Qed.

Lemma locked1_has_ledger a s :
  books_wf s → is_Some (ledger (locked1 a s) !! a).
Proof. intros. rewrite locked1_ledger, ledger_create_is_Some by done. eauto. Qed.

Lemma deposit_sound (req : AmountRequest) (env : Env) (s : State) :
  books_wf s → deposit_path req env s (deposit req env s).
Proof.
  intros Hwf. unfold deposit. set (a := account_id req).
  destruct (decide (0 < amount_req req)) as [Hpos|Hneg].
  2: { rewrite (run_bind_raised _ _ s s ValidationError [])
         by by apply run_validate_neg.
       by constructor. }
  rewrite (run_bind_pure _ _ s s tt) by by apply run_validate_pos.
  rewrite (run_bind_pure _ _ s (create a s) tt) by apply run_ensure_account.
  rewrite (run_bind_pure _ _ _ (mklock a (create a s)) a) by apply run_get_lock.
  destruct (decide (held a s)) as [Hh|Hh].
  - rewrite run_with_lock_held.
    + by constructor.
    + apply mklock_lookup_held. unfold held. by rewrite create_account_locks.
  - rewrite run_with_lock_free.
    2: { apply mklock_lookup_free. unfold held. by rewrite create_account_locks. }
    fold (locked1 a s).
    rewrite (run_bind_pure _ _ _ (locked1 a s) (balance_of s a))
      by (apply run_getitem, locked1_has_account).
    assert (E := run_post_tail a (uuid4 env) "deposit" (amount_req req)
                   (balance_of s a + amount_req req) (utcnow env) (locked1 a s)).
    cbv zeta in E. rewrite E.
    + rewrite locked1_balance_of. by apply dp_ok.
    + by apply locked1_has_ledger.
    + by rewrite locked1_balance_of.
Qed.

Lemma withdraw_sound (req : AmountRequest) (env : Env) (s : State) :
  books_wf s → withdraw_path req env s (withdraw req env s).
Proof.
  intros Hwf. unfold withdraw. set (a := account_id req).
  destruct (decide (0 < amount_req req)) as [Hpos|Hneg].
  2: { rewrite (run_bind_raised _ _ s s ValidationError [])
         by by apply run_validate_neg.
       by constructor. }
  rewrite (run_bind_pure _ _ s s tt) by by apply run_validate_pos.
  rewrite (run_bind_pure _ _ s (create a s) tt) by apply run_ensure_account.
  rewrite (run_bind_pure _ _ _ (mklock a (create a s)) a) by apply run_get_lock.
  destruct (decide (held a s)) as [Hh|Hh].
  - rewrite run_with_lock_held.
    + by constructor.
    + apply mklock_lookup_held. unfold held. by rewrite create_account_locks.
  - rewrite run_with_lock_free.
    2: { apply mklock_lookup_free. unfold held. by rewrite create_account_locks. }
    fold (locked1 a s).
    rewrite (run_bind_pure _ _ _ (locked1 a s) (balance_of s a))
      by (apply run_getitem, locked1_has_account).
    case_bool_decide as Hb.
    + by apply wp_insufficient.
    + assert (E := run_post_tail a (uuid4 env) "withdrawal" (- amount_req req)
                     (balance_of s a - amount_req req) (utcnow env) (locked1 a s)).
      cbv zeta in E. rewrite E.
      * rewrite locked1_balance_of. by apply wp_ok.
      * by apply locked1_has_ledger.
      * rewrite locked1_balance_of. lia.
Qed.

Lemma run_getitem_accounts (k : string) (s : State) :
  is_Some (accounts s !! k) →
  getitem accounts k s = mkRun (Returned (balance_of s k)) s [].
Proof. intros [b E]. unfold getitem, balance_of. by rewrite E. Qed.

Lemma run_getitem_ledger (k : string) (s : State) :
  is_Some (ledger s !! k) →
  getitem ledger k s = mkRun (Returned (ledger_of s k)) s [].
Proof. intros [b E]. unfold getitem, ledger_of. by rewrite E. Qed.

Lemma is_Some_insert {V} (m : gmap string V) (k k' : string) (v : V) :
  is_Some (m !! k') → is_Some (<[k := v]> m !! k').
Proof.
  intros H. destruct (decide (k = k')) as [->|Hne].
  - rewrite lookup_insert_eq. eauto.
  - by rewrite lookup_insert_ne.
Qed.

Lemma run_transfer_locked (req : TransferRequest) (env : Env) (s : State) :
  is_Some (accounts s !! from_account req) →
  is_Some (accounts s !! to_account req) →
  is_Some (ledger s !! from_account req) →
  is_Some (ledger s !! to_account req) →
  transfer_locked req env s =
  if decide (DAILY_TRANSFER_LIMIT <
             daily_total (from_account req) (utcnow_daily env) s + amount_tr req)
  then mkRun (Raised DailyLimitExceeded) s []
  else if decide (balance_of s (from_account req) < amount_tr req)
  then mkRun (Raised InsufficientFunds) s []
  else mkRun (Returned (uuid4 env)) (post_transfer req env s) [].
Proof.
  intros Haf Hat Hlf Hlt. unfold transfer_locked.
  rewrite (run_bind_pure _ _ s s
             (daily_total (from_account req) (utcnow_daily env) s))
    by apply run_get_daily_transfer_total.
  case_bool_decide as Hd; [by rewrite decide_True|rewrite decide_False by done].
  rewrite (run_bind_pure _ _ s s (balance_of s (from_account req)))
    by by apply run_getitem_accounts.
  case_bool_decide as Hb; [by rewrite decide_True|rewrite decide_False by done].
  unfold post_transfer.
  set (s1 := set_accounts
               <[from_account req :=
                   balance_of s (from_account req) - amount_tr req]> s).
  rewrite (run_bind_pure _ _ s s1 tt) by done.
  rewrite (run_bind_pure _ _ s1 s1 (balance_of s1 (to_account req))).
  2: { apply run_getitem_accounts. by apply is_Some_insert. }
  set (s2 := set_accounts
               <[to_account req :=
                   balance_of s1 (to_account req) + amount_tr req]> s1).
  rewrite (run_bind_pure _ _ s1 s2 tt) by done.
  cbv zeta.
  rewrite (run_bind_pure _ _ s2 s2 (balance_of s2 (from_account req))).
  2: { apply run_getitem_accounts. by do 2 apply is_Some_insert. }
  rewrite (run_bind_pure _ _ s2 s2 (ledger_of s2 (from_account req))).
  2: { by apply run_getitem_ledger. }
  match goal with
  | |- context [write (set_ledger ?f)] => set (s3 := set_ledger f s2)
  end.
  rewrite (run_bind_pure _ _ s2 s3 tt) by done.
  rewrite (run_bind_pure _ _ s3 s3 (balance_of s3 (to_account req))).
  2: { apply run_getitem_accounts. by do 2 apply is_Some_insert. }
  rewrite (run_bind_pure _ _ s3 s3 (ledger_of s3 (to_account req))).
  2: { apply run_getitem_ledger. by apply is_Some_insert. }
  match goal with
  | |- context [write (set_ledger ?f)] => set (s4 := set_ledger f s3)
  end.
  by rewrite (run_bind_pure _ _ s3 s4 tt).
Qed.

Lemma run_cached (key : option string) (now : float) (s : State) :
  match key with
  | Some k => if truthy k then check_idempotency k now else mret None
  | None => mret None
  end s = mkRun (Returned (cache_lookup key now s)) s [].
Proof.
  unfold cache_lookup. destruct key as [k|]; [|done].
  destruct (truthy k); [|done]. unfold check_idempotency.
  rewrite (run_bind_pure _ _ s s (idempotency_store s !! k)) by done.
  destruct (idempotency_store s !! k) as [r|]; [|done].
  by destruct (now <? expires_at r)%float.
Qed.

Lemma run_store (key : option string) (resp : TransferResponse) (now : float)
    (s : State) :
  match key with
  | Some k => if truthy k then store_idempotency k resp now else mret tt
  | None => mret tt
  end s = mkRun (Returned tt) (store key resp now s) [].
Proof.
  unfold store. destruct key as [k|]; [|done]. by destruct (truthy k).
Qed.

Lemma sorted2_locks (req : TransferRequest) :
  sorted2 (from_account req) (to_account req) = (first_lock req, second_lock req).
Proof. unfold first_lock, second_lock. by destruct (sorted2 _ _). Qed.

Lemma create_keeps_account a b s :
  is_Some (accounts s !! b) → is_Some (accounts (create a s) !! b).
Proof.
  unfold create. case_bool_decide; [done|].
  cbn [accounts set_accounts set_ledger]. apply is_Some_insert.
Qed.

Lemma create_keeps_ledger a b s :
  is_Some (ledger s !! b) → is_Some (ledger (create a s) !! b).
Proof.
  unfold create. case_bool_decide; [done|].
  cbn [ledger set_accounts set_ledger]. apply is_Some_insert.
Qed.

Lemma create_has_account a s : is_Some (accounts (create a s) !! a).
Proof. rewrite accounts_create_is_Some. eauto. Qed.

Lemma create_has_ledger a s : books_wf s → is_Some (ledger (create a s) !! a).
Proof. intros. rewrite ledger_create_is_Some by done. eauto. Qed.

Lemma locked2_accounts req env s :
  accounts (locked2 req env s) = accounts (opened req s).
Proof.
  unfold locked2, at_second, at_first, slotted, record_rate, hold.
  cbn [accounts set_account_locks]. rewrite mklock_accounts.
  cbn [accounts set_account_locks]. by rewrite mklock_accounts.
Qed.

Lemma locked2_ledger req env s :
  ledger (locked2 req env s) = ledger (opened req s).
Proof.
  unfold locked2, at_second, at_first, slotted, record_rate, hold.
  cbn [ledger set_account_locks]. rewrite mklock_ledger.
  cbn [ledger set_account_locks]. by rewrite mklock_ledger.
Qed.

Lemma opened_books_wf req s : books_wf s → books_wf (opened req s).
Proof. intros. unfold opened. by do 2 apply create_books_wf. Qed.

Lemma opened_has_accounts req s :
  is_Some (accounts (opened req s) !! from_account req) ∧
  is_Some (accounts (opened req s) !! to_account req).
Proof.
  unfold opened. split.
  - apply create_keeps_account, create_has_account.
  - apply create_has_account.
Qed.

Lemma opened_has_ledgers req s :
  books_wf s →
  is_Some (ledger (opened req s) !! from_account req) ∧
  is_Some (ledger (opened req s) !! to_account req).
Proof.
  intros Hwf. unfold opened. split.
  - by apply create_keeps_ledger, create_has_ledger.
  - by apply create_has_ledger, create_books_wf.
Qed.

Lemma transfer_sound (req : TransferRequest) (key : option string) (env : Env)
    (s : State) :
  books_wf s → transfer_path req key env s (transfer req key env s).
Proof.
  intros Hwf. unfold transfer.
  destruct (decide (0 < amount_tr req)) as [Hpos|Hneg].
  2: { rewrite (run_bind_raised _ _ s s ValidationError [])
         by by apply run_validate_neg.
       by constructor. }
  rewrite (run_bind_pure _ _ s s tt) by by apply run_validate_pos.
  case_bool_decide as Hmax; [by apply tp_per_transfer|].
  rewrite (run_bind_pure _ _ s s (cache_lookup key (time_check env) s))
    by apply run_cached.
  destruct (cache_lookup key (time_check env) s) as [resp|] eqn:Hc.
  { by apply tp_cached. }
  rewrite (run_bind_pure _ _ s (create (from_account req) s) tt)
    by apply run_ensure_account.
  rewrite (run_bind_pure _ _ _ (opened req s) tt) by apply run_ensure_account.
  destruct (decide (rate_exceeded req env s)) as [Hr|Hr].
  { rewrite (run_bind_raised _ _ _ (opened req s) RateLimited []).
    - by apply tp_rate_limited.
    - rewrite run_check_rate_limit. by rewrite bool_decide_eq_true_2. }
  rewrite (run_bind_pure _ _ _ (slotted req env s) tt).
  2: { rewrite run_check_rate_limit. by rewrite bool_decide_eq_false_2. }
  rewrite sorted2_locks.
  rewrite (run_bind_pure _ _ _ (at_first req env s) (first_lock req))
    by apply run_get_lock.
  destruct (decide (held (first_lock req) (at_first req env s))) as [H1|H1].
  { rewrite (run_bind_blocked _ _ _ (at_first req env s) []).
    - by apply tp_blocked_first.
    - by apply run_with_lock_held. }
  assert (account_locks (at_first req env s) !! first_lock req = Some false)
    as H1'.
  { apply mklock_lookup_free. intros H. apply H1. by apply mklock_lookup_held. }
  destruct (decide (held (second_lock req) (at_second req env s))) as [H2|H2].
  { rewrite (run_bind_blocked _ _ _ (at_second req env s)
               [Acquire (first_lock req)]).
    - by apply tp_blocked_second.
    - rewrite run_with_lock_free by done.
      rewrite (run_bind_pure _ _ _ (at_second req env s) (second_lock req))
        by apply run_get_lock.
      by rewrite run_with_lock_held. }
  assert (account_locks (at_second req env s) !! second_lock req = Some false)
    as H2'.
  { apply mklock_lookup_free. intros H. apply H2. by apply mklock_lookup_held. }
  destruct (opened_has_accounts req s) as [Haf Hat].
  destruct (opened_has_ledgers req s Hwf) as [Hlf Hlt].
  rewrite <- (locked2_accounts req env s) in Haf, Hat.
  rewrite <- (locked2_ledger req env s) in Hlf, Hlt.
  assert (Hbody := run_transfer_locked req env (locked2 req env s)
                     Haf Hat Hlf Hlt).
  destruct (decide (daily_exceeded req env s)) as [Hd|Hd].
  { rewrite decide_True in Hbody by done.
    rewrite (run_bind_raised _ _ _ (unlocked2 req (locked2 req env s))
               DailyLimitExceeded (lock_events req)).
    - by apply tp_daily.
    - rewrite run_with_lock_free by done.
      rewrite (run_bind_pure _ _ _ (at_second req env s) (second_lock req))
        by apply run_get_lock.
      rewrite run_with_lock_free by done.
      fold (locked2 req env s). by rewrite Hbody. }
  rewrite decide_False in Hbody by done.
  destruct (decide (short_of_funds req env s)) as [Hf|Hf].
  { rewrite decide_True in Hbody by done.
    rewrite (run_bind_raised _ _ _ (unlocked2 req (locked2 req env s))
               InsufficientFunds (lock_events req)).
    - by apply tp_insufficient.
    - rewrite run_with_lock_free by done.
      rewrite (run_bind_pure _ _ _ (at_second req env s) (second_lock req))
        by apply run_get_lock.
      rewrite run_with_lock_free by done.
      fold (locked2 req env s). by rewrite Hbody. }
  rewrite decide_False in Hbody by done.
  rewrite run_bind.
  rewrite run_with_lock_free by done.
  rewrite (run_bind_pure _ _ _ (at_second req env s) (second_lock req))
    by apply run_get_lock.
  rewrite run_with_lock_free by done.
  fold (locked2 req env s). rewrite Hbody.
  cbv zeta.
  rewrite (run_bind_pure _ _ _
             (store key (success env) (time_store env)
                (unlocked2 req (post_transfer req env (locked2 req env s)))) tt)
    by apply run_store.
  by apply tp_ok.
Qed.

(** ** The effect of a request on the books *)

Lemma books_eq_refl s : books_eq s s.
Proof. by split. Qed.

Lemma books_eq_sym s s' : books_eq s s' → books_eq s' s.
Proof. intros [E1 E2]. by split. Qed.

Lemma books_eq_trans s1 s2 s3 : books_eq s1 s2 → books_eq s2 s3 → books_eq s1 s3.
Proof. intros [E1 E2] [E3 E4]. split; congruence. Qed.

Lemma books_eq_free a s : books_eq (free a s) s.
Proof. by split. Qed.

Lemma books_eq_hold a s : books_eq (hold a s) s.
Proof. by split. Qed.

Lemma books_eq_mklock a s : books_eq (mklock a s) s.
Proof. split; [apply mklock_accounts|apply mklock_ledger]. Qed.

Lemma books_eq_record_rate a now s : books_eq (record_rate a now s) s.
Proof. by split. Qed.

Lemma books_eq_store key resp now s : books_eq (store key resp now s) s.
Proof. unfold store. destruct key as [k|]; [|done]. by destruct (truthy k). Qed.

Lemma books_eq_balance_of s s' a : books_eq s s' → balance_of s a = balance_of s' a.
Proof. intros [E _]. unfold balance_of. by rewrite E. Qed.

Lemma books_eq_ledger_of s s' a : books_eq s s' → ledger_of s a = ledger_of s' a.
Proof. intros [_ E]. unfold ledger_of. by rewrite E. Qed.

Lemma create_books_eq a s s' : books_eq s s' → books_eq (create a s) (create a s').
Proof.
  intros [Ea El]. unfold create. rewrite Ea. case_bool_decide; [done|].
  split; cbn [accounts ledger set_accounts set_ledger]; congruence.
Qed.

Lemma post_books_eq a tx ty amt ts s s' :
  books_eq s s' → books_eq (post a tx ty amt ts s) (post a tx ty amt ts s').
Proof.
  intros [Ea El]. unfold post, balance_of, ledger_of.
  split; cbn [accounts ledger set_accounts set_ledger]; by rewrite ?Ea, ?El.
Qed.

Lemma post_transfer_books_eq req env s s' :
  books_eq s s' → books_eq (post_transfer req env s) (post_transfer req env s').
Proof.
  intros [Ea El]. unfold post_transfer, balance_of, ledger_of.
  split; cbn [accounts ledger set_accounts set_ledger]; by rewrite ?Ea, ?El.
Qed.

Lemma books_eq_locked1 a s : books_eq (locked1 a s) (create a s).
Proof. split; [apply locked1_accounts|apply locked1_ledger]. Qed.

Lemma books_eq_locked2 req env s : books_eq (locked2 req env s) (opened req s).
Proof. split; [apply locked2_accounts|apply locked2_ledger]. Qed.

Lemma books_eq_at_first req env s : books_eq (at_first req env s) (opened req s).
Proof.
  unfold at_first, slotted.
  eapply books_eq_trans; [apply books_eq_mklock|apply books_eq_record_rate].
Qed.

Lemma books_eq_at_second req env s : books_eq (at_second req env s) (opened req s).
Proof.
  unfold at_second.
  eapply books_eq_trans; [apply books_eq_mklock|].
  eapply books_eq_trans; [apply books_eq_hold|apply books_eq_at_first].
Qed.

Lemma books_eq_unlocked2 req s : books_eq (unlocked2 req s) s.
Proof. by split. Qed.

(** A transfer from an account to itself reaches its second [acquire] with
    the lock it wants already in its own hands. *)
Lemma sorted2_same (a : string) : sorted2 a a = (a, a).
Proof. unfold sorted2. by destruct (String.ltb a a). Qed.

Lemma self_transfer_holds_second req env s :
  from_account req = to_account req →
  held (second_lock req) (at_second req env s).
Proof.
  intros E.
  assert (second_lock req = first_lock req) as Hsame.
  { unfold second_lock, first_lock. by rewrite <- E, sorted2_same. }
  unfold at_second. rewrite Hsame.
  apply (proj2 (mklock_lookup_held _ _)). unfold held, hold.
  cbn [account_locks set_account_locks]. apply lookup_insert_eq.
Qed.

Lemma final_get_balance a s : final (get_balance a s) = create a s.
Proof.
  unfold get_balance.
  rewrite (run_bind_pure _ _ s (create a s) tt) by apply run_ensure_account.
  rewrite (run_bind_pure _ _ _ (create a s) (balance_of (create a s) a)).
  - done.
  - apply run_getitem_accounts, create_has_account.
Qed.

Lemma final_account_summary a env s :
  books_wf s → final (account_summary a env s) = create a s.
Proof.
  intros Hwf. unfold account_summary.
  rewrite (run_bind_pure _ _ s (create a s) tt) by apply run_ensure_account.
  rewrite (run_bind_pure _ _ _ (create a s)
             (daily_total a (utcnow_daily env) (create a s)))
    by apply run_get_daily_transfer_total.
  rewrite (run_bind_pure _ _ _ (create a s) (balance_of (create a s) a))
    by apply run_getitem_accounts, create_has_account.
  rewrite (run_bind_pure _ _ _ (create a s) (ledger_of (create a s) a)).
  - done.
  - by apply run_getitem_ledger, create_has_ledger.
Qed.

Lemma final_get_transactions a limit cursor s :
  books_wf s → final (get_transactions a limit cursor s) = create a s.
Proof.
  intros Hwf. unfold get_transactions.
  rewrite (run_bind_pure _ _ s (create a s) tt) by apply run_ensure_account.
  rewrite (run_bind_pure _ _ _ (create a s) (ledger_of (create a s) a))
    by by apply run_getitem_ledger, create_has_ledger.
  cbv zeta.
  rewrite (run_bind_pure _ _ _ (create a s) (ledger_of (create a s) a)).
  - done.
  - by apply run_getitem_ledger, create_has_ledger.
Qed.

Lemma step_effect (c : Call) (s : State) :
  books_wf s → ∃ e, effect_of c e ∧ books_eq (step c s) (apply_effect e s).
Proof.
  intros Hwf.
  destruct c as [a|req env|req env|req key env|a limit cursor|a env];
    cbn [step].
  - exists (Touch a). split; [constructor|].
    rewrite final_get_balance. apply books_eq_refl.
  - pose proof (deposit_sound req env s Hwf) as H.
    destruct H.
    + exists Nothing. split; [constructor|apply books_eq_refl].
    + exists (Touch (account_id req)). split; [constructor|].
      apply books_eq_mklock.
    + eexists (Post _ _ _ _ _). split; [by apply eo_deposit|].
      cbn [final apply_effect].
      eapply books_eq_trans; [apply books_eq_free|].
      apply post_books_eq, books_eq_locked1.
  - pose proof (withdraw_sound req env s Hwf) as H.
    destruct H.
    + exists Nothing. split; [constructor|apply books_eq_refl].
    + exists (Touch (account_id req)). split; [constructor|].
      apply books_eq_mklock.
    + exists (Touch (account_id req)). split; [constructor|].
      cbn [final apply_effect].
      eapply books_eq_trans; [apply books_eq_free|apply books_eq_locked1].
    + eexists (Post _ _ _ _ _). split; [by apply eo_withdraw|].
      cbn [final apply_effect].
      eapply books_eq_trans; [apply books_eq_free|].
      apply post_books_eq, books_eq_locked1.
  - pose proof (transfer_sound req key env s Hwf) as H.
    destruct H.
    + exists Nothing. split; [constructor|apply books_eq_refl].
    + exists Nothing. split; [constructor|apply books_eq_refl].
    + exists Nothing. split; [constructor|apply books_eq_refl].
    + exists (Touch2 req). split; [constructor|apply books_eq_refl].
    + exists (Touch2 req). split; [constructor|apply books_eq_at_first].
    + exists (Touch2 req). split; [constructor|apply books_eq_at_second].
    + exists (Touch2 req). split; [constructor|].
      eapply books_eq_trans; [apply books_eq_unlocked2|apply books_eq_locked2].
    + exists (Touch2 req). split; [constructor|].
      eapply books_eq_trans; [apply books_eq_unlocked2|apply books_eq_locked2].
    + exists (Legs req env). split.
      * apply eo_transfer; [done|]. intros E.
        by pose proof (self_transfer_holds_second req env s E).
      * cbn [final apply_effect].
        eapply books_eq_trans; [apply books_eq_store|].
        eapply books_eq_trans; [apply books_eq_unlocked2|].
        apply post_transfer_books_eq, books_eq_locked2.
  - exists (Touch a). split; [constructor|].
    rewrite final_get_transactions by done. apply books_eq_refl.
  - exists (Touch a). split; [constructor|].
    rewrite final_account_summary by done. apply books_eq_refl.
Qed.

(** ** Posting, read back *)

Lemma balance_of_post a tx ty amt ts s b :
  balance_of (post a tx ty amt ts s) b =
  if decide (a = b) then balance_of s a + amt else balance_of s b.
Proof.
  unfold post. unfold balance_of at 1. cbn [accounts set_accounts set_ledger].
  case_decide as H.
  - subst. by rewrite lookup_insert_eq.
  - by rewrite lookup_insert_ne.
Qed.

Lemma ledger_of_post a tx ty amt ts s b :
  ledger_of (post a tx ty amt ts s) b =
  if decide (a = b)
  then ledger_of s a ++
       [{| tx_id := tx; type := ty; amount := amt;
           balance_after := balance_of s a + amt; timestamp := ts |}]
  else ledger_of s b.
Proof.
  unfold post. unfold ledger_of at 1. cbn [ledger set_accounts set_ledger].
  case_decide as H.
  - subst. by rewrite lookup_insert_eq.
  - by rewrite lookup_insert_ne.
Qed.

Lemma post_books_wf a tx ty amt ts s : books_wf s → books_wf (post a tx ty amt ts s).
Proof.
  intros Hwf b. unfold post. cbn [accounts ledger set_accounts set_ledger].
  destruct (decide (a = b)) as [->|Hne].
  - rewrite !lookup_insert_eq. split; eauto.
  - rewrite !lookup_insert_ne by done. apply Hwf.
Qed.

Lemma post_transfer_posts req env s :
  from_account req ≠ to_account req →
  post_transfer req env s =
  post (to_account req) (uuid4 env) "transfer_in" (amount_tr req) (utcnow env)
    (post (from_account req) (uuid4 env) "transfer_out" (- amount_tr req)
       (utcnow env) s).
Proof.
  intros Hne.
  assert (Hne' : to_account req ≠ from_account req) by congruence.
  unfold post_transfer, post. cbv zeta.
  unfold balance_of, ledger_of, set_accounts, set_ledger.
  cbn [accounts ledger account_locks idempotency_store rate_limits].
  f_equal.
  repeat (rewrite lookup_insert_eq || rewrite lookup_insert_ne by done).
  cbn [default from_option].
  repeat (rewrite lookup_insert_eq || rewrite lookup_insert_ne by done).
  reflexivity.
Qed.

Lemma ledger_sum_app l1 l2 : ledger_sum (l1 ++ l2) = ledger_sum l1 + ledger_sum l2.
Proof.
  unfold ledger_sum. induction l1 as [|e l1 IH]; cbn [foldr app]; lia.
Qed.

Lemma legs_sum_app l1 l2 : legs_sum (l1 ++ l2) = legs_sum l1 + legs_sum l2.
Proof.
  unfold legs_sum. induction l1 as [|e l1 IH]; cbn [foldr app]; lia.
Qed.

Lemma net_insert (m : gmap string (list LedgerEntry)) (k : string)
    (l : list LedgerEntry) :
  map_fold (λ _ l acc, legs_sum l + acc) 0 (<[k := l]> m) =
  map_fold (λ _ l acc, legs_sum l + acc) 0 m
  - legs_sum (default [] (m !! k)) + legs_sum l.
Proof.
  assert (∀ (m' : gmap string (list LedgerEntry)) l',
            m' !! k = None →
            map_fold (λ _ l acc, legs_sum l + acc) 0 (<[k := l']> m') =
            legs_sum l' + map_fold (λ _ l acc, legs_sum l + acc) 0 m') as Hfresh.
  { intros m' l' Hm'.
    apply (map_fold_insert_L (λ _ l acc, legs_sum l + acc)); [|done].
    intros j1 j2 z1 z2 y _ _ _. cbv beta. lia. }
  destruct (m !! k) as [l0|] eqn:E; cbn [default from_option id].
  - rewrite <- (insert_delete_eq m k l).
    rewrite <- (insert_delete_id m k l0) at 2 by done.
    rewrite !Hfresh by apply lookup_delete_eq. lia.
  - rewrite Hfresh by done. cbn [legs_sum foldr]. lia.
Qed.

Lemma transfer_net_books_eq s s' : books_eq s s' → transfer_net s = transfer_net s'.
Proof. intros [_ E]. unfold transfer_net. by rewrite E. Qed.

Lemma transfer_net_create a s :
  books_wf s → transfer_net (create a s) = transfer_net s.
Proof.
  intros Hwf. unfold create. case_bool_decide as H; [done|].
  unfold transfer_net. cbn [ledger set_accounts set_ledger].
  rewrite net_insert. rewrite (Hwf a) in H. apply eq_None_not_Some in H.
  rewrite H. cbn [default from_option legs_sum foldr]. lia.
Qed.

Lemma transfer_net_post a tx ty amt ts s :
  transfer_net (post a tx ty amt ts s) =
  transfer_net s +
  (if bool_decide (ty = "transfer_out") || bool_decide (ty = "transfer_in")
   then amt else 0).
Proof.
  unfold transfer_net, post. cbn [ledger set_accounts set_ledger].
  rewrite net_insert. fold (ledger_of s a). rewrite legs_sum_app.
  cbn [legs_sum foldr amount]. unfold is_leg. cbn [type]. lia.
Qed.

(** ** The invariants are kept *)

Lemma elem_of_ledger_post a tx ty amt ts s b e :
  e ∈ ledger_of (post a tx ty amt ts s) b ↔
  e ∈ ledger_of s b ∨
  (b = a ∧ e = {| tx_id := tx; type := ty; amount := amt;
                  balance_after := balance_of s a + amt; timestamp := ts |}).
Proof.
  rewrite ledger_of_post. case_decide as H.
  - subst b. rewrite elem_of_app, list_elem_of_singleton.
    split; (intros [?|?]; [by left|right]); [done|by destruct_and!].
  - split; [by left|]. intros [?|[??]]; [done|congruence].
Qed.

Lemma balanced_books_eq s s' : books_eq s s' → balanced s → balanced s'.
Proof.
  intros E H a.
  rewrite <- (books_eq_balance_of s s' a), <- (books_eq_ledger_of s s' a) by done.
  apply H.
Qed.

Lemma paired_books_eq s s' : books_eq s s' → paired s → paired s'.
Proof.
  intros E [H1 H2]. split; intros a e.
  - rewrite <- (books_eq_ledger_of s s' a) by done. intros Hin Hty.
    destruct (H1 a e Hin Hty) as (b & e' & ? & ? & ?). exists b, e'.
    by rewrite <- (books_eq_ledger_of s s' b).
  - rewrite <- (books_eq_ledger_of s s' a) by done. intros Hin Hty.
    destruct (H2 a e Hin Hty) as (b & e' & ? & ? & ?). exists b, e'.
    by rewrite <- (books_eq_ledger_of s s' b).
Qed.

Lemma books_wf_books_eq s s' : books_eq s s' → books_wf s → books_wf s'.
Proof. intros [Ea El] H a. rewrite <- Ea, <- El. apply H. Qed.

Lemma invariant_books_eq s s' : books_eq s s' → invariant s → invariant s'.
Proof.
  intros E (Hwf & Hb & Hn & Hp). unfold invariant, paired. split_and!.
  - by eapply books_wf_books_eq.
  - by eapply balanced_books_eq.
  - by rewrite <- (transfer_net_books_eq s s').
  - by eapply paired_books_eq.
  - by eapply paired_books_eq.
Qed.

Lemma invariant_create a s : invariant s → invariant (create a s).
Proof.
  intros (Hwf & Hb & Hn & Hp1 & Hp2). unfold invariant, paired. split_and!.
  - by apply create_books_wf.
  - intros b. rewrite accounts_create_lookup, ledger_create_lookup by done.
    apply Hb.
  - by rewrite transfer_net_create.
  - intros b e. rewrite ledger_create_lookup by done. intros Hin Hty.
    destruct (Hp1 b e Hin Hty) as (c & e' & ? & ? & ?). exists c, e'.
    by rewrite ledger_create_lookup.
  - intros b e. rewrite ledger_create_lookup by done. intros Hin Hty.
    destruct (Hp2 b e Hin Hty) as (c & e' & ? & ? & ?). exists c, e'.
    by rewrite ledger_create_lookup.
Qed.

Lemma balanced_post a tx ty amt ts s : balanced s → balanced (post a tx ty amt ts s).
Proof.
  intros Hb b. rewrite balance_of_post, ledger_of_post. case_decide.
  - rewrite ledger_sum_app, <- Hb. cbn [ledger_sum foldr amount]. lia.
  - apply Hb.
Qed.

Lemma invariant_post a tx ty amt ts s :
  ty ≠ "transfer_out" → ty ≠ "transfer_in" →
  invariant s → invariant (post a tx ty amt ts s).
Proof.
  intros Ho Hi (Hwf & Hb & Hn & Hp1 & Hp2). unfold invariant, paired. split_and!.
  - by apply post_books_wf.
  - by apply balanced_post.
  - rewrite transfer_net_post.
    rewrite !bool_decide_eq_false_2 by done. cbn [orb]. lia.
  - intros b e. rewrite elem_of_ledger_post. intros [Hin|[_ ->]] Hty.
    + destruct (Hp1 b e Hin Hty) as (c & e' & ? & ? & ?). exists c, e'.
      rewrite elem_of_ledger_post. auto.
    + done.
  - intros b e. rewrite elem_of_ledger_post. intros [Hin|[_ ->]] Hty.
    + destruct (Hp2 b e Hin Hty) as (c & e' & ? & ? & ?). exists c, e'.
      rewrite elem_of_ledger_post. auto.
    + done.
Qed.

Lemma invariant_post_transfer req env s :
  from_account req ≠ to_account req →
  invariant s → invariant (post_transfer req env s).
Proof.
  intros Hne (Hwf & Hb & Hn & Hp1 & Hp2).
  rewrite post_transfer_posts by done. unfold invariant, paired. split_and!.
  - by do 2 apply post_books_wf.
  - by do 2 apply balanced_post.
  - rewrite !transfer_net_post.
    rewrite (bool_decide_eq_true_2 ("transfer_in" = "transfer_in")) by done.
    rewrite (bool_decide_eq_true_2 ("transfer_out" = "transfer_out")) by done.
    rewrite orb_true_r. cbn [orb]. lia.
  - intros b e. rewrite !elem_of_ledger_post. intros [[Hin|[_ ->]]|[_ ->]] Hty.
    + destruct (Hp1 b e Hin Hty) as (c & e' & ? & ? & ?). exists c, e'.
      rewrite !elem_of_ledger_post. auto.
    + eexists (to_account req), _. rewrite !elem_of_ledger_post.
      split; [right; split; reflexivity|]. split; [done|].
      unfold mirrors. cbn [tx_id timestamp amount]. by rewrite Z.opp_involutive.
    + done.
  - intros b e. rewrite !elem_of_ledger_post. intros [[Hin|[_ ->]]|[_ ->]] Hty.
    + destruct (Hp2 b e Hin Hty) as (c & e' & ? & ? & ?). exists c, e'.
      rewrite !elem_of_ledger_post. auto.
    + done.
    + eexists (from_account req), _. rewrite !elem_of_ledger_post.
      split; [left; right; split; reflexivity|]. split; [done|].
      unfold mirrors. by cbn [tx_id timestamp amount].
Qed.

Lemma invariant_empty : invariant empty_state.
Proof.
  unfold invariant, paired. split_and!.
  - intros a. unfold empty_state. cbn [accounts ledger]. rewrite !lookup_empty.
    split; by intros [??].
  - intros a. unfold balance_of, ledger_of, empty_state. cbn [accounts ledger].
    by rewrite !lookup_empty.
  - done.
  - intros a e. unfold ledger_of, empty_state. cbn [ledger].
    rewrite lookup_empty. cbn [default from_option]. by rewrite elem_of_nil.
  - intros a e. unfold ledger_of, empty_state. cbn [ledger].
    rewrite lookup_empty. cbn [default from_option]. by rewrite elem_of_nil.
Qed.

Lemma invariant_effect c e s :
  effect_of c e → invariant s → invariant (apply_effect e s).
Proof.
  intros He Hinv. destruct He; cbn [apply_effect].
  - done.
  - by apply invariant_create.
  - by apply invariant_create.
  - by apply invariant_create.
  - by apply invariant_create.
  - by apply invariant_create.
  - unfold opened. by do 2 apply invariant_create.
  - apply invariant_post; [done|done|]. by apply invariant_create.
  - apply invariant_post; [done|done|]. by apply invariant_create.
  - apply invariant_post_transfer; [done|].
    unfold opened. by do 2 apply invariant_create.
Qed.

Lemma invariant_step c s : invariant s → invariant (step c s).
Proof.
  intros Hinv. destruct (step_effect c s) as (e & He & Heq); [apply Hinv|].
  apply (invariant_books_eq (apply_effect e s)).
  - by apply books_eq_sym.
  - by eapply invariant_effect.
Qed.

Lemma reachable_invariant s : reachable s → invariant s.
Proof.
  induction 1 as [|c s _ IH]; [apply invariant_empty|by apply invariant_step].
Qed.

(** ** The idempotency store under a request *)

Ltac frame_fields :=
  unfold unlocked2, locked2, at_second, at_first, slotted, opened, locked1,
    free, hold, record_rate, post, post_transfer;
  repeat first
    [ progress cbn [accounts ledger account_locks idempotency_store rate_limits
                    set_accounts set_ledger set_account_locks
                    set_idempotency_store set_rate_limits]
    | rewrite mklock_idempotency_store | rewrite create_idempotency_store
    | rewrite mklock_rate_limits | rewrite create_rate_limits
    | rewrite create_account_locks ].

Lemma idempotency_store_transfer req key env s r :
  transfer_path req key env s r →
  idempotency_store (final r) = idempotency_store s ∨
  (outcome r = Returned (success env) ∧
   idempotency_store (final r) =
   idempotency_store (store key (success env) (time_store env) s)).
Proof.
  destruct 1; cbn [final outcome]; try (left; by frame_fields).
  right. split; [done|]. unfold store. destruct key as [k|]; [|by frame_fields].
  destruct (truthy k); by frame_fields.
Qed.

Lemma idempotency_store_raised req key env s r e :
  transfer_path req key env s r → outcome r = Raised e →
  idempotency_store (final r) = idempotency_store s.
Proof.
  intros Hp Ho. destruct (idempotency_store_transfer _ _ _ _ _ Hp) as [?|[E _]];
    [done|congruence].
Qed.

Lemma idempotency_store_step c s :
  books_wf s →
  idempotency_store (step c s) = idempotency_store s ∨
  ∃ key resp now,
    idempotency_store (step c s) = idempotency_store (store key resp now s).
Proof.
  intros Hwf.
  destruct c as [a|req env|req env|req key env|a limit cursor|a env];
    cbn [step].
  - left. rewrite final_get_balance. apply create_idempotency_store.
  - left. destruct (deposit_sound req env s Hwf); cbn [final]; by frame_fields.
  - left. destruct (withdraw_sound req env s Hwf); cbn [final]; by frame_fields.
  - destruct (idempotency_store_transfer _ _ _ _ _ (transfer_sound req key env s Hwf))
      as [?|[_ ?]]; [by left|right; eauto].
  - left. rewrite final_get_transactions by done.
    apply create_idempotency_store.
  - left. rewrite final_account_summary by done. apply create_idempotency_store.
Qed.

Lemma keys_truthy_store key resp now s :
  keys_truthy s → keys_truthy (store key resp now s).
Proof.
  unfold keys_truthy, store. intros H. destruct key as [k|]; [|done].
  unfold truthy. case_bool_decide as Hk; cbn [negb]; [done|].
  cbn [idempotency_store set_idempotency_store]. by rewrite lookup_insert_ne.
Qed.

Lemma reachable_keys_truthy s : reachable s → keys_truthy s.
Proof.
  induction 1 as [|c s Hr IH]; [done|].
  unfold keys_truthy in *.
  destruct (idempotency_store_step c s) as [->|(key & resp & now & ->)].
  - by apply reachable_invariant.
  - done.
  - by apply keys_truthy_store.
Qed.

Lemma reachable_books_wf s : reachable s → books_wf s.
Proof. intros H. by apply reachable_invariant. Qed.

Lemma reachable_run cs s : reachable s → reachable (run cs s).
Proof.
  revert s. induction cs as [|c cs IH]; intros s H; [done|].
  cbn [run fold_left]. apply IH. by constructor.
Qed.

Lemma run_snoc cs c s : run (cs ++ [c]) s = step c (run cs s).
Proof. unfold run. by rewrite fold_left_app. Qed.

(** * The properties *)

Lemma ltb_irrefl (x : float) : (x <? x)%float = false.
Proof.
  rewrite FloatAxioms.ltb_spec. unfold SFltb.
  destruct (Prim2SF x) as [s|s| |s m e]; cbn; try done.
  - by destruct s.
  - destruct s; by rewrite Z.compare_refl, Pos.compare_cont_refl.
Qed.


Lemma truthy_nonempty (k : string) : truthy k = true ↔ k ≠ "".
Proof.
  unfold truthy. rewrite negb_true_iff, bool_decide_eq_false. done.
Qed.

Lemma run_transfer_over_limit req key env s :
  PER_TRANSFER_MAX < amount_tr req →
  transfer req key env s = mkRun (Raised PerTransferLimitExceeded) s [].
Proof.
  intros H. unfold transfer.
  rewrite (run_bind_pure _ _ s s tt).
  - by rewrite bool_decide_eq_true_2.
  - apply run_validate_pos. unfold PER_TRANSFER_MAX in H. lia.
Qed.

Lemma run_transfer_cached req key env s resp :
  0 < amount_tr req → amount_tr req ≤ PER_TRANSFER_MAX →
  cache_lookup key (time_check env) s = Some resp →
  transfer req key env s = mkRun (Returned resp) s [].
Proof.
  intros Hpos Hmax Hc. unfold transfer.
  rewrite (run_bind_pure _ _ s s tt) by by apply run_validate_pos.
  rewrite bool_decide_eq_false_2 by lia.
  rewrite (run_bind_pure _ _ s s (cache_lookup key (time_check env) s))
    by apply run_cached.
  by rewrite Hc.
Qed.

Lemma cache_lookup_hit (k : string) (now : float) (s : State)
    (r : IdempotencyRecord) :
  k ≠ "" → idempotency_store s !! k = Some r →
  (now <? expires_at r)%float = true →
  cache_lookup (Some k) now s = Some (response r).
Proof.
  intros Hk Hr Ht. unfold cache_lookup.
  rewrite (proj2 (truthy_nonempty k)) by done. by rewrite Hr, Ht.
Qed.

Lemma stored_key_nonempty s k r :
  reachable s → idempotency_store s !! k = Some r → k ≠ "".
Proof.
  intros Hr Hk ->. apply reachable_keys_truthy in Hr.
  unfold keys_truthy in Hr. congruence.
Qed.

Lemma run_transfer_replay s req k env r :
  reachable s →
  idempotency_store s !! k = Some r →
  (time_check env <? expires_at r)%float = true →
  0 < amount_tr req → amount_tr req ≤ PER_TRANSFER_MAX →
  transfer req (Some k) env s = mkRun (Returned (response r)) s [].
Proof.
  intros Hs Hk Ht Hpos Hmax. apply run_transfer_cached; [done|done|].
  apply cache_lookup_hit; [|done|done]. by eapply stored_key_nonempty.
Qed.

(** What an executed transfer leaves in the idempotency store. *)
Lemma transfer_stores s req k env resp :
  reachable s → k ≠ "" →
  cache_lookup (Some k) (time_check env) s = None →
  outcome (transfer req (Some k) env s) = Returned resp →
  resp = success env ∧
  idempotency_store (final (transfer req (Some k) env s)) !! k =
  Some {| response := resp;
          expires_at := (time_store env + 86400)%float |}.
Proof.
  intros Hs Hk Hmiss Ho.
  pose proof (transfer_sound req (Some k) env s (reachable_books_wf s Hs)) as Hp.
  remember (transfer req (Some k) env s) as r eqn:Er.
  destruct Hp; cbn [outcome final] in *; try discriminate.
  - congruence.
  - injection Ho as <-. split; [done|].
    unfold store. rewrite (proj2 (truthy_nonempty k)) by done.
    cbn [idempotency_store set_idempotency_store]. apply lookup_insert_eq.
Qed.

(** C8. A transfer above the per-transfer ceiling of 10,000 is refused with
    the per-transfer error and the whole state, locks included, is exactly as
    before, whatever idempotency key it carries and whatever the store holds
    for that key; a transfer of exactly 10,000 is never refused for that
    reason, and goes through when the funds are there. *)
Theorem per_transfer_limit_first :
  (∀ req key env s,
     PER_TRANSFER_MAX < amount_tr req →
     transfer req key env s = mkRun (Raised PerTransferLimitExceeded) s []) ∧
  (∀ req key env s,
     reachable s → amount_tr req = PER_TRANSFER_MAX →
     outcome (transfer req key env s) ≠ Raised PerTransferLimitExceeded) ∧
  (∀ env env',
     outcome
       (transfer {| from_account := "user1"; to_account := "user2";
                    amount_tr := 10000 |} None env
          (run [CallDeposit {| account_id := "user1"; amount_req := 20000 |} env']
             empty_state))
     = Returned (success env)).
Proof.
  split_and!.
  - intros. by apply run_transfer_over_limit.
  - intros req key env s Hs Hamt Ho.
    pose proof (transfer_sound req key env s (reachable_books_wf s Hs)) as Hp.
    remember (transfer req key env s) as r eqn:Er.
    destruct Hp; cbn [outcome] in Ho; try discriminate. lia.
  - intros env env'. by vm_compute.
Qed.

Lemma per_transfer_limit_first_witness :
  let req := {| from_account := "a"; to_account := "b"; amount_tr := 10001 |} in
  let env := {| uuid4 := "t"; utcnow := 0; utcnow_daily := 0;
                time_rate := 0; time_check := 0; time_store := 0 |} in
  PER_TRANSFER_MAX < amount_tr req ∧
  transfer req (Some "k") env empty_state
  = mkRun (Raised PerTransferLimitExceeded) empty_state [].
Proof.
  intros req env.
  assert (H : PER_TRANSFER_MAX < amount_tr req) by (vm_compute; reflexivity).
  split; [exact H|].
  exact (proj1 per_transfer_limit_first req (Some "k") env empty_state H).
Defined.

(** C4. A transfer that carries a key whose stored record has not expired,
    and whose amount is within the per-transfer ceiling, returns the stored
    response, takes no lock and leaves the whole state as it was: accounts,
    histories, locks, rate windows and the idempotency store.  The record
    is what the first successful call with that key stored; its expiry is
    the store time plus 86,400 seconds, the float sum that the code
    computes, and until then a replay of the same request gets the
    transaction id of the first call. *)
Theorem idempotent_replay_is_pure_read :
  (∀ s req k env r,
     reachable s →
     idempotency_store s !! k = Some r →
     (time_check env <? expires_at r)%float = true →
     0 < amount_tr req → amount_tr req ≤ PER_TRANSFER_MAX →
     transfer req (Some k) env s = mkRun (Returned (response r)) s []) ∧
  (∀ s req k env resp env',
     reachable s → k ≠ "" →
     cache_lookup (Some k) (time_check env) s = None →
     outcome (transfer req (Some k) env s) = Returned resp →
     let s1 := final (transfer req (Some k) env s) in
     idempotency_store s1 !! k =
     Some {| response := resp;
             expires_at := (time_store env + 86400)%float |} ∧
     ((time_check env' <? time_store env + 86400)%float = true →
      transfer req (Some k) env' s1 = mkRun (Returned resp) s1 [] ∧
      resp_tx_id resp = uuid4 env)).
Proof.
  split.
  - intros. by eapply run_transfer_replay.
  - intros s req k env resp env' Hs Hk Hmiss Ho s1.
    destruct (transfer_stores s req k env resp Hs Hk Hmiss Ho) as [Hresp Hst].
    split; [exact Hst|]. intros Ht.
    assert (0 < amount_tr req ∧ amount_tr req ≤ PER_TRANSFER_MAX) as [Hpos Hmax].
    { pose proof (transfer_sound req (Some k) env s (reachable_books_wf s Hs))
        as Hp.
      remember (transfer req (Some k) env s) as r eqn:Er.
      destruct Hp; cbn [outcome] in Ho; try discriminate; lia. }
    split; [|by rewrite Hresp].
    assert (reachable s1) as Hs1.
    { apply (reachable_step (CallTransfer req (Some k) env) s Hs). }
    by apply (run_transfer_replay s1 req k env' _ Hs1 Hst).
Qed.

(** C10. The cache is consulted by key alone.  While the record stored under
    a key has not expired, every transfer that presents the key with an
    amount within the per-transfer ceiling gets the stored response and
    changes nothing, whatever accounts and amount it names: two requests
    that differ in their body are answered alike. *)
Theorem idempotency_ignores_body :
  ∀ s k r req1 req2 env,
    reachable s →
    idempotency_store s !! k = Some r →
    (time_check env <? expires_at r)%float = true →
    0 < amount_tr req1 → amount_tr req1 ≤ PER_TRANSFER_MAX →
    0 < amount_tr req2 → amount_tr req2 ≤ PER_TRANSFER_MAX →
    transfer req1 (Some k) env s = transfer req2 (Some k) env s ∧
    transfer req2 (Some k) env s = mkRun (Returned (response r)) s [].
Proof.
  intros s k r req1 req2 env Hs Hk Ht Hp1 Hm1 Hp2 Hm2.
  by rewrite !(run_transfer_replay s _ k env r).
Qed.

Lemma reachable_funded : reachable funded.
Proof. apply reachable_run. constructor. Defined.

Lemma reachable_paid : reachable paid.
Proof. apply reachable_step, reachable_funded. Defined.

Lemma idempotent_replay_is_pure_read_witness :
  let env := env_at 20 "tx-2" in
  let env' := env_at 30 "tx-3" in
  let r := {| response := success env;
              expires_at := (time_store env + 86400)%float |} in
  (idempotency_store paid !! "key-1" = Some r ∧
   (time_check env' <? expires_at r)%float = true ∧
   0 < amount_tr pay_100 ∧ amount_tr pay_100 ≤ PER_TRANSFER_MAX) ∧
  transfer pay_100 (Some "key-1") env' paid
  = mkRun (Returned (response r)) paid [] ∧
  ("key-1" ≠ "" ∧
   cache_lookup (Some "key-1") (time_check env) funded = None ∧
   outcome (transfer pay_100 (Some "key-1") env funded) = Returned (success env) ∧
   (time_check env' <? time_store env + 86400)%float = true) ∧
  resp_tx_id (success env) = uuid4 env.
Proof.
  intros env env' r.
  assert (H1 : idempotency_store paid !! "key-1" = Some r)
    by (vm_compute; reflexivity).
  assert (H2 : (time_check env' <? expires_at r)%float = true)
    by (vm_compute; reflexivity).
  assert (H3 : 0 < amount_tr pay_100) by (vm_compute; reflexivity).
  assert (H4 : amount_tr pay_100 ≤ PER_TRANSFER_MAX) by (vm_compute; discriminate).
  assert (H5 : "key-1" ≠ "") by discriminate.
  assert (H6 : cache_lookup (Some "key-1") (time_check env) funded = None)
    by (vm_compute; reflexivity).
  assert (H7 : outcome (transfer pay_100 (Some "key-1") env funded)
               = Returned (success env)) by (vm_compute; reflexivity).
  assert (H8 : (time_check env' <? time_store env + 86400)%float = true)
    by (vm_compute; reflexivity).
  split; [by split_and!|].
  split; [exact (proj1 idempotent_replay_is_pure_read paid pay_100 "key-1" env' r
                   reachable_paid H1 H2 H3 H4)|].
  split; [by split_and!|].
  exact (proj2 (proj2 (proj2 idempotent_replay_is_pure_read funded pay_100
                         "key-1" env (success env) env'
                         reachable_funded H5 H6 H7) H8)).
Defined.

Lemma idempotency_ignores_body_witness :
  let env' := env_at 30 "tx-3" in
  let r := {| response := success (env_at 20 "tx-2");
              expires_at := (time_store (env_at 20 "tx-2") + 86400)%float |} in
  let other := {| from_account := "user7"; to_account := "user1";
                  amount_tr := 9999 |} in
  (idempotency_store paid !! "key-1" = Some r ∧
   (time_check env' <? expires_at r)%float = true ∧
   0 < amount_tr pay_100 ∧ amount_tr pay_100 ≤ PER_TRANSFER_MAX ∧
   0 < amount_tr other ∧ amount_tr other ≤ PER_TRANSFER_MAX) ∧
  transfer pay_100 (Some "key-1") env' paid
  = transfer other (Some "key-1") env' paid ∧
  transfer other (Some "key-1") env' paid
  = mkRun (Returned (response r)) paid [].
Proof.
  intros env' r other.
  assert (H1 : idempotency_store paid !! "key-1" = Some r)
    by (vm_compute; reflexivity).
  assert (H2 : (time_check env' <? expires_at r)%float = true)
    by (vm_compute; reflexivity).
  assert (H3 : 0 < amount_tr pay_100) by (vm_compute; reflexivity).
  assert (H4 : amount_tr pay_100 ≤ PER_TRANSFER_MAX) by (vm_compute; discriminate).
  assert (H5 : 0 < amount_tr other) by (vm_compute; reflexivity).
  assert (H6 : amount_tr other ≤ PER_TRANSFER_MAX) by (vm_compute; discriminate).
  split; [by split_and!|].
  exact (idempotency_ignores_body paid "key-1" r pay_100 other env'
           reachable_paid H1 H2 H3 H4 H5 H6).
Defined.


Lemma rate_window_opened req a now s :
  rate_window a now (opened req s) = rate_window a now s.
Proof. unfold rate_window, opened. by rewrite !create_rate_limits. Qed.

Lemma rate_exceeded_iff req env s :
  rate_exceeded req env s ↔
  (RATE_LIMIT_PER_MINUTE ≤
   length (rate_window (from_account req) (time_rate env) s))%nat.
Proof. unfold rate_exceeded. by rewrite rate_window_opened. Qed.



(** ** Rejections *)

Lemma create_keeps_balance c a b s :
  accounts s !! a = Some b → accounts (create c s) !! a = Some b.
Proof.
  intros H. unfold create. case_bool_decide as Hc; [done|].
  cbn [accounts set_accounts set_ledger]. rewrite lookup_insert_ne; [done|].
  intros ->. apply Hc. eauto.
Qed.

Lemma create_keeps_history c a l s :
  books_wf s → ledger s !! a = Some l → ledger (create c s) !! a = Some l.
Proof.
  intros Hwf H. unfold create. case_bool_decide as Hc; [done|].
  cbn [ledger set_accounts set_ledger]. rewrite lookup_insert_ne; [done|].
  intros ->. apply Hc, Hwf. eauto.
Qed.

Lemma untouched_refl s : books_untouched s s.
Proof. by split_and!. Qed.

Lemma untouched_create a s s1 :
  books_wf s → books_wf s1 →
  books_untouched s s1 → books_untouched s (create a s1).
Proof.
  intros Hwf Hwf1 (H1 & H2 & H3 & H4). split_and!.
  - intros b. rewrite accounts_create_lookup, ledger_create_lookup by done.
    apply H1.
  - intros b z Hb. by apply create_keeps_balance, H2.
  - intros b l Hb. by apply create_keeps_history, H3.
  - by rewrite create_idempotency_store.
Qed.

Lemma untouched_opened req s : books_wf s → books_untouched s (opened req s).
Proof.
  intros Hwf. unfold opened.
  apply untouched_create; [done|by apply create_books_wf|].
  apply untouched_create; [done|done|apply untouched_refl].
Qed.

Lemma untouched_books_eq s s1 s2 :
  books_untouched s s1 → books_eq s2 s1 →
  idempotency_store s2 = idempotency_store s1 → books_untouched s s2.
Proof.
  intros (H1 & H2 & H3 & H4) [Ea El] Ei. split_and!.
  - intros a. unfold balance_of, ledger_of. rewrite Ea, El. apply H1.
  - intros a b. rewrite Ea. apply H2.
  - intros a l. rewrite El. apply H3.
  - congruence.
Qed.

Lemma held_mklock l a s : held l (mklock a s) ↔ held l s.
Proof.
  destruct (decide (l = a)) as [->|Hne]; [apply mklock_lookup_held|].
  unfold held, mklock. case_bool_decide; [done|].
  cbn [account_locks set_account_locks]. by rewrite lookup_insert_ne.
Qed.

Lemma held_create l a s : held l (create a s) ↔ held l s.
Proof. unfold held. by rewrite create_account_locks. Qed.

Lemma held_hold l a s : held l (hold a s) ↔ l = a ∨ held l s.
Proof.
  unfold held, hold. cbn [account_locks set_account_locks].
  destruct (decide (l = a)) as [->|Hne].
  - rewrite lookup_insert_eq. split; [by left|done].
  - rewrite lookup_insert_ne by done. split; [by right|]. by intros [?|?].
Qed.

Lemma held_free l a s : held l (free a s) ↔ l ≠ a ∧ held l s.
Proof.
  unfold held, free. cbn [account_locks set_account_locks].
  destruct (decide (l = a)) as [->|Hne].
  - rewrite lookup_insert_eq. split; [done|]. by intros [? _].
  - rewrite lookup_insert_ne by done. split; [by split|]. by intros [_ ?].
Qed.

Lemma held_record_rate l a now s : held l (record_rate a now s) ↔ held l s.
Proof. done. Qed.

Lemma held_at_first l req env s : held l (at_first req env s) ↔ held l s.
Proof.
  unfold at_first, slotted, opened.
  by rewrite held_mklock, held_record_rate, !held_create.
Qed.

Lemma held_at_second l req env s :
  held l (at_second req env s) ↔ l = first_lock req ∨ held l s.
Proof. unfold at_second. by rewrite held_mklock, held_hold, held_at_first. Qed.

Lemma held_locked2 l req env s :
  held l (locked2 req env s) ↔ l = second_lock req ∨ l = first_lock req ∨ held l s.
Proof. unfold locked2. by rewrite held_hold, held_at_second. Qed.

Lemma held_unlocked2 l req s :
  held l (unlocked2 req s) ↔
  l ≠ first_lock req ∧ l ≠ second_lock req ∧ held l s.
Proof. unfold unlocked2. by rewrite !held_free. Qed.

Lemma held_after_transfer l req env s s1 :
  ¬ held (first_lock req) (at_first req env s) →
  ¬ held (second_lock req) (at_second req env s) →
  (∀ l, held l s1 ↔ held l (locked2 req env s)) →
  held l (unlocked2 req s1) ↔ held l s.
Proof.
  rewrite held_at_first, held_at_second. intros H1 H2 Hs1.
  rewrite held_unlocked2, Hs1, held_locked2. split.
  - intros (? & ? & [?|[?|?]]); done.
  - intros H. split_and!; [by intros ->|intros ->; auto|auto].
Qed.

Lemma withdraw_rejected s req env e :
  books_wf s →
  outcome (withdraw req env s) = Raised e →
  (e = ValidationError ∨ rejection e) ∧
  books_untouched s (final (withdraw req env s)) ∧
  (∀ l, held l (final (withdraw req env s)) ↔ held l s).
Proof.
  intros Hwf Ho. pose proof (withdraw_sound req env s Hwf) as Hp.
  remember (withdraw req env s) as r eqn:Er.
  destruct Hp; cbn [outcome final] in *; try discriminate;
    injection Ho as <-.
  - split_and!; [by left|apply untouched_refl|done].
  - split_and!; [right; by left| |].
    + apply (untouched_books_eq s (create (account_id req) s)).
      * apply untouched_create; [done|done|apply untouched_refl].
      * eapply books_eq_trans; [apply books_eq_free|apply books_eq_locked1].
      * by frame_fields.
    + intros l. unfold locked1.
      rewrite held_free, held_hold, held_mklock, held_create. split.
      * by intros [? [?|?]].
      * intros Hl. split; [by intros ->|by right].
Qed.

Lemma transfer_rejected s req key env e :
  books_wf s →
  outcome (transfer req key env s) = Raised e →
  (e = ValidationError ∨ rejection e) ∧
  books_untouched s (final (transfer req key env s)) ∧
  (∀ l, held l (final (transfer req key env s)) ↔ held l s).
Proof.
  intros Hwf Ho. pose proof (transfer_sound req key env s Hwf) as Hp.
  remember (transfer req key env s) as r eqn:Er.
  destruct Hp; cbn [outcome final] in *; try discriminate;
    injection Ho as <-.
  - split_and!; [by left|apply untouched_refl|done].
  - split_and!; [right; right; by left|apply untouched_refl|done].
  - split_and!; [right; by repeat right|by apply untouched_opened|].
    intros l. unfold opened. by rewrite !held_create.
  - split_and!; [right; right; right; by left| |].
    + apply (untouched_books_eq s (opened req s)).
      * by apply untouched_opened.
      * eapply books_eq_trans; [apply books_eq_unlocked2|apply books_eq_locked2].
      * by frame_fields.
    + intros l. by apply (held_after_transfer l req env s).
  - split_and!; [right; by left| |].
    + apply (untouched_books_eq s (opened req s)).
      * by apply untouched_opened.
      * eapply books_eq_trans; [apply books_eq_unlocked2|apply books_eq_locked2].
      * by frame_fields.
    + intros l. by apply (held_after_transfer l req env s).
Qed.

(** C2. A withdrawal or a transfer that is refused (insufficient funds,
    per-transfer limit, daily limit, rate limit; or a request that fails
    validation) ends there: no balance and no history has moved, every
    account and history that was stored is stored unchanged, the idempotency
    store is as it was, and no lock the call took is left held.  An account
    named for the first time may have been created, with balance 0 and an
    empty history, which is what it read as before. *)
Theorem rejection_leaves_books (s : State) :
  reachable s →
  (∀ req env e,
     outcome (withdraw req env s) = Raised e →
     (e = ValidationError ∨ rejection e) ∧
     books_untouched s (final (withdraw req env s)) ∧
     (∀ l, held l (final (withdraw req env s)) ↔ held l s)) ∧
  (∀ req key env e,
     outcome (transfer req key env s) = Raised e →
     (e = ValidationError ∨ rejection e) ∧
     books_untouched s (final (transfer req key env s)) ∧
     (∀ l, held l (final (transfer req key env s)) ↔ held l s)).
Proof.
  intros Hs. apply reachable_books_wf in Hs. split.
  - intros. by apply withdraw_rejected.
  - intros. by apply transfer_rejected.
Qed.

(** ** The daily limit *)

Lemma daily_loop_total (l : list LedgerEntry) (d acc : Z) :
  fold_left
    (λ total entry,
       if bool_decide (type entry = "transfer_out")
          && bool_decide (date (timestamp entry) = d)
       then total + Z.abs (amount entry) else total) l acc
  = acc + daily_outbound_total l d.
Proof.
  revert acc. unfold daily_outbound_total.
  induction l as [|e l IH]; intros acc; cbn [fold_left List.filter].
  - cbn [map foldr]. lia.
  - rewrite IH.
    destruct (bool_decide (type e = "transfer_out")
              && bool_decide (date (timestamp e) = d)); cbn [map foldr]; lia.
Qed.

Lemma daily_total_spec a now s :
  daily_total a now s = daily_outbound_total (ledger_of s a) (date now).
Proof. unfold daily_total. rewrite daily_loop_total. lia. Qed.

Lemma daily_outbound_total_snoc l e d :
  daily_outbound_total (l ++ [e]) d =
  daily_outbound_total l d +
  (if bool_decide (type e = "transfer_out")
      && bool_decide (date (timestamp e) = d)
   then Z.abs (amount e) else 0).
Proof.
  unfold daily_outbound_total. rewrite List.filter_app, map_app, foldr_app.
  cbn [List.filter].
  destruct (bool_decide (type e = "transfer_out")
            && bool_decide (date (timestamp e) = d)); cbn [map foldr].
  - induction (map (λ e0, Z.abs (amount e0)) (List.filter _ l)) as [|x xs IH];
      cbn [foldr]; lia.
  - lia.
Qed.

Lemma ledger_of_opened req a s :
  books_wf s → ledger_of (opened req s) a = ledger_of s a.
Proof.
  intros Hwf. unfold opened.
  rewrite ledger_create_lookup by by apply create_books_wf.
  by rewrite ledger_create_lookup.
Qed.

Lemma balance_of_opened req a s : balance_of (opened req s) a = balance_of s a.
Proof. unfold opened. by rewrite !accounts_create_lookup. Qed.

Lemma daily_exceeded_iff req env s :
  books_wf s →
  daily_exceeded req env s ↔
  DAILY_TRANSFER_LIMIT <
  daily_outbound_total (ledger_of s (from_account req))
    (date (utcnow_daily env)) + amount_tr req.
Proof.
  intros Hwf. unfold daily_exceeded. rewrite daily_total_spec.
  rewrite (books_eq_ledger_of _ _ _ (books_eq_locked2 req env s)).
  by rewrite ledger_of_opened.
Qed.

Lemma short_of_funds_iff req env s :
  short_of_funds req env s ↔ balance_of s (from_account req) < amount_tr req.
Proof.
  unfold short_of_funds.
  rewrite (books_eq_balance_of _ _ _ (books_eq_locked2 req env s)).
  by rewrite balance_of_opened.
Qed.

Lemma locks_of_transfer req :
  (first_lock req = from_account req ∧ second_lock req = to_account req) ∨
  (first_lock req = to_account req ∧ second_lock req = from_account req).
Proof.
  unfold first_lock, second_lock, sorted2.
  destruct (String.ltb _ _); cbn [fst snd]; auto.
Qed.

(** Past the earlier checks, a transfer is decided by the daily total and the
    balance alone. *)
Lemma transfer_decided req key env s :
  books_wf s → reaches_daily_check req key env s →
  let total := daily_outbound_total (ledger_of s (from_account req))
                 (date (utcnow_daily env)) in
  outcome (transfer req key env s) =
  if decide (DAILY_TRANSFER_LIMIT < total + amount_tr req)
  then Raised DailyLimitExceeded
  else if decide (balance_of s (from_account req) < amount_tr req)
  then Raised InsufficientFunds
  else Returned (success env).
Proof.
  intros Hwf (Hpos & Hmax & Hmiss & Hrate & Hne & Hhf & Hht) total.
  pose proof (transfer_sound req key env s Hwf) as Hp.
  remember (transfer req key env s) as r eqn:Er.
  assert (¬ held (first_lock req) s ∧ ¬ held (second_lock req) s ∧
          second_lock req ≠ first_lock req) as (Hf & Hs & Hfs).
  { destruct (locks_of_transfer req) as [[-> ->]|[-> ->]]; split_and!; done. }
  destruct Hp as [?|?|resp ???|? ? ? Hr|? ? ? ? Hh|? ? ? ? ? Hh
                 |? ? ? ? ? ? Hd|? ? ? ? ? ? Hd Hb|? ? ? ? ? ? Hd Hb];
    cbn [outcome].
  - done.
  - lia.
  - congruence.
  - apply (proj1 (rate_exceeded_iff _ _ _)) in Hr. lia.
  - by apply (proj1 (held_at_first _ _ _ _)) in Hh.
  - by apply (proj1 (held_at_second _ _ _ _)) in Hh as [?|?].
  - apply (proj1 (daily_exceeded_iff _ _ _ Hwf)) in Hd. by rewrite decide_True.
  - rewrite daily_exceeded_iff in Hd by done.
    apply (proj1 (short_of_funds_iff _ _ _)) in Hb.
    rewrite decide_False by done. by rewrite decide_True.
  - rewrite daily_exceeded_iff in Hd by done. rewrite short_of_funds_iff in Hb.
    rewrite decide_False by done. by rewrite decide_False.
Qed.

Lemma transfer_raised_daily req key env s :
  books_wf s →
  outcome (transfer req key env s) = Raised DailyLimitExceeded →
  DAILY_TRANSFER_LIMIT <
  daily_outbound_total (ledger_of s (from_account req))
    (date (utcnow_daily env)) + amount_tr req.
Proof.
  intros Hwf Ho. pose proof (transfer_sound req key env s Hwf) as Hp.
  remember (transfer req key env s) as r eqn:Er.
  destruct Hp; cbn [outcome] in Ho; try discriminate.
  by apply (proj1 (daily_exceeded_iff _ _ _ Hwf)).
Qed.

(** C3. The daily total the code computes for an account is the sum of the
    absolute values of its [transfer_out] entries dated today (UTC), and an
    entry of another kind or of another day adds nothing to it.  A transfer
    refused for the daily limit has this total plus its amount above
    25,000; a transfer that gets to the daily-limit test is refused for the
    daily limit exactly when the total plus its amount is above 25,000, so
    one that brings the total to 25,000 or less goes through when the funds
    are there. *)
Theorem daily_limit_boundary (req : TransferRequest) (key : option string)
    (env : Env) (s : State) :
  reachable s →
  let today := date (utcnow_daily env) in
  let total := daily_outbound_total (ledger_of s (from_account req)) today in
  get_daily_transfer_total (from_account req) (utcnow_daily env) s
  = mkRun (Returned total) s [] ∧
  (∀ l e, type e ≠ "transfer_out" ∨ date (timestamp e) ≠ today →
          daily_outbound_total (l ++ [e]) today = daily_outbound_total l today) ∧
  (∀ l e, type e = "transfer_out" → date (timestamp e) = today →
          daily_outbound_total (l ++ [e]) today
          = daily_outbound_total l today + Z.abs (amount e)) ∧
  (outcome (transfer req key env s) = Raised DailyLimitExceeded →
   DAILY_TRANSFER_LIMIT < total + amount_tr req) ∧
  (reaches_daily_check req key env s →
   (outcome (transfer req key env s) = Raised DailyLimitExceeded ↔
    DAILY_TRANSFER_LIMIT < total + amount_tr req) ∧
   (total + amount_tr req ≤ DAILY_TRANSFER_LIMIT →
    amount_tr req ≤ balance_of s (from_account req) →
    outcome (transfer req key env s) = Returned (success env))).
Proof.
  intros Hs today total. apply reachable_books_wf in Hs. split_and!.
  - rewrite run_get_daily_transfer_total. by rewrite daily_total_spec.
  - intros l e He. rewrite daily_outbound_total_snoc.
    destruct He as [He|He].
    + rewrite (bool_decide_eq_false_2 _ He). cbn [andb]. lia.
    + rewrite (bool_decide_eq_false_2 _ He), andb_false_r. lia.
  - intros l e He1 He2. rewrite daily_outbound_total_snoc.
    by rewrite (bool_decide_eq_true_2 _ He1), (bool_decide_eq_true_2 _ He2).
  - by apply transfer_raised_daily.
  - intros Hreach. pose proof (transfer_decided req key env s Hs Hreach) as Hd.
    cbv zeta in Hd. fold today total in Hd. split.
    + split; [by apply transfer_raised_daily|].
      intros Hover. by rewrite Hd, decide_True.
    + intros Hle Hfunds. rewrite Hd.
      rewrite decide_False by lia. by rewrite decide_False by lia.
Qed.

(** ** Conservation *)

Lemma run_get_balance a s :
  get_balance a s =
  mkRun (Returned {| bal_account_id := a; balance := balance_of s a |})
        (create a s) [].
Proof.
  unfold get_balance.
  rewrite (run_bind_pure _ _ s (create a s) tt) by apply run_ensure_account.
  rewrite (run_bind_pure _ _ _ (create a s) (balance_of (create a s) a))
    by apply run_getitem_accounts, create_has_account.
  by rewrite accounts_create_lookup.
Qed.

Lemma ledger_of_transfer req env s a :
  books_wf s → from_account req ≠ to_account req →
  ledger_of (post_transfer req env (opened req s)) a =
  ledger_of s a ++ transfer_appends req env s a.
Proof.
  intros Hwf Hne. rewrite post_transfer_posts by done.
  rewrite !ledger_of_post, !balance_of_post, !balance_of_opened.
  rewrite !ledger_of_opened by done. unfold transfer_appends.
  unfold transfer_out_entry, transfer_in_entry.
  repeat case_decide; subst; try congruence; by rewrite ?app_nil_r.
Qed.

Lemma transfer_returned req key env s resp :
  books_wf s →
  outcome (transfer req key env s) = Returned resp →
  (cache_lookup key (time_check env) s = Some resp ∧
   transfer req key env s = mkRun (Returned resp) s []) ∨
  (cache_lookup key (time_check env) s = None ∧
   resp = success env ∧ from_account req ≠ to_account req ∧
   events (transfer req key env s) = lock_events req ∧
   ∀ a, ledger_of (final (transfer req key env s)) a =
        ledger_of s a ++ transfer_appends req env s a).
Proof.
  intros Hwf Ho. pose proof (transfer_sound req key env s Hwf) as Hp.
  remember (transfer req key env s) as r eqn:Er.
  destruct Hp as [?|?|resp' ???|? ? ? Hr|? ? ? ? Hh|? ? ? ? ? Hh
                 |? ? ? ? ? ? Hd|? ? ? ? ? ? Hd Hb|? ? ? ? ? Hh Hd Hb];
    cbn [outcome final events] in *; try discriminate.
  - left. by injection Ho as <-.
  - right. injection Ho as <-.
    assert (from_account req ≠ to_account req) as Hne.
    { intros E. by pose proof (self_transfer_holds_second req env s E). }
    split_and!; try done.
    intros a. rewrite <- ledger_of_transfer by done.
    apply books_eq_ledger_of.
    eapply books_eq_trans; [apply books_eq_store|].
    eapply books_eq_trans; [apply books_eq_unlocked2|].
    apply post_transfer_books_eq, books_eq_locked2.
Qed.

(** C1. After any sequence of requests, starting with no accounts: the
    balance of every account, which is what the balance endpoint returns,
    is the sum of the signed amounts of its history; the transfer legs of all
    histories sum to zero; every [transfer_out] entry has a [transfer_in]
    entry with the same transaction id and the opposite amount, and
    conversely.  And a transfer that runs and returns (rather than answering
    from the cache) adds exactly one [transfer_out] entry, to the history of
    the source, and one [transfer_in] entry with the same transaction id and
    the opposite amount, to the history of the destination. *)
Theorem conservation (cs : list Call) :
  let s := run cs empty_state in
  (∀ a, balance_of s a = ledger_sum (ledger_of s a) ∧
        outcome (get_balance a s) =
        Returned {| bal_account_id := a;
                    balance := ledger_sum (ledger_of s a) |}) ∧
  transfer_net s = 0 ∧
  paired s ∧
  (∀ req key env resp,
     outcome (transfer req key env s) = Returned resp →
     (cache_lookup key (time_check env) s = Some resp ∧
      transfer req key env s = mkRun (Returned resp) s []) ∨
     (cache_lookup key (time_check env) s = None ∧
      resp_tx_id resp = uuid4 env ∧
      from_account req ≠ to_account req ∧
      mirrors (transfer_out_entry req env s) (transfer_in_entry req env s) ∧
      ∀ a, ledger_of (final (transfer req key env s)) a =
           ledger_of s a ++ transfer_appends req env s a)).
Proof.
  intros s.
  assert (reachable s) as Hs by apply reachable_run, reachable_empty.
  destruct (reachable_invariant s Hs) as (Hwf & Hb & Hn & Hp).
  split_and!; try done.
  - intros a. split; [apply Hb|]. rewrite run_get_balance. cbn [outcome].
    by rewrite Hb.
  - intros req key env resp Ho.
    destruct (transfer_returned req key env s resp Hwf Ho)
      as [?|(? & -> & ? & ? & ?)]; [by left|right].
    split_and!; try done.
    unfold mirrors. cbn [transfer_out_entry transfer_in_entry tx_id timestamp amount].
    by rewrite Z.opp_involutive.
Qed.

(** ** Transfers from an account to itself *)

Lemma self_transfer_blocks req key env s :
  books_wf s → from_account req = to_account req →
  0 < amount_tr req → amount_tr req ≤ PER_TRANSFER_MAX →
  cache_lookup key (time_check env) s = None →
  ¬ rate_exceeded req env s →
  outcome (transfer req key env s) = Blocked ∧
  books_eq (final (transfer req key env s)) (opened req s).
Proof.
  intros Hwf Hself Hpos Hmax Hmiss Hrate.
  pose proof (self_transfer_holds_second req env s Hself) as Hheld.
  pose proof (transfer_sound req key env s Hwf) as Hp.
  remember (transfer req key env s) as r eqn:Er.
  destruct Hp; cbn [outcome final]; try done; try lia; try congruence.
  - split; [done|apply books_eq_at_first].
  - split; [done|apply books_eq_at_second].
Qed.

(** C6. The transfer of 100 from user1 to user1, with 1000 on the account,
    passes every check before the locks, takes the lock of user1 and then
    waits for that same lock: the call never returns, nothing is written to
    the history, the balance is not read, and the lock stays held. *)
Theorem self_transfer_never_completes (env : Env) :
  let r := transfer to_self None env funded in
  outcome r = Blocked ∧
  events r = [Acquire "user1"] ∧
  ledger_of (final r) "user1" = ledger_of funded "user1" ∧
  balance_of (final r) "user1" = 1000 ∧
  held "user1" (final r).
Proof. by vm_compute. Qed.

(** ** The order of the entries *)

Lemma appends_nothing (l : list LedgerEntry) (c : Call) :
  ∃ new, l = l ++ new ∧ (length new ≤ 1)%nat ∧
         ∀ e, e ∈ new → call_stamp c = Some (timestamp e).
Proof.
  exists []. split_and!; [by rewrite app_nil_r|cbn [length]; lia|].
  by intros e ?%elem_of_nil.
Qed.

Lemma appends_one (l : list LedgerEntry) (c : Call) (x : LedgerEntry) :
  call_stamp c = Some (timestamp x) →
  ∃ new, l ++ [x] = l ++ new ∧ (length new ≤ 1)%nat ∧
         ∀ e, e ∈ new → call_stamp c = Some (timestamp e).
Proof.
  intros H. exists [x]. split_and!; [done|cbn [length]; lia|].
  by intros e ->%list_elem_of_singleton.
Qed.

Lemma step_appends c s a :
  books_wf s →
  ∃ new, ledger_of (step c s) a = ledger_of s a ++ new ∧
         (length new ≤ 1)%nat ∧
         ∀ e, e ∈ new → call_stamp c = Some (timestamp e).
Proof.
  intros Hwf. destruct (step_effect c s Hwf) as (e & He & Heq).
  rewrite (books_eq_ledger_of _ _ a Heq).
  destruct He; cbn [apply_effect];
    rewrite ?ledger_of_post, ?ledger_create_lookup, ?ledger_of_opened,
      ?ledger_of_transfer by done;
    try apply appends_nothing.
  - case_decide; [subst a; by apply appends_one|apply appends_nothing].
  - case_decide; [subst a; by apply appends_one|apply appends_nothing].
  - unfold transfer_appends.
    repeat case_decide; [by apply appends_one..|].
    rewrite app_nil_r. apply appends_nothing.
Qed.

Lemma stamps_snoc cs c : stamps (cs ++ [c]) = stamps cs ++ stamps [c].
Proof. unfold stamps. apply omap_app. Qed.

Lemma elem_of_stamps_singleton c t : call_stamp c = Some t → t ∈ stamps [c].
Proof.
  intros H. unfold stamps. apply list_elem_of_omap. exists c.
  split; [by apply list_elem_of_singleton|done].
Qed.

Lemma run_stamps cs a e :
  e ∈ ledger_of (run cs empty_state) a → timestamp e ∈ stamps cs.
Proof.
  revert e. induction cs as [|c cs IH] using rev_ind; intros e.
  - by intros ?%elem_of_nil.
  - rewrite run_snoc, stamps_snoc, elem_of_app.
    destruct (step_appends c (run cs empty_state) a) as (new & -> & _ & Hnew).
    { apply reachable_books_wf, reachable_run, reachable_empty. }
    intros [Hold|Hin]%elem_of_app.
    + left. by apply IH.
    + right. by apply elem_of_stamps_singleton, Hnew.
Qed.

Lemma sorted_short {A} (R : relation A) (l : list A) :
  (length l ≤ 1)%nat → StronglySorted R l.
Proof.
  destruct l as [|x [|y l]]; cbn [length]; intros H; [| |lia].
  - constructor.
  - constructor; constructor.
Qed.

Lemma clock_orders_ledger (R : relation Z) cs a :
  StronglySorted R (stamps cs) →
  StronglySorted R (timestamps (ledger_of (run cs empty_state) a)).
Proof.
  unfold timestamps.
  induction cs as [|c cs IH] using rev_ind; intros Hclock.
  - constructor.
  - rewrite stamps_snoc in Hclock.
    apply StronglySorted_app in Hclock as (Hlt & Hcs & _).
    rewrite run_snoc.
    destruct (step_appends c (run cs empty_state) a) as (new & -> & Hlen & Hnew).
    { apply reachable_books_wf, reachable_run, reachable_empty. }
    rewrite map_app. apply StronglySorted_app_2.
    + intros t1 t2 (e1 & -> & He1)%list_elem_of_fmap
                   (e2 & -> & He2)%list_elem_of_fmap.
      apply Hlt; [by eapply run_stamps|].
      by apply elem_of_stamps_singleton, Hnew.
    + by apply IH.
    + apply sorted_short. by rewrite length_map.
Qed.

(** C9, as amended. Nothing in the engine orders the timestamps: an entry
    carries the clock reading of the request that wrote it.  Along the
    history of every account the timestamps are strictly increasing whenever
    the clock read strictly later from each request to the next, and they
    never decrease when the clock never reads earlier than before.  Whatever
    the clock does, a request leaves every history as it was, with at most
    one entry added at its end, stamped with the reading of that request. *)
Theorem ledger_append_order :
  (∀ cs a,
     clock_increasing cs →
     StronglySorted Z.lt (timestamps (ledger_of (run cs empty_state) a))) ∧
  (∀ cs a,
     clock_monotone cs →
     StronglySorted Z.le (timestamps (ledger_of (run cs empty_state) a))) ∧
  (∀ c s a,
     reachable s →
     ∃ new, ledger_of (step c s) a = ledger_of s a ++ new ∧
            (length new ≤ 1)%nat ∧
            ∀ e, e ∈ new → call_stamp c = Some (timestamp e)).
Proof.
  split_and!.
  - intros. by apply clock_orders_ledger.
  - intros. by apply clock_orders_ledger.
  - intros c s a Hs. by apply step_appends, reachable_books_wf.
Qed.

(** C9, as stated, fails: two deposits served between two ticks of the
    clock leave two entries with the same timestamp in the history, although
    the clock never went back. *)
Lemma timestamps_follow_the_clock :
  clock_monotone same_tick ∧
  timestamps (ledger_of (run same_tick empty_state) "user1")
  = [10000000; 10000000] ∧
  ¬ StronglySorted Z.lt
      (timestamps (ledger_of (run same_tick empty_state) "user1")).
Proof.
  assert (timestamps (ledger_of (run same_tick empty_state) "user1")
          = [10000000; 10000000]) as E by (by vm_compute).
  split_and!; [|done|].
  - unfold clock_monotone.
    replace (stamps same_tick) with [10000000; 10000000] by (by vm_compute).
    repeat constructor; lia.
  - rewrite E. intros H.
    apply StronglySorted_cons in H as [H _].
    apply Forall_cons in H as [H _]. lia.
Qed.

(** ** The order of the locks *)

Lemma sorted2_comm (a b : string) : a ≠ b → sorted2 a b = sorted2 b a.
Proof.
  intros Hne. unfold sorted2, String.ltb. rewrite (String.compare_antisym a b).
  destruct (String.compare b a) eqn:E; cbn [CompOpp]; try done.
  apply String.compare_eq_iff in E. congruence.
Qed.

Lemma sorted2_ordered (a b : string) :
  String.leb (fst (sorted2 a b)) (snd (sorted2 a b)) = true.
Proof.
  unfold sorted2, String.ltb, String.leb.
  destruct (String.compare b a) eqn:E; cbn [fst snd]; try by rewrite E.
  - rewrite String.compare_antisym, E. done.
  - rewrite String.compare_antisym, E. done.
Qed.

(** A transfer takes the lock of the lexicographically smaller account
    first, whichever of the two is the source, and gives the locks back in
    the opposite order; the transfer in the other direction takes the same
    locks in the same order. *)
Lemma transfer_lock_order req key env s :
  books_wf s → from_account req ≠ to_account req →
  String.leb (first_lock req) (second_lock req) = true ∧
  first_lock (reverse req) = first_lock req ∧
  second_lock (reverse req) = second_lock req ∧
  (events (transfer req key env s) = [] ∨
   events (transfer req key env s) = [Acquire (first_lock req)] ∨
   events (transfer req key env s) =
   [Acquire (first_lock req); Acquire (second_lock req);
    Release (second_lock req); Release (first_lock req)]).
Proof.
  intros Hwf Hne. split_and!.
  - apply sorted2_ordered.
  - unfold first_lock, reverse. cbn [from_account to_account].
    by rewrite sorted2_comm.
  - unfold second_lock, reverse. cbn [from_account to_account].
    by rewrite sorted2_comm.
  - pose proof (transfer_sound req key env s Hwf) as Hp.
    remember (transfer req key env s) as r eqn:Er.
    destruct Hp; cbn [events]; auto.
Qed.

(** ** The properties on the scenario *)

Lemma conservation_witness :
  let env := env_at 20 "tx-2" in
  outcome (transfer pay_100 None env funded) = Returned (success env) ∧
  ((cache_lookup None (time_check env) funded = Some (success env) ∧
    transfer pay_100 None env funded = mkRun (Returned (success env)) funded []) ∨
   (cache_lookup None (time_check env) funded = None ∧
    resp_tx_id (success env) = uuid4 env ∧
    from_account pay_100 ≠ to_account pay_100 ∧
    mirrors (transfer_out_entry pay_100 env funded)
            (transfer_in_entry pay_100 env funded) ∧
    ∀ a, ledger_of (final (transfer pay_100 None env funded)) a =
         ledger_of funded a ++ transfer_appends pay_100 env funded a)).
Proof.
  intros env.
  assert (H : outcome (transfer pay_100 None env funded) = Returned (success env))
    by (vm_compute; reflexivity).
  split; [exact H|].
  exact (proj2 (proj2 (proj2
           (conservation
              [CallDeposit {| account_id := "user1"; amount_req := 1000 |}
                 (env_at 10 "tx-1")])))
           pay_100 None env (success env) H).
Defined.

Lemma rejection_leaves_books_witness :
  let req := {| account_id := "user1"; amount_req := 2000 |} in
  let env := env_at 20 "tx-2" in
  outcome (withdraw req env funded) = Raised InsufficientFunds ∧
  (InsufficientFunds = ValidationError ∨ rejection InsufficientFunds) ∧
  books_untouched funded (final (withdraw req env funded)) ∧
  (∀ l, held l (final (withdraw req env funded)) ↔ held l funded).
Proof.
  intros req env.
  assert (H : outcome (withdraw req env funded) = Raised InsufficientFunds)
    by (vm_compute; reflexivity).
  split; [exact H|].
  exact (proj1 (rejection_leaves_books funded reachable_funded)
           req env InsufficientFunds H).
Defined.

Lemma reachable_spent_20000 : reachable spent_20000.
Proof. apply reachable_run. constructor. Defined.

Lemma daily_limit_boundary_witness :
  let req := {| from_account := "user1"; to_account := "user4";
                amount_tr := 5000 |} in
  let env := env_at 40 "tx-4" in
  let total := daily_outbound_total (ledger_of spent_20000 "user1")
                 (date (utcnow_daily env)) in
  (reaches_daily_check req None env spent_20000 ∧
   total + amount_tr req ≤ DAILY_TRANSFER_LIMIT ∧
   amount_tr req ≤ balance_of spent_20000 (from_account req)) ∧
  total + amount_tr req = 25000 ∧
  outcome (transfer req None env spent_20000) = Returned (success env).
Proof.
  intros req env total.
  assert (H1 : reaches_daily_check req None env spent_20000).
  { unfold reaches_daily_check, held.
    split_and!; vm_compute; first [done|lia]. }
  assert (H2 : total + amount_tr req ≤ DAILY_TRANSFER_LIMIT)
    by (by vm_compute).
  assert (H3 : amount_tr req ≤ balance_of spent_20000 (from_account req))
    by (by vm_compute).
  split; [by split_and!|]. split; [by vm_compute|].
  exact (proj2
           (proj2 (proj2 (proj2 (proj2
              (daily_limit_boundary req None env spent_20000
                 reachable_spent_20000)))) H1) H2 H3).
Defined.


Lemma ledger_append_order_witness :
  clock_increasing clock_running ∧
  StronglySorted Z.lt
    (timestamps (ledger_of (run clock_running empty_state) "user1")) ∧
  timestamps (ledger_of (run clock_running empty_state) "user1")
  = [10000000; 20000000; 30000000].
Proof.
  assert (H : clock_increasing clock_running).
  { unfold clock_increasing.
    replace (stamps clock_running) with [10000000; 20000000; 30000000]
      by (by vm_compute).
    repeat constructor; lia. }
  split; [exact H|].
  split; [exact (proj1 ledger_append_order clock_running "user1" H)|].
  by vm_compute.
Defined.

(** ** The scenarios of the test suite *)

Example transfer_basic (env : Env) :
  let s := final (transfer {| from_account := "user1"; to_account := "user2";
                              amount_tr := 300 |} None env funded) in
  balance_of s "user1" = 700 ∧ balance_of s "user2" = 300.
Proof. by vm_compute. Qed.

Example transfer_exceeds_daily_limit :
  outcome (transfer {| from_account := "user1"; to_account := "user4";
                       amount_tr := 6000 |} None (env_at 40 "tx-4") spent_20000)
  = Raised DailyLimitExceeded.
Proof. by vm_compute. Qed.

Example rate_limit_10_per_minute :
  balance_of ten_transfers "user2" = 10000 ∧
  outcome (transfer {| from_account := "user1"; to_account := "user99";
                       amount_tr := 1000 |} None (env_at 21 "tx-11")
             ten_transfers)
  = Raised RateLimited ∧
  outcome (transfer {| from_account := "user1"; to_account := "user99";
                       amount_tr := 1000 |} None (env_at 71 "tx-11")
             ten_transfers)
  = Returned (success (env_at 71 "tx-11")).
Proof. by vm_compute. Qed.

Example pagination :
  let page1 := get_transactions "user1" 5 0 fourteen_entries in
  let page3 := get_transactions "user1" 5 10 fourteen_entries in
  (∃ r, outcome page1 = Returned r ∧ length (items r) = 5%nat ∧
        next_cursor r = Some 5 ∧ has_more r = true) ∧
  (∃ r, outcome page3 = Returned r ∧ length (items r) = 4%nat ∧
        next_cursor r = None ∧ has_more r = false).
Proof. split; eexists; by vm_compute. Qed.

(** * Further properties of the engine *)

(** ** What each money endpoint does to what is read *)

Lemma held_post l a tx ty amt ts s : held l (post a tx ty amt ts s) ↔ held l s.
Proof. done. Qed.

Lemma held_post_transfer l req env s : held l (post_transfer req env s) ↔ held l s.
Proof. done. Qed.

Lemma held_store l key resp now s : held l (store key resp now s) ↔ held l s.
Proof. unfold store. destruct key as [k|]; [|done]. by destruct (truthy k). Qed.

Lemma held_locked1_free l a s :
  ¬ held a s → held l (free a (locked1 a s)) ↔ held l s.
Proof.
  intros Ha. unfold locked1.
  rewrite held_free, held_hold, held_mklock, held_create. split.
  - by intros [? [?|?]].
  - intros Hl. split; [by intros ->|by right].
Qed.

Lemma same_reading_refl s : same_reading s s.
Proof. by intros b. Qed.

Lemma same_reading_books_eq s s1 s2 :
  same_reading s s1 → books_eq s2 s1 → same_reading s s2.
Proof.
  intros H E b.
  rewrite (books_eq_balance_of _ _ b E), (books_eq_ledger_of _ _ b E). apply H.
Qed.

Lemma same_reading_create a s : books_wf s → same_reading s (create a s).
Proof.
  intros Hwf b. by rewrite accounts_create_lookup, ledger_create_lookup.
Qed.

Lemma same_reading_opened req s : books_wf s → same_reading s (opened req s).
Proof.
  intros Hwf b. by rewrite balance_of_opened, ledger_of_opened.
Qed.

Lemma balance_of_transfer req env s b :
  from_account req ≠ to_account req →
  balance_of (post_transfer req env (opened req s)) b =
  balance_of s b + transfer_delta req b.
Proof.
  intros Hne. rewrite post_transfer_posts by done.
  rewrite !balance_of_post, !balance_of_opened. unfold transfer_delta.
  repeat case_decide; subst; try congruence; lia.
Qed.

Lemma deposit_outcomes req env s :
  books_wf s →
  let r := deposit req env s in
  let a := account_id req in
  (0 < amount_req req ∧ ¬ held a s ∧
   outcome r = Returned (deposit_entry req env s) ∧
   (∀ b, balance_of (final r) b =
         if decide (b = a) then balance_of s a + amount_req req
         else balance_of s b) ∧
   (∀ b, ledger_of (final r) b =
         if decide (b = a) then ledger_of s a ++ [deposit_entry req env s]
         else ledger_of s b) ∧
   same_locks s (final r)) ∨
  ((¬ 0 < amount_req req ∧ outcome r = Raised ValidationError ∨
    held a s ∧ outcome r = Blocked) ∧
   same_reading s (final r) ∧ same_locks s (final r)).
Proof.
  intros Hwf r a. subst r a.
  destruct (deposit_sound req env s Hwf) as [Hv|Hpos Hh|Hpos Hh];
    cbn [outcome final].
  - right. split_and!; [by left|apply same_reading_refl|done].
  - right. split_and!; [by right| |].
    + apply (same_reading_books_eq s (create (account_id req) s));
        [by apply same_reading_create|apply books_eq_mklock].
    + intros l. by rewrite held_mklock, held_create.
  - left. split_and!; try done.
    + intros b.
      rewrite (books_eq_balance_of _ _ b
                 (books_eq_trans _ _ _ (books_eq_free _ _)
                    (post_books_eq _ _ _ _ _ _ _ (books_eq_locked1 _ s)))).
      rewrite balance_of_post, !accounts_create_lookup.
      repeat case_decide; subst; congruence.
    + intros b.
      rewrite (books_eq_ledger_of _ _ b
                 (books_eq_trans _ _ _ (books_eq_free _ _)
                    (post_books_eq _ _ _ _ _ _ _ (books_eq_locked1 _ s)))).
      rewrite ledger_of_post, accounts_create_lookup,
        !ledger_create_lookup by done.
      unfold deposit_entry. repeat case_decide; subst; congruence.
    + intros l. rewrite held_free, held_post. rewrite <- held_free.
      by apply held_locked1_free.
Qed.

Lemma withdraw_outcomes req env s :
  books_wf s →
  let r := withdraw req env s in
  let a := account_id req in
  (0 < amount_req req ∧ ¬ held a s ∧ amount_req req ≤ balance_of s a ∧
   outcome r = Returned (withdrawal_entry req env s) ∧
   (∀ b, balance_of (final r) b =
         if decide (b = a) then balance_of s a - amount_req req
         else balance_of s b) ∧
   (∀ b, ledger_of (final r) b =
         if decide (b = a) then ledger_of s a ++ [withdrawal_entry req env s]
         else ledger_of s b) ∧
   same_locks s (final r)) ∨
  ((¬ 0 < amount_req req ∧ outcome r = Raised ValidationError ∨
    held a s ∧ outcome r = Blocked ∨
    0 < amount_req req ∧ ¬ held a s ∧ balance_of s a < amount_req req ∧
    outcome r = Raised InsufficientFunds) ∧
   same_reading s (final r) ∧ same_locks s (final r)).
Proof.
  intros Hwf r a. subst r a.
  destruct (withdraw_sound req env s Hwf) as [Hv|Hpos Hh|Hpos Hh Hb|Hpos Hh Hb];
    cbn [outcome final].
  - right. split_and!; [by left|apply same_reading_refl|done].
  - right. split_and!; [right; by left| |].
    + apply (same_reading_books_eq s (create (account_id req) s));
        [by apply same_reading_create|apply books_eq_mklock].
    + intros l. by rewrite held_mklock, held_create.
  - right. split_and!; [right; right; done| |].
    + apply (same_reading_books_eq s (create (account_id req) s));
        [by apply same_reading_create|].
      eapply books_eq_trans; [apply books_eq_free|apply books_eq_locked1].
    + intros l. by apply held_locked1_free.
  - left. split_and!; try done; try lia.
    + intros b.
      rewrite (books_eq_balance_of _ _ b
                 (books_eq_trans _ _ _ (books_eq_free _ _)
                    (post_books_eq _ _ _ _ _ _ _ (books_eq_locked1 _ s)))).
      rewrite balance_of_post, !accounts_create_lookup.
      repeat case_decide; subst; try congruence; lia.
    + intros b.
      rewrite (books_eq_ledger_of _ _ b
                 (books_eq_trans _ _ _ (books_eq_free _ _)
                    (post_books_eq _ _ _ _ _ _ _ (books_eq_locked1 _ s)))).
      rewrite ledger_of_post, accounts_create_lookup,
        !ledger_create_lookup by done.
      unfold withdrawal_entry. repeat case_decide; subst; congruence.
    + intros l. rewrite held_free, held_post. rewrite <- held_free.
      by apply held_locked1_free.
Qed.

Lemma rate_limits_store key resp now s :
  rate_limits (store key resp now s) = rate_limits s.
Proof. unfold store. destruct key as [k|]; [|done]. by destruct (truthy k). Qed.

Lemma rate_limits_slotted_frame req env s s' :
  rate_limits s' = rate_limits (slotted req env s) →
  rate_limits s' =
  <[from_account req :=
      rate_window (from_account req) (time_rate env) s ++ [time_rate env]]>
    (rate_limits s).
Proof.
  intros ->. unfold slotted, record_rate. cbn [rate_limits set_rate_limits].
  rewrite rate_window_opened. unfold opened. by rewrite !create_rate_limits.
Qed.

Lemma rate_limits_locked2 req env s :
  rate_limits (locked2 req env s) = rate_limits (slotted req env s).
Proof.
  unfold locked2, at_second, at_first, hold.
  cbn [rate_limits set_account_locks]. rewrite mklock_rate_limits.
  cbn [rate_limits set_account_locks]. by rewrite mklock_rate_limits.
Qed.

Lemma free_locks_of_transfer req env s :
  ¬ held (first_lock req) (at_first req env s) →
  ¬ held (second_lock req) (at_second req env s) →
  from_account req ≠ to_account req ∧
  ¬ held (from_account req) s ∧ ¬ held (to_account req) s.
Proof.
  rewrite held_at_first, held_at_second. intros H1 H2.
  assert (from_account req ≠ to_account req) as Hne.
  { intros E. apply H2. left. unfold second_lock, first_lock.
    by rewrite <- E, sorted2_same. }
  split; [done|].
  destruct (locks_of_transfer req) as [[E1 E2]|[E1 E2]];
    rewrite E1, E2 in *; split; auto.
Qed.

(** A transfer either runs to the end, and then moves the amount from the
    source to the destination, or leaves every account as it read. *)
Lemma transfer_outcomes req key env s :
  books_wf s →
  let r := transfer req key env s in
  let total := daily_outbound_total (ledger_of s (from_account req))
                 (date (utcnow_daily env)) in
  (reaches_daily_check req key env s ∧
   total + amount_tr req ≤ DAILY_TRANSFER_LIMIT ∧
   amount_tr req ≤ balance_of s (from_account req) ∧
   outcome r = Returned (success env) ∧
   (∀ b, balance_of (final r) b = balance_of s b + transfer_delta req b) ∧
   (∀ b, ledger_of (final r) b = ledger_of s b ++ transfer_appends req env s b) ∧
   same_locks s (final r) ∧
   rate_limits (final r) =
   <[from_account req :=
       rate_window (from_account req) (time_rate env) s ++ [time_rate env]]>
     (rate_limits s) ∧
   idempotency_store (final r) =
   idempotency_store (store key (success env) (time_store env) s)) ∨
  (same_reading s (final r) ∧
   ∀ resp, outcome r = Returned resp →
           cache_lookup key (time_check env) s = Some resp ∧ final r = s).
Proof.
  intros Hwf r total. subst r total.
  destruct (transfer_sound req key env s Hwf)
    as [?|?|resp ???|? ? ? Hr|? ? ? ? Hh|? ? ? ? ? Hh
       |? ? ? ? ? ? Hd|? ? ? ? ? ? Hd Hb|Hpos Hmax Hmiss Hr H1 H2 Hd Hb];
    cbn [outcome final].
  - right. split; [apply same_reading_refl|done].
  - right. split; [apply same_reading_refl|done].
  - right. split; [apply same_reading_refl|]. by intros ? [= <-].
  - right. split; [by apply same_reading_opened|done].
  - right. split; [|done].
    apply (same_reading_books_eq s (opened req s));
      [by apply same_reading_opened|apply books_eq_at_first].
  - right. split; [|done].
    apply (same_reading_books_eq s (opened req s));
      [by apply same_reading_opened|apply books_eq_at_second].
  - right. split; [|done].
    apply (same_reading_books_eq s (opened req s));
      [by apply same_reading_opened|].
    eapply books_eq_trans; [apply books_eq_unlocked2|apply books_eq_locked2].
  - right. split; [|done].
    apply (same_reading_books_eq s (opened req s));
      [by apply same_reading_opened|].
    eapply books_eq_trans; [apply books_eq_unlocked2|apply books_eq_locked2].
  - left.
    destruct (free_locks_of_transfer req env s H1 H2) as (Hne & Hf & Ht).
    rewrite rate_exceeded_iff in Hr. rewrite daily_exceeded_iff in Hd by done.
    rewrite short_of_funds_iff in Hb.
    assert (books_eq
              (store key (success env) (time_store env)
                 (unlocked2 req (post_transfer req env (locked2 req env s))))
              (post_transfer req env (opened req s))) as Heq.
    { eapply books_eq_trans; [apply books_eq_store|].
      eapply books_eq_trans; [apply books_eq_unlocked2|].
      apply post_transfer_books_eq, books_eq_locked2. }
    split_and!; try done; try lia.
    + unfold reaches_daily_check. split_and!; try done; lia.
    + intros b. rewrite (books_eq_balance_of _ _ b Heq).
      by apply balance_of_transfer.
    + intros b. rewrite (books_eq_ledger_of _ _ b Heq).
      by apply ledger_of_transfer.
    + intros l. rewrite held_store.
      apply (held_after_transfer l req env s); [done|done|].
      intros l'. apply held_post_transfer.
    + apply rate_limits_slotted_frame. rewrite rate_limits_store.
      unfold unlocked2, free, post_transfer.
      cbn [rate_limits set_account_locks set_ledger set_accounts].
      apply rate_limits_locked2.
    + unfold store. destruct key as [k|]; [|by frame_fields].
      destruct (truthy k); by frame_fields.
Qed.

(** ** Induction over the requests, by what they book *)

Lemma step_reading c s :
  books_wf s →
  same_reading s (step c s) ∨
  (∃ a e, posted1 s (step c s) a e ∧ timestamp e ∈ stamps [c] ∧
          (type e = "deposit" ∧ 0 < amount e ∨
           type e = "withdrawal" ∧ amount e < 0 ∧
           0 ≤ balance_of s a + amount e)) ∨
  (∃ req key env, c = CallTransfer req key env ∧
     posted2 s (step c s) req env ∧
     reaches_daily_check req key env s ∧
     daily_outbound_total (ledger_of s (from_account req))
       (date (utcnow_daily env)) + amount_tr req ≤ DAILY_TRANSFER_LIMIT ∧
     amount_tr req ≤ balance_of s (from_account req)).
Proof.
  intros Hwf.
  destruct c as [a|req env|req env|req key env|a limit cursor|a env];
    cbn [step].
  - left. rewrite final_get_balance. by apply same_reading_create.
  - destruct (deposit_outcomes req env s Hwf)
      as [(Hpos & _ & _ & Hb & Hl & _)|(_ & Hsame & _)]; [|by left].
    right. left. exists (account_id req), (deposit_entry req env s).
    split_and!; [by split_and!| |left; by split].
    by apply elem_of_stamps_singleton.
  - destruct (withdraw_outcomes req env s Hwf)
      as [(Hpos & _ & Hle & _ & Hb & Hl & _)|(_ & Hsame & _)]; [|by left].
    right. left. exists (account_id req), (withdrawal_entry req env s).
    split_and!.
    + split_and!; [|done|done].
      intros b. rewrite Hb. cbn [withdrawal_entry amount].
      case_decide; [lia|done].
    + by apply elem_of_stamps_singleton.
    + right. cbn [withdrawal_entry type amount]. split_and!; [done|lia|lia].
  - destruct (transfer_outcomes req key env s Hwf)
      as [(Hreach & Hd & Hf & _ & Hb & Hl & _)|(Hsame & _)]; [|by left].
    right. right. exists req, key, env. by split_and!.
  - left. rewrite final_get_transactions by done. by apply same_reading_create.
  - left. rewrite final_account_summary by done. by apply same_reading_create.
Qed.

Lemma reachable_booked_ind (P : State → Prop) :
  P empty_state →
  (∀ s s', reachable s → P s → same_reading s s' → P s') →
  (∀ s s' a e,
     reachable s → P s → posted1 s s' a e →
     (type e = "deposit" ∧ 0 < amount e ∨
      type e = "withdrawal" ∧ amount e < 0 ∧ 0 ≤ balance_of s a + amount e) →
     P s') →
  (∀ s s' req env,
     reachable s → P s → posted2 s s' req env →
     0 < amount_tr req → amount_tr req ≤ PER_TRANSFER_MAX →
     from_account req ≠ to_account req →
     amount_tr req ≤ balance_of s (from_account req) →
     P s') →
  ∀ s, reachable s → P s.
Proof.
  intros H0 Hsame H1 H2 s Hs. induction Hs as [|c s Hs IH]; [done|].
  destruct (step_reading c s (reachable_books_wf s Hs))
    as [Hr|[(a & e & Hp & _ & Hk)|(req & key & env & _ & Hp & Hreach & _ & Hf)]].
  - by eapply Hsame.
  - by eapply H1.
  - destruct Hreach as (? & ? & _ & _ & ? & _). by eapply H2.
Qed.

(** ** Invariants of the balances and of the entries *)

Lemma reachable_nonneg (s : State) : reachable s → ∀ a, 0 ≤ balance_of s a.
Proof.
  intros Hs. revert s Hs. apply (reachable_booked_ind (λ s, ∀ a, 0 ≤ balance_of s a)).
  - intros a. unfold balance_of, empty_state. cbn [accounts].
    by rewrite lookup_empty.
  - intros s s' _ IH Hsame a. destruct (Hsame a) as [-> _]. apply IH.
  - intros s s' a e _ IH (Hb & _ & _) Hk b. rewrite Hb.
    case_decide; [|apply IH]. specialize (IH a). lia.
  - intros s s' req env _ IH (Hb & _) Hpos _ Hne Hf b. rewrite Hb.
    unfold transfer_delta. pose proof (IH b).
    repeat case_decide; subst; lia.
Qed.

(** X1. No balance ever goes below zero: after any sequence of requests,
    starting with no accounts, the balance endpoint answers every account
    with a balance of at least 0, because a withdrawal or a transfer that
    the balance does not cover is refused. *)
Theorem balances_never_negative (cs : list Call) (a : string) :
  ∃ b, outcome (get_balance a (run cs empty_state)) =
       Returned {| bal_account_id := a; balance := b |} ∧
       b = balance_of (run cs empty_state) a ∧ 0 ≤ b.
Proof.
  exists (balance_of (run cs empty_state) a). rewrite run_get_balance.
  split_and!; [done..|].
  apply reachable_nonneg, reachable_run, reachable_empty.
Qed.

Lemma snapshots_snoc (b : Z) (l : list LedgerEntry) (e : LedgerEntry) :
  snapshots_from b (l ++ [e]) ↔
  snapshots_from b l ∧ balance_after e = b + ledger_sum l + amount e.
Proof.
  revert b. induction l as [|e0 l IH]; intros b; cbn [app snapshots_from].
  - cbn [ledger_sum foldr]. split; [intros [? _]|intros [_ ?]]; split; try done; lia.
  - rewrite IH. unfold ledger_sum. cbn [foldr]. fold (ledger_sum l).
    split; [intros (? & ? & ?)|intros ((? & ?) & ?)]; split_and!; try done; lia.
Qed.

(** X2. The balance recorded in an entry is the balance its amount led to:
    replaying the history of an account from 0, every entry's
    [balance_after] is the running sum up to and including that entry, and
    the [balance_after] of the last entry is the current balance. *)
Theorem snapshots_replay (s : State) :
  reachable s →
  ∀ a, snapshots_from 0 (ledger_of s a) ∧
       ∀ e, last (ledger_of s a) = Some e → balance_after e = balance_of s a.
Proof.
  intros Hs. revert s Hs.
  apply (reachable_booked_ind
           (λ s, ∀ a, snapshots_from 0 (ledger_of s a) ∧
                      ∀ e, last (ledger_of s a) = Some e →
                           balance_after e = balance_of s a)).
  - intros a. unfold ledger_of, empty_state. cbn [ledger].
    rewrite lookup_empty. by split.
  - intros s s' _ IH Hsame a. destruct (Hsame a) as [-> ->]. apply IH.
  - intros s s' a e Hs IH (Hb & Hl & He) _ b. rewrite Hb, Hl.
    case_decide; [subst b|apply IH]. split.
    + apply snapshots_snoc. split; [apply IH|].
      destruct (reachable_invariant s Hs) as (_ & Hbal & _).
      rewrite He, (Hbal a). lia.
    + intros e'. rewrite last_snoc. by intros [= <-].
  - intros s s' req env Hs IH (Hb & Hl) _ _ Hne _ b. rewrite Hb, Hl.
    destruct (reachable_invariant s Hs) as (_ & Hbal & _).
    unfold transfer_appends, transfer_delta.
    repeat case_decide; subst; try congruence.
    + split.
      * apply snapshots_snoc. split; [apply IH|].
        cbn [transfer_out_entry balance_after amount].
        rewrite (Hbal (from_account req)). lia.
      * intros e'. rewrite last_snoc. by intros [= <-].
    + split.
      * apply snapshots_snoc. split; [apply IH|].
        cbn [transfer_in_entry balance_after amount].
        rewrite (Hbal (to_account req)). lia.
      * intros e'. rewrite last_snoc. by intros [= <-].
    + rewrite app_nil_r, Z.add_0_r. apply IH.
Qed.

Lemma snapshots_replay_witness :
  reachable paid ∧
  ∀ a, snapshots_from 0 (ledger_of paid a) ∧
       ∀ e, last (ledger_of paid a) = Some e → balance_after e = balance_of paid a.
Proof.
  split; [exact reachable_paid|].
  exact (snapshots_replay paid reachable_paid).
Defined.

(** X3. Every entry of every history is of one of the four kinds and its
    amount has the sign of its kind: positive for [deposit] and
    [transfer_in], negative for [withdrawal] and [transfer_out]; and no leg
    of a transfer is larger than the per-transfer ceiling of 10,000. *)
Theorem entries_well_signed (s : State) :
  reachable s → ∀ a e, e ∈ ledger_of s a → well_signed e.
Proof.
  intros Hs. revert s Hs.
  apply (reachable_booked_ind (λ s, ∀ a e, e ∈ ledger_of s a → well_signed e)).
  - intros a e. unfold ledger_of, empty_state. cbn [ledger].
    rewrite lookup_empty. by intros ?%elem_of_nil.
  - intros s s' _ IH Hsame a e. destruct (Hsame a) as [_ ->]. apply IH.
  - intros s s' a e _ IH (_ & Hl & _) Hk b e'. rewrite Hl.
    case_decide; [|apply IH].
    intros [?| ->%list_elem_of_singleton]%elem_of_app; [by eapply IH|].
    unfold well_signed. destruct Hk as [[? ?]|(? & ? & _)]; auto.
  - intros s s' req env _ IH (_ & Hl) Hpos Hmax _ _ b e'. rewrite Hl.
    intros [?|Hin]%elem_of_app; [by eapply IH|].
    unfold transfer_appends in Hin. unfold well_signed.
    repeat case_decide; try by apply elem_of_nil in Hin.
    + apply list_elem_of_singleton in Hin as ->.
      right; right; left. cbn [transfer_out_entry type amount]. split; [done|lia].
    + apply list_elem_of_singleton in Hin as ->.
      right; right; right. cbn [transfer_in_entry type amount]. split; [done|lia].
Qed.

Lemma entries_well_signed_witness :
  reachable paid ∧ ∀ a e, e ∈ ledger_of paid a → well_signed e.
Proof.
  split; [exact reachable_paid|].
  exact (entries_well_signed paid reachable_paid).
Defined.

(** ** Deposits and withdrawals *)

(** X4. A deposit of a positive amount on an account whose lock is free
    returns the entry it wrote: of kind [deposit], with the amount, the
    transaction id and the clock reading of the call, and the new balance.
    The balance rises by exactly the amount, whatever the amount and the
    balance are: there is no ceiling.  No other account moves.  The only
    error a deposit raises is the validation error, for an amount of 0 or
    less, and it waits for ever only on a lock that is held. *)
Theorem deposit_credits (req : AmountRequest) (env : Env) (s : State) :
  reachable s →
  let a := account_id req in
  let r := deposit req env s in
  (0 < amount_req req → ¬ held a s →
   ∃ e, outcome r = Returned e ∧
        type e = "deposit" ∧ amount e = amount_req req ∧
        tx_id e = uuid4 env ∧ timestamp e = utcnow env ∧
        balance_after e = balance_of s a + amount_req req ∧
        balance_of (final r) a = balance_of s a + amount_req req ∧
        ledger_of (final r) a = ledger_of s a ++ [e]) ∧
  (∀ b, b ≠ a →
        balance_of (final r) b = balance_of s b ∧
        ledger_of (final r) b = ledger_of s b) ∧
  (∀ e, outcome r = Raised e → e = ValidationError ∧ amount_req req ≤ 0) ∧
  (outcome r = Blocked → held a s) ∧
  same_locks s (final r).
Proof.
  intros Hs a r. subst a r.
  destruct (deposit_outcomes req env s (reachable_books_wf s Hs))
    as [(Hpos & Hfree & Ho & Hb & Hl & Hlocks)|(Hwhy & Hsame & Hlocks)].
  - split_and!; [| | | |exact Hlocks].
    + intros _ _. exists (deposit_entry req env s).
      rewrite Hb, Hl. rewrite !decide_True by done. by split_and!.
    + intros b Hne. rewrite Hb, Hl. by rewrite !decide_False by done.
    + intros e. by rewrite Ho.
    + by rewrite Ho.
  - split_and!; [| | | |exact Hlocks].
    + intros Hpos Hfree. by destruct Hwhy as [[? _]|[? _]].
    + intros b _. apply Hsame.
    + intros e He. destruct Hwhy as [[? Ho]|[_ Ho]]; rewrite Ho in He;
        [|done]. injection He as <-. split; [done|lia].
    + intros Ho. destruct Hwhy as [[_ Ho']|[? _]]; [|done].
      by rewrite Ho' in Ho.
Qed.

Lemma deposit_credits_witness :
  let req := {| account_id := "user2"; amount_req := 1000000 |} in
  let env := env_at 30 "tx-3" in
  reachable paid ∧
  ∀ b, b ≠ "user2" →
       balance_of (final (deposit req env paid)) b = balance_of paid b ∧
       ledger_of (final (deposit req env paid)) b = ledger_of paid b.
Proof.
  intros req env. split; [exact reachable_paid|].
  exact (proj1 (proj2 (deposit_credits req env paid reachable_paid))).
Defined.

(** X5. A withdrawal of a positive amount from an account whose lock is
    free is refused for insufficient funds exactly when the balance is less
    than the amount.  Otherwise it returns the entry it wrote, of kind
    [withdrawal] with the amount negated and the new balance, and the
    balance falls by exactly the amount; so withdrawing the whole balance
    is accepted and leaves 0.  No other account moves. *)
Theorem withdraw_boundary (req : AmountRequest) (env : Env) (s : State) :
  reachable s → 0 < amount_req req → ¬ held (account_id req) s →
  let a := account_id req in
  let r := withdraw req env s in
  (outcome r = Raised InsufficientFunds ↔ balance_of s a < amount_req req) ∧
  (amount_req req ≤ balance_of s a →
   ∃ e, outcome r = Returned e ∧
        type e = "withdrawal" ∧ amount e = - amount_req req ∧
        tx_id e = uuid4 env ∧ timestamp e = utcnow env ∧
        balance_after e = balance_of s a - amount_req req ∧
        balance_of (final r) a = balance_of s a - amount_req req ∧
        ledger_of (final r) a = ledger_of s a ++ [e]) ∧
  (amount_req req = balance_of s a → balance_of (final r) a = 0) ∧
  (∀ b, b ≠ a →
        balance_of (final r) b = balance_of s b ∧
        ledger_of (final r) b = ledger_of s b).
Proof.
  intros Hs Hpos Hfree a r. subst a r.
  destruct (withdraw_outcomes req env s (reachable_books_wf s Hs))
    as [(_ & _ & Hle & Ho & Hb & Hl & _)|(Hwhy & Hsame & _)].
  - split_and!.
    + rewrite Ho. split; [done|lia].
    + intros _. exists (withdrawal_entry req env s).
      rewrite Hb, Hl. rewrite !decide_True by done.
      by split_and!.
    + intros E. rewrite Hb, decide_True by done. lia.
    + intros b Hne. rewrite Hb, Hl. by rewrite !decide_False by done.
  - destruct Hwhy as [[? _]|[[? _]|(_ & _ & Hlt & Ho)]]; [done..|].
    split_and!.
    + by rewrite Ho.
    + lia.
    + lia.
    + intros b _. apply Hsame.
Qed.

Lemma withdraw_boundary_witness :
  let req := {| account_id := "user1"; amount_req := 900 |} in
  let env := env_at 30 "tx-3" in
  (reachable paid ∧ 0 < amount_req req ∧ ¬ held (account_id req) paid) ∧
  (amount_req req = balance_of paid "user1" →
   balance_of (final (withdraw req env paid)) "user1" = 0).
Proof.
  intros req env.
  assert (H : ¬ held (account_id req) paid) by (by vm_compute).
  split; [split_and!; [exact reachable_paid|done|exact H]|].
  exact (proj1 (proj2 (proj2
           (withdraw_boundary req env paid reachable_paid eq_refl H)))).
Defined.

(** X6. Taking out what was just put in: after a deposit on an account whose
    lock is free, the withdrawal of the same amount is accepted, whatever
    happened before, and every balance is back to what it was before the
    deposit; the history of the account has the two entries more, the
    deposit and then the withdrawal. *)
Theorem deposit_then_withdraw (req : AmountRequest) (env env' : Env) (s : State) :
  reachable s → 0 < amount_req req → ¬ held (account_id req) s →
  let a := account_id req in
  let s1 := final (deposit req env s) in
  let r := withdraw req env' s1 in
  ∃ e1 e2,
    outcome (deposit req env s) = Returned e1 ∧
    outcome r = Returned e2 ∧
    amount e1 + amount e2 = 0 ∧
    balance_after e2 = balance_of s a ∧
    (∀ b, balance_of (final r) b = balance_of s b) ∧
    (∀ b, ledger_of (final r) b =
          if decide (b = a) then ledger_of s a ++ [e1; e2] else ledger_of s b).
Proof.
  intros Hs Hpos Hfree a s1 r. subst a s1 r.
  pose proof (reachable_nonneg s Hs (account_id req)) as Hnn.
  assert (Hs1 : reachable (step (CallDeposit req env) s)) by by constructor.
  cbn [step] in Hs1.
  destruct (deposit_outcomes req env s (reachable_books_wf s Hs))
    as [(_ & _ & Ho & Hb & Hl & Hlocks)|(Hwhy & _)];
    [|by destruct Hwhy as [[? _]|[? _]]].
  destruct (withdraw_outcomes req env' _ (reachable_books_wf _ Hs1))
    as [(_ & _ & _ & Ho' & Hb' & Hl' & _)|(Hwhy & _)].
  - exists (deposit_entry req env s),
           (withdrawal_entry req env' (final (deposit req env s))).
    split_and!; [done|done| | | |].
    + cbn [deposit_entry withdrawal_entry amount]. lia.
    + cbn [withdrawal_entry balance_after]. rewrite Hb.
      rewrite decide_True by done. lia.
    + intros b. rewrite Hb', !Hb.
      repeat case_decide; subst; try done; lia.
    + intros b. rewrite Hl', !Hl.
      repeat case_decide; subst; try done. by rewrite <- app_assoc.
  - exfalso. destruct Hwhy as [[? _]|[[Hh _]|(_ & _ & Hlt & _)]]; [done| |].
    + by apply Hlocks in Hh.
    + rewrite Hb, decide_True in Hlt by done. lia.
Qed.

Lemma deposit_then_withdraw_witness :
  let req := {| account_id := "user1"; amount_req := 250 |} in
  (reachable paid ∧ 0 < amount_req req ∧ ¬ held (account_id req) paid) ∧
  ∃ e1 e2,
    outcome (deposit req (env_at 30 "tx-3") paid) = Returned e1 ∧
    outcome (withdraw req (env_at 40 "tx-4")
               (final (deposit req (env_at 30 "tx-3") paid))) = Returned e2 ∧
    amount e1 + amount e2 = 0 ∧
    balance_after e2 = balance_of paid "user1" ∧
    (∀ b, balance_of (final (withdraw req (env_at 40 "tx-4")
                               (final (deposit req (env_at 30 "tx-3") paid)))) b
          = balance_of paid b) ∧
    (∀ b, ledger_of (final (withdraw req (env_at 40 "tx-4")
                              (final (deposit req (env_at 30 "tx-3") paid)))) b =
          if decide (b = "user1") then ledger_of paid "user1" ++ [e1; e2]
          else ledger_of paid b).
Proof.
  intros req.
  assert (H : ¬ held (account_id req) paid) by (by vm_compute).
  split; [split_and!; [exact reachable_paid|done|exact H]|].
  exact (deposit_then_withdraw req (env_at 30 "tx-3") (env_at 40 "tx-4") paid
           reachable_paid eq_refl H).
Defined.

(** ** The sum of all balances *)

Lemma total_insert (m : gmap string Z) (a : string) (v : Z) :
  map_fold (λ _ b acc, b + acc) 0 (<[a:=v]> m) =
  map_fold (λ _ b acc, b + acc) 0 m - default 0 (m !! a) + v.
Proof.
  destruct (m !! a) as [w|] eqn:E; cbn [default from_option id].
  - transitivity (map_fold (λ _ b acc, b + acc) 0 (<[a:=w]> (delete a m)) - w + v);
      [|by rewrite insert_delete_id].
    rewrite <- (insert_delete_eq m a v).
    rewrite !map_fold_insert_L; [lia|..]; try (intros; lia);
      apply lookup_delete_eq.
  - rewrite map_fold_insert_L; [lia|intros; lia|done].
Qed.

Lemma total_create a s : total_balance (create a s) = total_balance s.
Proof.
  unfold total_balance, create. case_bool_decide as H; [done|].
  cbn [accounts set_ledger set_accounts]. rewrite total_insert.
  apply eq_None_not_Some in H. rewrite H. cbn [default from_option id]. lia.
Qed.

Lemma total_accounts s s' : accounts s' = accounts s → total_balance s' = total_balance s.
Proof. unfold total_balance. by intros ->. Qed.

Lemma total_post a tx ty amt ts s :
  total_balance (post a tx ty amt ts s) = total_balance s + amt.
Proof.
  unfold total_balance, post. cbn [accounts set_ledger set_accounts].
  rewrite total_insert. unfold balance_of. lia.
Qed.

Lemma total_post_transfer req env s :
  total_balance (post_transfer req env s) = total_balance s.
Proof.
  unfold total_balance, post_transfer. cbn [accounts set_ledger set_accounts].
  rewrite !total_insert. unfold balance_of. cbn [accounts set_accounts]. lia.
Qed.

Lemma total_locked1 a s : total_balance (locked1 a s) = total_balance s.
Proof.
  rewrite <- (total_create a s). apply total_accounts, locked1_accounts.
Qed.

Lemma accounts_store key resp now s : accounts (store key resp now s) = accounts s.
Proof. unfold store. destruct key as [k|]; [|done]. by destruct (truthy k). Qed.

Lemma total_opened req s : total_balance (opened req s) = total_balance s.
Proof. unfold opened. by rewrite !total_create. Qed.

Lemma accounts_at_first req env s : accounts (at_first req env s) = accounts (opened req s).
Proof. unfold at_first. by rewrite mklock_accounts. Qed.

Lemma accounts_at_second req env s : accounts (at_second req env s) = accounts (opened req s).
Proof.
  unfold at_second. rewrite mklock_accounts. cbn [hold accounts set_account_locks].
  apply accounts_at_first.
Qed.

Lemma accounts_locked2 req env s : accounts (locked2 req env s) = accounts (opened req s).
Proof. unfold locked2. cbn [hold accounts set_account_locks]. apply accounts_at_second. Qed.

(** X7. Money enters and leaves only through deposits and withdrawals: a
    transfer leaves the sum of all balances as it was, whatever its outcome;
    a deposit that returns adds its amount to the sum and a withdrawal that
    returns takes its amount from it; a deposit or a withdrawal that does
    not return, and every read, leaves the sum as it was. *)
Theorem total_balance_moves (s : State) :
  reachable s →
  (∀ req key env,
     total_balance (final (transfer req key env s)) = total_balance s) ∧
  (∀ req env,
     total_balance (final (deposit req env s)) =
     total_balance s +
     match outcome (deposit req env s) with
     | Returned _ => amount_req req
     | _ => 0
     end) ∧
  (∀ req env,
     total_balance (final (withdraw req env s)) =
     total_balance s -
     match outcome (withdraw req env s) with
     | Returned _ => amount_req req
     | _ => 0
     end) ∧
  (∀ a limit cursor env,
     total_balance (final (get_balance a s)) = total_balance s ∧
     total_balance (final (get_transactions a limit cursor s)) = total_balance s ∧
     total_balance (final (account_summary a env s)) = total_balance s).
Proof.
  intros Hs. pose proof (reachable_books_wf s Hs) as Hwf. split_and!.
  - intros req key env.
    destruct (transfer_sound req key env s Hwf); cbn [final]; try done.
    + apply total_opened.
    + rewrite <- (total_opened req s). apply total_accounts, accounts_at_first.
    + rewrite <- (total_opened req s). apply total_accounts, accounts_at_second.
    + rewrite <- (total_opened req s). apply total_accounts.
      unfold unlocked2, free. cbn [accounts set_account_locks].
      apply accounts_locked2.
    + rewrite <- (total_opened req s). apply total_accounts.
      unfold unlocked2, free. cbn [accounts set_account_locks].
      apply accounts_locked2.
    + rewrite (total_accounts _ _ (accounts_store _ _ _ _)).
      unfold unlocked2, free.
      transitivity (total_balance (post_transfer req env (locked2 req env s)));
        [by apply total_accounts|].
      rewrite total_post_transfer, <- (total_opened req s).
      apply total_accounts, accounts_locked2.
  - intros req env.
    destruct (deposit_sound req env s Hwf); cbn [final outcome].
    + lia.
    + rewrite (total_accounts _ _ (mklock_accounts _ _)), total_create. lia.
    + unfold free.
      transitivity (total_balance
                      (post (account_id req) (uuid4 env) "deposit"
                         (amount_req req) (utcnow env)
                         (locked1 (account_id req) s)));
        [by apply total_accounts|].
      by rewrite total_post, total_locked1.
  - intros req env.
    destruct (withdraw_sound req env s Hwf); cbn [final outcome].
    + lia.
    + rewrite (total_accounts _ _ (mklock_accounts _ _)), total_create. lia.
    + unfold free.
      transitivity (total_balance (locked1 (account_id req) s));
        [by apply total_accounts|].
      rewrite total_locked1. lia.
    + unfold free.
      transitivity (total_balance
                      (post (account_id req) (uuid4 env) "withdrawal"
                         (- amount_req req) (utcnow env)
                         (locked1 (account_id req) s)));
        [by apply total_accounts|].
      rewrite total_post, total_locked1. lia.
  - intros a limit cursor env.
    rewrite final_get_balance, final_get_transactions, final_account_summary
      by done.
    by rewrite total_create.
Qed.

Lemma total_balance_moves_witness :
  reachable paid ∧
  ∀ req key env,
    total_balance (final (transfer req key env paid)) = total_balance paid.
Proof.
  split; [exact reachable_paid|].
  exact (proj1 (total_balance_moves paid reachable_paid)).
Defined.

(** ** What the read endpoints return *)

Lemma run_account_summary a env s :
  books_wf s →
  account_summary a env s =
  mkRun (Returned
           {| sum_account_id := a; sum_balance := balance_of s a;
              daily_transfer_total :=
                daily_outbound_total (ledger_of s a) (date (utcnow_daily env));
              daily_transfer_limit := DAILY_TRANSFER_LIMIT;
              daily_transfer_remaining :=
                DAILY_TRANSFER_LIMIT -
                daily_outbound_total (ledger_of s a) (date (utcnow_daily env));
              transaction_count := length (ledger_of s a) |})
        (create a s) [].
Proof.
  intros Hwf. unfold account_summary.
  rewrite (run_bind_pure _ _ s (create a s) tt) by apply run_ensure_account.
  rewrite (run_bind_pure _ _ _ (create a s)
             (daily_total a (utcnow_daily env) (create a s)))
    by apply run_get_daily_transfer_total.
  rewrite (run_bind_pure _ _ _ (create a s) (balance_of (create a s) a))
    by apply run_getitem_accounts, create_has_account.
  rewrite (run_bind_pure _ _ _ (create a s) (ledger_of (create a s) a))
    by by apply run_getitem_ledger, create_has_ledger.
  rewrite run_ret, daily_total_spec, accounts_create_lookup.
  by rewrite ledger_create_lookup.
Qed.

Lemma run_get_transactions a limit cursor s :
  books_wf s →
  get_transactions a limit cursor s =
  mkRun (Returned
           {| page_account_id := a;
              items := slice (ledger_of s a) cursor (cursor + limit);
              total_transactions := Z.of_nat (length (ledger_of s a));
              current_cursor := cursor;
              next_cursor :=
                if bool_decide (cursor + limit < Z.of_nat (length (ledger_of s a)))
                then Some (cursor + limit) else None;
              has_more :=
                bool_decide (cursor + limit < Z.of_nat (length (ledger_of s a))) |})
        (create a s) [].
Proof.
  intros Hwf. unfold get_transactions.
  rewrite (run_bind_pure _ _ s (create a s) tt) by apply run_ensure_account.
  rewrite (run_bind_pure _ _ _ (create a s) (ledger_of (create a s) a))
    by by apply run_getitem_ledger, create_has_ledger.
  cbv zeta.
  rewrite (run_bind_pure _ _ _ (create a s) (ledger_of (create a s) a))
    by by apply run_getitem_ledger, create_has_ledger.
  rewrite run_ret. by rewrite ledger_create_lookup.
Qed.

(** ** The locks over a sequence of requests *)

Lemma transfer_blocked_why req key env s :
  books_wf s → outcome (transfer req key env s) = Blocked →
  from_account req = to_account req ∨
  held (from_account req) s ∨ held (to_account req) s.
Proof.
  intros Hwf.
  destruct (locks_of_transfer req) as [[E1 E2]|[E1 E2]];
  destruct (transfer_sound req key env s Hwf)
    as [?|?|resp ???|? ? ? Hr|? ? ? ? Hh|? ? ? ? Hh1 Hh| | |];
    cbn [outcome]; intros Ho; try done.
  - apply (proj1 (held_at_first _ _ _ _)) in Hh. rewrite E1 in Hh. auto.
  - apply (proj1 (held_at_second _ _ _ _)) in Hh.
    destruct Hh as [Hh|Hh]; [left; congruence|]. rewrite E2 in Hh. auto.
  - apply (proj1 (held_at_first _ _ _ _)) in Hh. rewrite E1 in Hh. auto.
  - apply (proj1 (held_at_second _ _ _ _)) in Hh.
    destruct Hh as [Hh|Hh]; [left; congruence|]. rewrite E2 in Hh. auto.
Qed.

Lemma transfer_keeps_held req key env s l :
  books_wf s → held l s → held l (final (transfer req key env s)).
Proof.
  intros Hwf Hl.
  destruct (outcome (transfer req key env s)) as [resp|e|] eqn:Ho.
  - destruct (transfer_outcomes req key env s Hwf)
      as [(_ & _ & _ & _ & _ & _ & Hlocks & _)|[_ Hc]].
    + by apply Hlocks.
    + destruct (Hc resp Ho) as [_ ->]. done.
  - by apply (transfer_rejected s req key env e Hwf Ho).
  - revert Ho.
    destruct (transfer_sound req key env s Hwf); cbn [outcome final];
      intros Ho; try done.
    + by apply held_at_first.
    + apply held_at_second. by right.
Qed.

Lemma step_keeps_held c s l : books_wf s → held l s → held l (step c s).
Proof.
  intros Hwf Hl.
  destruct c as [a|req env|req env|req key env|a limit cursor|a env];
    cbn [step].
  - rewrite final_get_balance. by apply held_create.
  - destruct (deposit_outcomes req env s Hwf)
      as [(_ & _ & _ & _ & _ & Hlocks)|(_ & _ & Hlocks)]; by apply Hlocks.
  - destruct (withdraw_outcomes req env s Hwf)
      as [(_ & _ & _ & _ & _ & _ & Hlocks)|(_ & _ & Hlocks)]; by apply Hlocks.
  - by apply transfer_keeps_held.
  - rewrite final_get_transactions by done. by apply held_create.
  - rewrite final_account_summary by done. by apply held_create.
Qed.

Lemma step_none_held c s :
  books_wf s → (∀ l, ¬ held l s) → ¬ self_transfer c →
  ¬ blocks c s ∧ ∀ l, ¬ held l (step c s).
Proof.
  intros Hwf Hfree Hself.
  destruct c as [a|req env|req env|req key env|a limit cursor|a env];
    cbn [step blocks self_transfer] in *.
  - rewrite run_get_balance. cbn [outcome final]. split; [done|]. intros l.
    rewrite held_create. apply Hfree.
  - destruct (deposit_outcomes req env s Hwf)
      as [(_ & _ & Ho & _ & _ & Hlocks)|([[_ Ho]|[Hh _]] & _ & Hlocks)];
      try (by apply Hfree in Hh);
      (split; [by rewrite Ho|intros l Hl; apply Hlocks in Hl; by apply Hfree in Hl]).
  - destruct (withdraw_outcomes req env s Hwf)
      as [(_ & _ & _ & Ho & _ & _ & Hlocks)
         |([[_ Ho]|[[Hh _]|(_ & _ & _ & Ho)]] & _ & Hlocks)];
      try (by apply Hfree in Hh);
      (split; [by rewrite Ho|intros l Hl; apply Hlocks in Hl; by apply Hfree in Hl]).
  - assert (outcome (transfer req key env s) ≠ Blocked) as Hnb.
    { intros Ho.
      destruct (transfer_blocked_why req key env s Hwf Ho) as [?|[Hh|Hh]];
        [done|by apply Hfree in Hh..]. }
    split; [done|]. intros l Hl.
    destruct (outcome (transfer req key env s)) as [resp|e|] eqn:Ho; [| |done].
    + destruct (transfer_outcomes req key env s Hwf)
        as [(_ & _ & _ & _ & _ & _ & Hlocks & _)|[_ Hc]].
      * apply Hlocks in Hl. by apply Hfree in Hl.
      * destruct (Hc resp Ho) as [_ E]. rewrite E in Hl. by apply Hfree in Hl.
    + apply (transfer_rejected s req key env e Hwf Ho) in Hl.
      by apply Hfree in Hl.
  - rewrite run_get_transactions by done. cbn [outcome final].
    split; [done|]. intros l. rewrite held_create. apply Hfree.
  - rewrite run_account_summary by done. cbn [outcome final].
    split; [done|]. intros l. rewrite held_create. apply Hfree.
Qed.

Lemma run_none_held cs :
  Forall (λ c, ¬ self_transfer c) cs → ∀ l, ¬ held l (run cs empty_state).
Proof.
  induction cs as [|c cs IH] using rev_ind; intros Hcs.
  - intros l. unfold held, run, empty_state. cbn [fold_left account_locks].
    by rewrite lookup_empty.
  - apply Forall_app in Hcs as [Hcs Hc]. apply List.Forall_inv in Hc.
    rewrite run_snoc. apply step_none_held; [|by apply IH|exact Hc].
    apply reachable_books_wf, reachable_run, reachable_empty.
Qed.

(** X8. As long as no transfer names the same account as source and as
    destination, no request ever waits: after any such sequence of
    requests, starting with no accounts, no lock is held, and none of the
    requests of the sequence was left waiting for a lock. *)
Theorem no_self_transfer_no_waiting (cs : list Call) :
  Forall (λ c, ¬ self_transfer c) cs →
  (∀ l, ¬ held l (run cs empty_state)) ∧
  ∀ before c after, cs = before ++ c :: after →
                    ¬ blocks c (run before empty_state).
Proof.
  intros Hcs. split; [by apply run_none_held|].
  intros before c after ->.
  apply Forall_app in Hcs as [Hb Hc]. apply List.Forall_inv in Hc.
  apply step_none_held; [|by apply run_none_held|exact Hc].
  apply reachable_books_wf, reachable_run, reachable_empty.
Qed.

Lemma no_self_transfer_no_waiting_witness :
  Forall (λ c, ¬ self_transfer c) clock_running ∧
  ∀ l, ¬ held l (run clock_running empty_state).
Proof.
  assert (H : Forall (λ c, ¬ self_transfer c) clock_running).
  { unfold clock_running. repeat constructor; cbn [self_transfer]; auto. }
  split; [exact H|].
  exact (proj1 (no_self_transfer_no_waiting clock_running H)).
Defined.

Lemma reachable_stuck : reachable stuck.
Proof. unfold stuck. constructor. exact reachable_funded. Defined.

(** X9. A lock that is held is never given back: whatever requests follow,
    it stays held, and every deposit and every withdrawal of a positive
    amount on its account waits for ever, as does every transfer from or to
    that account that gets as far as the locks. *)
Theorem held_lock_is_never_released (s : State) (l : string) (cs : list Call) :
  reachable s → held l s →
  let s' := run cs s in
  held l s' ∧
  (∀ req env,
     account_id req = l → 0 < amount_req req →
     outcome (deposit req env s') = Blocked ∧
     outcome (withdraw req env s') = Blocked) ∧
  (∀ req key env,
     from_account req = l ∨ to_account req = l →
     0 < amount_tr req → amount_tr req ≤ PER_TRANSFER_MAX →
     cache_lookup key (time_check env) s' = None →
     (length (rate_window (from_account req) (time_rate env) s')
      < RATE_LIMIT_PER_MINUTE)%nat →
     outcome (transfer req key env s') = Blocked).
Proof.
  intros Hs Hl s'.
  assert (Hs' : reachable s') by by apply reachable_run.
  pose proof (reachable_books_wf s' Hs') as Hwf.
  assert (Hl' : held l s').
  { subst s'. clear Hs' Hwf. induction cs as [|c cs IH] using rev_ind; [done|].
    rewrite run_snoc. apply step_keeps_held; [|done].
    by apply reachable_books_wf, reachable_run. }
  split_and!; [done| |].
  - intros req env <- Hpos. split.
    + destruct (deposit_outcomes req env s' Hwf)
        as [(_ & ? & _)|([[? _]|[_ Ho]] & _)]; done.
    + destruct (withdraw_outcomes req env s' Hwf)
        as [(_ & ? & _)|([[? _]|[[_ Ho]|(_ & ? & _)]] & _)]; done.
  - intros req key env Hnames Hpos Hmax Hmiss Hrate.
    destruct (transfer_sound req key env s' Hwf)
      as [?|?|resp ???|? ? ? Hr|? ? ? ? Hh|? ? ? ? Hh1 Hh
         |? ? ? ? H1 H2|? ? ? ? H1 H2|? ? ? ? H1 H2];
      cbn [outcome]; try done; try lia.
    + congruence.
    + apply (proj1 (rate_exceeded_iff _ _ _)) in Hr. lia.
    + destruct (free_locks_of_transfer req env s' H1 H2) as (_ & ? & ?).
      destruct Hnames; congruence.
    + destruct (free_locks_of_transfer req env s' H1 H2) as (_ & ? & ?).
      destruct Hnames; congruence.
    + destruct (free_locks_of_transfer req env s' H1 H2) as (_ & ? & ?).
      destruct Hnames; congruence.
Qed.

Lemma held_lock_is_never_released_witness :
  let cs := [CallBalance "user1";
             CallWithdraw {| account_id := "user2"; amount_req := 5 |}
               (env_at 30 "tx-3")] in
  (reachable stuck ∧ held "user1" stuck) ∧
  held "user1" (run cs stuck).
Proof.
  intros cs.
  assert (H : held "user1" stuck) by (by vm_compute).
  split; [split; [exact reachable_stuck|exact H]|].
  exact (proj1 (held_lock_is_never_released stuck "user1" cs reachable_stuck H)).
Defined.

(** ** Pages of the history *)

Lemma slice_nonneg {A} (l : list A) (cursor limit : Z) :
  0 ≤ cursor → 0 ≤ limit →
  slice l cursor (cursor + limit) =
  take (Z.to_nat limit) (drop (Z.to_nat cursor) l).
Proof.
  intros Hc Hl. unfold slice, slice_index.
  rewrite !bool_decide_eq_false_2 by lia.
  destruct (decide (Z.of_nat (length l) ≤ cursor)) as [Hge|Hlt].
  - rewrite (drop_ge l (Z.to_nat cursor)) by lia.
    rewrite (drop_ge l) by lia. by rewrite !take_nil.
  - rewrite (Z.min_l cursor) by lia.
    destruct (decide (cursor + limit ≤ Z.of_nat (length l))) as [Hin|Hout].
    + rewrite Z.min_l by lia. do 2 f_equal. lia.
    + rewrite Z.min_r by lia.
      rewrite !take_ge; [done|rewrite length_drop; lia..].
Qed.

(** X10. A page of the history, for a cursor and a limit that are not
    negative: the endpoint always returns; the items are the [limit] entries
    that follow the first [cursor] ones, fewer when the history ends before;
    [has_more] says whether entries are left after the page and
    [next_cursor], present exactly then, is where they start, so that the
    entries before the cursor, the page and the entries from [next_cursor]
    on make up the history.  A cursor at or past the end gives an empty
    last page.  With a limit of 0 the page is empty and, before the end of
    the history, [next_cursor] is the cursor itself. *)
Theorem transactions_page (a : string) (limit cursor : Z) (s : State) :
  reachable s → 0 ≤ cursor → 0 ≤ limit →
  let l := ledger_of s a in
  let total := Z.of_nat (length l) in
  ∃ p, outcome (get_transactions a limit cursor s) = Returned p ∧
       items p = take (Z.to_nat limit) (drop (Z.to_nat cursor) l) ∧
       total_transactions p = total ∧
       current_cursor p = cursor ∧
       (has_more p = true ↔ cursor + limit < total) ∧
       next_cursor p = (if has_more p then Some (cursor + limit) else None) ∧
       take (Z.to_nat cursor) l ++ items p ++ drop (Z.to_nat (cursor + limit)) l
       = l ∧
       (has_more p = false → items p = drop (Z.to_nat cursor) l) ∧
       (total ≤ cursor → items p = [] ∧ has_more p = false) ∧
       (limit = 0 →
        items p = [] ∧ (cursor < total → next_cursor p = Some cursor)).
Proof.
  intros Hs Hc Hl l total. subst l total.
  rewrite run_get_transactions by by apply reachable_books_wf.
  eexists. split; [done|].
  cbn [outcome items total_transactions current_cursor has_more next_cursor].
  rewrite slice_nonneg by done.
  split_and!; try done.
  - apply bool_decide_eq_true.
  - replace (Z.to_nat (cursor + limit))
      with (Z.to_nat cursor + Z.to_nat limit)%nat by lia.
    by rewrite <- drop_drop, take_drop, take_drop.
  - intros Hm. apply bool_decide_eq_false in Hm.
    apply take_ge. rewrite length_drop. lia.
  - intros Hge. split; [|apply bool_decide_eq_false; lia].
    rewrite drop_ge by lia. apply take_nil.
  - intros ->. split; [done|]. intros Hlt.
    rewrite bool_decide_eq_true_2 by lia. f_equal. lia.
Qed.

Lemma transactions_page_witness :
  (reachable paid ∧ 0 ≤ 0 ∧ 0 ≤ 1) ∧
  ∃ p, outcome (get_transactions "user1" 1 0 paid) = Returned p ∧
       has_more p = true ∧ next_cursor p = Some 1.
Proof.
  split; [split_and!; [exact reachable_paid|done..]|].
  destruct (transactions_page "user1" 1 0 paid reachable_paid)
    as (p & Ho & _ & _ & _ & Hm & Hn & _); [done..|].
  exists p. split; [exact Ho|].
  assert (has_more p = true) as E by (apply Hm; by vm_compute).
  split; [exact E|]. by rewrite Hn, E.
Defined.

Lemma read_pages_drop (a : string) (limit : Z) (fuel : nat) :
  0 < limit →
  ∀ cursor s,
    books_wf s → 0 ≤ cursor → (0 < fuel)%nat →
    Z.of_nat (length (ledger_of s a)) - cursor < Z.of_nat fuel * limit →
    ∃ k, read_pages fuel a limit cursor s =
         Some (drop (Z.to_nat cursor) (ledger_of s a), k) ∧
         (1 ≤ k)%nat ∧
         (Z.of_nat k - 1) * limit <
         Z.max 1 (Z.of_nat (length (ledger_of s a)) - cursor).
Proof.
  intros Hl. induction fuel as [|n IH]; intros cursor s Hwf Hc Hpos Hfuel;
    [lia|].
  cbn [read_pages]. rewrite run_get_transactions by done.
  cbn [outcome final items next_cursor]. rewrite slice_nonneg by lia.
  case_bool_decide as Hmore.
  - destruct (IH (cursor + limit) (create a s)) as (k & -> & Hk1 & Hk);
      [by apply create_books_wf|lia|nia|
       rewrite ledger_create_lookup by done; nia|].
    rewrite ledger_create_lookup in Hk |- * by done.
    exists (S k). split_and!; [|lia|nia].
    do 2 f_equal.
    replace (Z.to_nat (cursor + limit))
      with (Z.to_nat cursor + Z.to_nat limit)%nat by lia.
    rewrite <- drop_drop. apply take_drop.
  - exists 1%nat. split_and!; [|lia|lia].
    do 2 f_equal. apply take_ge. rewrite length_drop. lia.
Qed.

(** X11. Reading a history page by page ends, and reads all of it once: a
    client that starts at cursor 0 with a positive limit and follows
    [next_cursor] gets a page without [next_cursor] after [k] requests,
    where [(k - 1) * limit] is less than the number of entries (or [k] is 1
    for an empty history), so after no more requests than there are
    entries, plus one; what it has read by then is the history, in order,
    with no entry repeated and none left out. *)
Theorem pages_cover_history (a : string) (limit : Z) (s : State) (fuel : nat) :
  reachable s → 0 < limit → (length (ledger_of s a) < fuel)%nat →
  ∃ k, read_pages fuel a limit 0 s = Some (ledger_of s a, k) ∧
       (1 ≤ k ≤ length (ledger_of s a) + 1)%nat ∧
       (Z.of_nat k - 1) * limit < Z.max 1 (Z.of_nat (length (ledger_of s a))).
Proof.
  intros Hs Hl Hfuel.
  destruct (read_pages_drop a limit fuel Hl 0 s) as (k & Hk & Hk1 & Hbound);
    [by apply reachable_books_wf|done|lia|nia|].
  rewrite Z.sub_0_r in Hbound. exists k. split_and!; [done|done|nia|done].
Qed.

Lemma pages_cover_history_witness :
  (reachable fourteen_entries ∧ 0 < 5 ∧
   (length (ledger_of fourteen_entries "user1") < 15)%nat) ∧
  ∃ k, read_pages 15 "user1" 5 0 fourteen_entries
       = Some (ledger_of fourteen_entries "user1", k) ∧
       (1 ≤ k ≤ length (ledger_of fourteen_entries "user1") + 1)%nat ∧
       (Z.of_nat k - 1) * 5 <
       Z.max 1 (Z.of_nat (length (ledger_of fourteen_entries "user1"))).
Proof.
  assert (H : reachable fourteen_entries)
    by (apply reachable_run; constructor).
  assert (H15 : (length (ledger_of fourteen_entries "user1") < 15)%nat)
    by (vm_compute; lia).
  split; [split_and!; [exact H|done|exact H15]|].
  exact (pages_cover_history "user1" 5 fourteen_entries 15 H eq_refl H15).
Defined.

(** ** The summary of an account *)

Lemma daily_outbound_total_nonneg l d : 0 ≤ daily_outbound_total l d.
Proof.
  induction l as [|e l IH] using rev_ind; [done|].
  rewrite daily_outbound_total_snoc. case_match; lia.
Qed.

(** X12. The summary is consistent with the other endpoints and with the
    daily check: it always returns; its balance is the one the balance
    endpoint returns and its transaction count the total the history
    endpoint reports; the daily total is not negative and, with what is
    said to remain, adds up to the limit of 25,000; and a transfer from the
    account, on the day of the summary, that gets to the daily check is
    refused for the daily limit exactly when its amount is more than what
    the summary says remains. *)
Theorem summary_predicts_daily_check (a : string) (env : Env) (s : State) :
  reachable s →
  ∃ r, outcome (account_summary a env s) = Returned r ∧
       sum_account_id r = a ∧
       outcome (get_balance a s) =
       Returned {| bal_account_id := a; balance := sum_balance r |} ∧
       (∀ limit cursor p,
          outcome (get_transactions a limit cursor s) = Returned p →
          total_transactions p = Z.of_nat (transaction_count r)) ∧
       0 ≤ daily_transfer_total r ∧
       daily_transfer_limit r = 25000 ∧
       daily_transfer_total r + daily_transfer_remaining r = 25000 ∧
       ∀ req key env',
         from_account req = a →
         date (utcnow_daily env') = date (utcnow_daily env) →
         reaches_daily_check req key env' s →
         (outcome (transfer req key env' s) = Raised DailyLimitExceeded ↔
          daily_transfer_remaining r < amount_tr req).
Proof.
  intros Hs. pose proof (reachable_books_wf s Hs) as Hwf.
  rewrite run_account_summary by done. eexists. split; [done|].
  cbn [sum_account_id sum_balance transaction_count daily_transfer_total
       daily_transfer_limit daily_transfer_remaining].
  split_and!.
  - done.
  - by rewrite run_get_balance.
  - intros limit cursor p. rewrite run_get_transactions by done.
    cbn [outcome]. by intros [= <-].
  - apply daily_outbound_total_nonneg.
  - done.
  - unfold DAILY_TRANSFER_LIMIT. lia.
  - intros req key env' <- Hday Hreach.
    rewrite (transfer_decided req key env' s Hwf Hreach). rewrite Hday.
    unfold DAILY_TRANSFER_LIMIT. repeat case_decide; split; (done || lia).
Qed.

Lemma summary_predicts_daily_check_witness :
  reachable spent_20000 ∧
  ∃ r, outcome (account_summary "user1" (env_at 40 "tx-4") spent_20000)
       = Returned r ∧
       daily_transfer_total r + daily_transfer_remaining r = 25000.
Proof.
  split; [exact reachable_spent_20000|].
  destruct (summary_predicts_daily_check "user1" (env_at 40 "tx-4") spent_20000
              reachable_spent_20000)
    as (r & Ho & _ & _ & _ & _ & _ & Hsum & _).
  exists r. split; [exact Ho|exact Hsum].
Defined.

(** ** The daily limit over a sequence of requests *)

Lemma date_mono (t t' : datetime) : t ≤ t' → date t ≤ date t'.
Proof. intros H. unfold date. by apply Z.div_le_mono. Qed.

Lemma all_readings_snoc cs c :
  all_readings (cs ++ [c]) = all_readings cs ++ readings c.
Proof.
  unfold all_readings. rewrite map_app, concat_app. cbn [map concat].
  by rewrite app_nil_r.
Qed.

Lemma stamps_all_readings cs t : t ∈ stamps cs → t ∈ all_readings cs.
Proof.
  induction cs as [|c cs IH] using rev_ind; [done|].
  rewrite stamps_snoc, all_readings_snoc, !elem_of_app.
  intros [?|Ht]; [left; auto|right].
  unfold stamps in Ht. apply list_elem_of_omap in Ht as (c' & Hc' & Hst).
  apply list_elem_of_singleton in Hc' as ->.
  destruct c; cbn [call_stamp readings] in *; try done;
    injection Hst as <-; set_solver.
Qed.

Lemma daily_outbound_total_other_days l d :
  (∀ e, e ∈ l → date (timestamp e) ≠ d) → daily_outbound_total l d = 0.
Proof.
  induction l as [|e l IH] using rev_ind; intros H; [done|].
  rewrite daily_outbound_total_snoc, IH.
  - rewrite (bool_decide_eq_false_2 (date (timestamp e) = d)).
    + by rewrite andb_false_r.
    + apply H. set_solver.
  - intros e' ?. apply H. set_solver.
Qed.

Lemma run_daily_cap cs :
  wall_clock_monotone cs →
  ∀ a d, daily_outbound_total (ledger_of (run cs empty_state) a) d
         ≤ DAILY_TRANSFER_LIMIT.
Proof.
  induction cs as [|c cs IH] using rev_ind; intros Hclock a d.
  - unfold run, ledger_of, empty_state. cbn [fold_left ledger].
    rewrite lookup_empty. by vm_compute.
  - unfold wall_clock_monotone in Hclock. rewrite all_readings_snoc in Hclock.
    apply StronglySorted_app in Hclock as (Hlast & Hcs & Hc).
    specialize (IH Hcs).
    rewrite run_snoc.
    assert (Hs : reachable (run cs empty_state))
      by apply reachable_run, reachable_empty.
    destruct (step_reading c (run cs empty_state) (reachable_books_wf _ Hs))
      as [Hsame|[(b & e & (_ & Hl & _) & _ & Hk)
                |(req & key & env & -> & (_ & Hl) & Hreach & Hday & _)]].
    + destruct (Hsame a) as [_ ->]. apply IH.
    + rewrite Hl. case_decide; [subst b|apply IH].
      rewrite daily_outbound_total_snoc.
      rewrite (bool_decide_eq_false_2 (type e = "transfer_out")).
      * rewrite andb_false_l, Z.add_0_r. apply IH.
      * destruct Hk as [[-> _]|(-> & _)]; done.
    + rewrite Hl. unfold transfer_appends.
      destruct Hreach as (Hpos & Hmax & _).
      repeat case_decide.
      * subst a. rewrite daily_outbound_total_snoc.
        cbn [transfer_out_entry type amount timestamp].
        rewrite bool_decide_eq_true_2 by done. rewrite andb_true_l.
        case_bool_decide as Hd; [|rewrite Z.add_0_r; apply IH].
        replace (Z.abs (- amount_tr req)) with (amount_tr req) by lia.
        cbn [readings] in Hc.
        apply StronglySorted_cons in Hc as [Hc _].
        apply List.Forall_inv in Hc. rename Hc into Hle.
        destruct (decide (date (utcnow_daily env) = d)) as [<-|Hne]; [done|].
        rewrite daily_outbound_total_other_days;
          [unfold PER_TRANSFER_MAX, DAILY_TRANSFER_LIMIT in *; lia|].
        intros e He Hdate.
        assert (timestamp e ≤ utcnow_daily env) as Hbefore.
        { apply Hlast; [|cbn [readings]; set_solver].
          by apply stamps_all_readings, (run_stamps cs (from_account req)). }
        apply date_mono in Hbefore, Hle. lia.
      * rewrite daily_outbound_total_snoc.
        cbn [transfer_in_entry type]. rewrite bool_decide_eq_false_2 by done.
        rewrite andb_false_l, Z.add_0_r. apply IH.
      * rewrite app_nil_r. apply IH.
Qed.

(** X13. The daily limit holds over whole histories when the wall clock
    does not go back: after any sequence of requests, starting with no
    accounts, in which no reading of [datetime.utcnow()] is earlier than a
    reading taken before it, the [transfer_out] entries that any account has
    on any one day sum to 25,000 at most, and so does the daily total that
    the summary reports. *)
Theorem daily_limit_is_kept (cs : list Call) :
  wall_clock_monotone cs →
  let s := run cs empty_state in
  (∀ a d, daily_outbound_total (ledger_of s a) d ≤ DAILY_TRANSFER_LIMIT) ∧
  (∀ a env r, outcome (account_summary a env s) = Returned r →
              0 ≤ daily_transfer_total r ≤ 25000 ∧
              0 ≤ daily_transfer_remaining r ≤ 25000).
Proof.
  intros Hclock s. split; [by apply run_daily_cap|].
  intros a env r.
  rewrite run_account_summary
    by apply reachable_books_wf, reachable_run, reachable_empty.
  cbn [outcome]. intros [= <-].
  cbn [daily_transfer_total daily_transfer_remaining].
  pose proof (run_daily_cap cs Hclock a (date (utcnow_daily env))) as Hcap.
  pose proof (daily_outbound_total_nonneg (ledger_of s a)
                (date (utcnow_daily env))) as Hnn.
  fold s in Hcap. unfold DAILY_TRANSFER_LIMIT in *. lia.
Qed.

Lemma daily_limit_is_kept_witness :
  wall_clock_monotone clock_running ∧
  ∀ a d, daily_outbound_total (ledger_of (run clock_running empty_state) a) d
         ≤ DAILY_TRANSFER_LIMIT.
Proof.
  assert (H : wall_clock_monotone clock_running).
  { unfold wall_clock_monotone. vm_compute.
    repeat (constructor; [|repeat constructor; by vm_compute]). constructor. }
  split; [exact H|].
  exact (proj1 (daily_limit_is_kept clock_running H)).
Defined.

(** ** The idempotency store, written and read back *)

(** X14. What [store_idempotency] writes, [check_idempotency] reads back
    until the record expires.  The record expires at the float sum of the
    store time and 86,400: a check of the same key returns the stored
    response when its reading is below that sum and nothing otherwise, the
    instant of the sum itself included; it changes nothing.  A second store
    under the same key replaces the record, and the checks of all other keys
    answer as before the store. *)
Theorem stored_response_until_expiry (k : string) (resp : TransferResponse)
    (now later : float) (s : State) :
  let s1 := final (store_idempotency k resp now s) in
  let expiry := (now + 86400)%float in
  idempotency_store s1 !! k = Some {| response := resp; expires_at := expiry |} ∧
  check_idempotency k later s1 =
  mkRun (Returned (if (later <? expiry)%float then Some resp else None)) s1 [] ∧
  check_idempotency k expiry s1 = mkRun (Returned None) s1 [] ∧
  (∀ resp' now',
     outcome (check_idempotency k later
                (final (store_idempotency k resp' now' s1)))
     = Returned (if (later <? now' + 86400)%float then Some resp' else None)) ∧
  (∀ k', k' ≠ k →
         outcome (check_idempotency k' later s1) =
         outcome (check_idempotency k' later s)).
Proof.
  intros s1 expiry. subst s1 expiry. unfold store_idempotency, write.
  cbn [final].
  change (float_of_int IDEMPOTENCY_TTL_SECONDS) with 86400%float.
  assert (Hread : ∀ k' t s',
            check_idempotency k' t s' =
            mkRun (Returned
                     match idempotency_store s' !! k' with
                     | Some r =>
                         if (t <? expires_at r)%float then Some (response r)
                         else None
                     | None => None
                     end) s' []).
  { intros k' t s'. unfold check_idempotency.
    rewrite (run_bind_pure _ _ s' s' (idempotency_store s' !! k'))
      by reflexivity.
    destruct (idempotency_store s' !! k') as [r|]; [|done].
    by destruct (t <? expires_at r)%float. }
  split_and!.
  - cbn [idempotency_store set_idempotency_store]. apply lookup_insert_eq.
  - rewrite Hread. cbn [idempotency_store set_idempotency_store].
    by rewrite lookup_insert_eq.
  - rewrite Hread. cbn [idempotency_store set_idempotency_store].
    rewrite lookup_insert_eq. cbn [expires_at response].
    by rewrite ltb_irrefl.
  - intros resp' now'. rewrite Hread.
    cbn [outcome idempotency_store set_idempotency_store].
    by rewrite lookup_insert_eq.
  - intros k' Hne. rewrite !Hread.
    cbn [outcome idempotency_store set_idempotency_store].
    by rewrite lookup_insert_ne.
Qed.

(** The expiry is a rounded sum: a record stored one tick of the float clock
    after 2147483647 expires at 2147570047, which is less than 86,400
    seconds after the store. *)
Example expiry_is_a_rounded_sum :
  (before_2_31 + 86400)%float = 2147570047%float ∧
  ∃ q, number_of before_2_31 = Some q ∧ (2147570047 < q + 86400)%Q.
Proof.
  split; [reflexivity|]. eexists. split; [reflexivity|]. by vm_compute.
Qed.

(** ** Transfers that find no cached response *)

Lemma account_locks_store key resp now s :
  account_locks (store key resp now s) = account_locks s.
Proof. unfold store. destruct key as [k|]; [|done]. by destruct (truthy k). Qed.

Lemma ledger_store key resp now s : ledger (store key resp now s) = ledger s.
Proof. unfold store. destruct key as [k|]; [|done]. by destruct (truthy k). Qed.

Lemma transfer_miss_keys req key key' env s :
  books_wf s →
  cache_lookup key (time_check env) s = None →
  cache_lookup key' (time_check env) s = None →
  let r := transfer req key env s in
  let r' := transfer req key' env s in
  outcome r = outcome r' ∧ events r = events r' ∧
  accounts (final r) = accounts (final r') ∧
  ledger (final r) = ledger (final r') ∧
  account_locks (final r) = account_locks (final r') ∧
  rate_limits (final r) = rate_limits (final r').
Proof.
  intros Hwf Hk Hk' r r'. subst r r'.
  destruct (transfer_sound req key env s Hwf);
    destruct (transfer_sound req key' env s Hwf);
    cbn [outcome final events]; try done; try congruence.
  split_and!; try done.
  - by rewrite !accounts_store.
  - by rewrite !ledger_store.
  - by rewrite !account_locks_store.
  - by rewrite !rate_limits_store.
Qed.

Lemma cache_lookup_expired k now s r :
  idempotency_store s !! k = Some r → (now <? expires_at r)%float = false →
  cache_lookup (Some k) now s = None.
Proof.
  intros Hr Hexp. unfold cache_lookup. destruct (truthy k); [|done].
  by rewrite Hr, Hexp.
Qed.

(** X15. A key whose record has expired protects nothing: once the reading
    of the clock is no longer below the expiry of the record, a transfer
    that presents the key is served as if it carried no key, with the same
    outcome, the same lock events and the same balances, histories, locks
    and rate windows; so a repeat of the first request moves the money a
    second time.  When it returns, its response carries the transaction id
    of this execution and replaces the record under the key, whose expiry is
    then the float sum of the time of this store and 86,400. *)
Theorem expired_key_runs_again (req : TransferRequest) (k : string) (env : Env)
    (s : State) (r : IdempotencyRecord) :
  reachable s → k ≠ "" →
  idempotency_store s !! k = Some r →
  (time_check env <? expires_at r)%float = false →
  let run_k := transfer req (Some k) env s in
  let run_0 := transfer req None env s in
  outcome run_k = outcome run_0 ∧ events run_k = events run_0 ∧
  accounts (final run_k) = accounts (final run_0) ∧
  ledger (final run_k) = ledger (final run_0) ∧
  account_locks (final run_k) = account_locks (final run_0) ∧
  rate_limits (final run_k) = rate_limits (final run_0) ∧
  (∀ resp,
     outcome run_k = Returned resp →
     resp = success env ∧
     (∀ a, ledger_of (final run_k) a =
           ledger_of s a ++ transfer_appends req env s a) ∧
     idempotency_store (final run_k) !! k =
     Some {| response := resp;
             expires_at := (time_store env + 86400)%float |}).
Proof.
  intros Hs Hk Hr Hexp run_k run_0. subst run_k run_0.
  pose proof (reachable_books_wf s Hs) as Hwf.
  pose proof (cache_lookup_expired k (time_check env) s r Hr Hexp) as Hmiss.
  destruct (transfer_miss_keys req (Some k) None env s Hwf Hmiss eq_refl)
    as (Ho & He & Ha & Hl & Hlk & Hrl).
  split_and!; try done.
  intros resp Hret.
  destruct (transfer_stores s req k env resp Hs Hk Hmiss Hret) as [-> Hst].
  split_and!; [done| |exact Hst].
  destruct (transfer_returned req (Some k) env s _ Hwf Hret)
    as [[Hhit _]|(_ & _ & _ & _ & Happ)]; [congruence|exact Happ].
Qed.

Lemma expired_key_runs_again_witness :
  let env := env_at 86420 "tx-9" in
  let r := {| response := success (env_at 20 "tx-2");
              expires_at := (20 + 86400)%float |} in
  (reachable paid ∧ "key-1" ≠ "" ∧
   idempotency_store paid !! "key-1" = Some r ∧
   (time_check env <? expires_at r)%float = false) ∧
  outcome (transfer pay_100 (Some "key-1") env paid) =
  outcome (transfer pay_100 None env paid).
Proof.
  intros env r.
  assert (H1 : idempotency_store paid !! "key-1" = Some r)
    by (vm_compute; reflexivity).
  assert (H2 : (time_check env <? expires_at r)%float = false)
    by (by vm_compute).
  assert (H0 : "key-1" ≠ "") by done.
  split; [split_and!; [exact reachable_paid|exact H0|exact H1|exact H2]|].
  exact (proj1 (expired_key_runs_again pay_100 "key-1" env paid r
                  reachable_paid H0 H1 H2)).
Defined.

(** X16. An empty idempotency key is no key: a transfer that presents the
    empty string as its key is served exactly as the same transfer without
    a key.  It never reads the store and, when it returns, it has run (its
    response carries the transaction id of this execution, and the
    two entries are written) and has stored nothing, so that the same
    request sent again is executed again. *)
Theorem empty_key_is_no_key (req : TransferRequest) (env : Env) (s : State) :
  transfer req (Some "") env s = transfer req None env s ∧
  (books_wf s →
   ∀ resp, outcome (transfer req (Some "") env s) = Returned resp →
           resp = success env ∧
           (∀ a, ledger_of (final (transfer req (Some "") env s)) a =
                 ledger_of s a ++ transfer_appends req env s a) ∧
           idempotency_store (final (transfer req (Some "") env s))
           = idempotency_store s).
Proof.
  assert (E : transfer req (Some "") env s = transfer req None env s)
    by reflexivity.
  split; [exact E|]. intros Hwf resp. rewrite E. intros Ho.
  destruct (transfer_returned req None env s _ Hwf Ho)
    as [[Hhit _]|(_ & -> & _ & _ & Happ)]; [done|].
  split_and!; [done..|].
  destruct (transfer_outcomes req None env s Hwf)
    as [(_ & _ & _ & _ & _ & _ & _ & _ & Hst)|[_ Hc]].
  - exact Hst.
  - by destruct (Hc _ Ho) as [? _].
Qed.

Lemma empty_key_is_no_key_witness :
  books_wf funded ∧
  ∀ resp, outcome (transfer pay_100 (Some "") (env_at 20 "tx-2") funded)
          = Returned resp →
          resp = success (env_at 20 "tx-2").
Proof.
  split; [exact (reachable_books_wf funded reachable_funded)|].
  intros resp H.
  exact (proj1 (proj2 (empty_key_is_no_key pay_100 (env_at 20 "tx-2") funded)
                  (reachable_books_wf funded reachable_funded) resp H)).
Defined.

(** ** The rate limiter over several attempts *)

(** X17. The rate limit counts attempts, not transfers made: a transfer that
    is refused for the daily limit or for insufficient funds has been
    counted by the rate limiter, its time of arrival is recorded in the
    window of the source account, while one refused by validation, by the
    per-transfer ceiling or by the rate limiter itself leaves the rate
    windows as they were. *)
Theorem refused_transfer_is_counted (req : TransferRequest) (key : option string)
    (env : Env) (s : State) (e : HTTPException) :
  reachable s →
  outcome (transfer req key env s) = Raised e →
  (e = DailyLimitExceeded ∨ e = InsufficientFunds →
   rate_limits (final (transfer req key env s)) =
   <[from_account req :=
       rate_window (from_account req) (time_rate env) s ++ [time_rate env]]>
     (rate_limits s)) ∧
  (e = ValidationError ∨ e = PerTransferLimitExceeded ∨ e = RateLimited →
   rate_limits (final (transfer req key env s)) = rate_limits s).
Proof.
  intros Hs. pose proof (reachable_books_wf s Hs) as Hwf.
  destruct (transfer_sound req key env s Hwf); cbn [outcome final];
    intros [= <-]; (split; [intros [?|?]|intros [?|[?|?]]]); try done.
  - unfold opened. by rewrite !create_rate_limits.
  - apply rate_limits_slotted_frame. unfold unlocked2, free.
    cbn [rate_limits set_account_locks]. apply rate_limits_locked2.
  - apply rate_limits_slotted_frame. unfold unlocked2, free.
    cbn [rate_limits set_account_locks]. apply rate_limits_locked2.
Qed.

Lemma refused_transfer_is_counted_witness :
  let req := {| from_account := "user1"; to_account := "user2";
                amount_tr := 5000 |} in
  let env := env_at 20 "tx-2" in
  (reachable funded ∧
   outcome (transfer req None env funded) = Raised InsufficientFunds) ∧
  rate_limits (final (transfer req None env funded)) =
  <[ "user1" := rate_window "user1" (time_rate env) funded ++ [time_rate env]]>
    (rate_limits funded).
Proof.
  intros req env.
  assert (H : outcome (transfer req None env funded) = Raised InsufficientFunds)
    by (vm_compute; reflexivity).
  split; [split; [exact reachable_funded|exact H]|].
  exact (proj1 (refused_transfer_is_counted req None env funded
                  InsufficientFunds reachable_funded H) (or_intror eq_refl)).
Defined.

Lemma filter_all {A} (f : A → bool) (l : list A) :
  (∀ x, In x l → f x = true) → List.filter f l = l.
Proof.
  induction l as [|x l IH]; intros H; [done|]. cbn [List.filter].
  rewrite (H x) by by left. f_equal. apply IH. intros y ?. apply H. by right.
Qed.

Lemma filter_none {A} (f : A → bool) (l : list A) :
  (∀ x, In x l → f x = false) → List.filter f l = [].
Proof.
  induction l as [|x l IH]; intros H; [done|]. cbn [List.filter].
  rewrite (H x) by by left. apply IH. intros y ?. apply H. by right.
Qed.

Lemma limiter_run_snoc a times t s :
  limiter_run a (times ++ [t]) s =
  final (check_rate_limit a t (limiter_run a times s)).
Proof. unfold limiter_run. by rewrite fold_left_app. Qed.

Lemma In_take_elem_of {A} (x : A) (n : nat) (l : list A) :
  In x (take n l) → x ∈ l.
Proof.
  intros Hx. apply (proj2 (list_elem_of_In _ _)) in Hx.
  apply list_elem_of_lookup in Hx as [i Hi].
  apply lookup_take_Some in Hi as [Hi _]. by eapply list_elem_of_lookup_2.
Qed.

Lemma limiter_run_window a times s :
  default [] (rate_limits s !! a) = [] →
  Forall (λ t, Forall (in_window t) times) times →
  default [] (rate_limits (limiter_run a times s) !! a) = take 10 times.
Proof.
  intros Hnew. induction times as [|t times IH] using rev_ind; intros Hnear.
  - by rewrite take_nil.
  - assert (Forall (λ t, Forall (in_window t) times) times) as Hnear'.
    { apply Forall_app in Hnear as [Hnear _].
      eapply Forall_impl; [exact Hnear|]. intros x Hx.
      by apply Forall_app in Hx as [? _]. }
    assert (Forall (in_window t) times) as Ht.
    { apply Forall_app in Hnear as [_ Hlast].
      apply List.Forall_inv in Hlast. by apply Forall_app in Hlast as [? _]. }
    specialize (IH Hnear'). rewrite limiter_run_snoc, run_check_rate_limit.
    assert (rate_window a t (limiter_run a times s) = take 10 times) as Hw.
    { unfold rate_window. rewrite IH. apply filter_all.
      intros x Hin%In_take_elem_of.
      by apply (proj1 (Forall_forall _ _) Ht) in Hin. }
    rewrite Hw. rewrite length_take. unfold RATE_LIMIT_PER_MINUTE.
    case_bool_decide as Hfull; cbn [final].
    + rewrite IH. rewrite take_app_le by lia. done.
    + unfold record_rate. cbn [rate_limits set_rate_limits].
      rewrite lookup_insert_eq. cbn [default from_option id]. rewrite Hw.
      rewrite (take_ge times) by lia. rewrite take_ge; [done|].
      rewrite length_app. cbn [length]. lia.
Qed.

(** X18. Ten attempts a minute, whatever becomes of them.  For an account
    with no recorded attempts, and attempts that all arrive close to one
    another, the float difference of any two of their times being below
    60: the first ten pass the rate-limit check and every later one is
    refused; the window holds the first ten arrival times, in order of
    arrival.  A check whose float difference from every one of them is not
    below 60 passes again, and the window is then that arrival alone. *)
Theorem ten_attempts_per_minute (a : string) (times : list float) (s : State) :
  default [] (rate_limits s !! a) = [] →
  Forall (λ t, Forall (in_window t) times) times →
  default [] (rate_limits (limiter_run a times s) !! a) = take 10 times ∧
  (∀ i t, times !! i = Some t →
          outcome (check_rate_limit a t (limiter_run a (take i times) s)) =
          if decide (i < 10)%nat then Returned tt else Raised RateLimited) ∧
  (∀ now, Forall (λ t, ¬ in_window now t) times →
          outcome (check_rate_limit a now (limiter_run a times s)) = Returned tt ∧
          default [] (rate_limits
                        (final (check_rate_limit a now (limiter_run a times s)))
                      !! a) = [now]).
Proof.
  intros Hnew Hnear. split_and!.
  - by apply limiter_run_window.
  - intros i t Hi. rewrite run_check_rate_limit.
    assert (i < length times)%nat as Hlen by by eapply lookup_lt_Some.
    assert (Forall (λ t, Forall (in_window t) (take i times)) (take i times))
      as Hprefix.
    { apply Forall_take. eapply Forall_impl; [exact Hnear|].
      intros x Hx. by apply Forall_take. }
    pose proof (limiter_run_window a (take i times) s Hnew Hprefix) as Hw.
    assert (rate_window a t (limiter_run a (take i times) s)
            = take 10 (take i times)) as ->.
    { unfold rate_window. rewrite Hw. apply filter_all.
      intros x Hin%In_take_elem_of%list_elem_of_In%In_take_elem_of.
      apply list_elem_of_lookup_2 in Hi.
      apply (proj1 (Forall_forall _ _) Hnear) in Hi.
      by apply (proj1 (Forall_forall _ _) Hi) in Hin. }
    rewrite !length_take. unfold RATE_LIMIT_PER_MINUTE.
    case_bool_decide; case_decide; (done || lia).
  - intros now Hgap.
    assert (rate_window a now (limiter_run a times s) = []) as Hw.
    { unfold rate_window. rewrite (limiter_run_window a times s Hnew Hnear).
      apply filter_none. intros x Hin%In_take_elem_of.
      apply (proj1 (Forall_forall _ _) Hgap) in Hin. unfold in_window in Hin.
      by destruct (now - x <? 60)%float. }
    rewrite run_check_rate_limit, Hw. cbn [length].
    rewrite bool_decide_eq_false_2 by (unfold RATE_LIMIT_PER_MINUTE; lia).
    cbn [outcome final]. split; [done|].
    unfold record_rate. cbn [rate_limits set_rate_limits].
    rewrite lookup_insert_eq. cbn [default from_option id]. by rewrite Hw.
Qed.

Lemma ten_attempts_per_minute_witness :
  let times := [1; 2; 3; 4; 5; 6; 7; 8; 9; 10; 11; 12]%float in
  (default [] (rate_limits empty_state !! "user1") = [] ∧
   Forall (λ t, Forall (in_window t) times) times) ∧
  default [] (rate_limits (limiter_run "user1" times empty_state) !! "user1")
  = take 10 times.
Proof.
  intros times.
  assert (H : Forall (λ t, Forall (in_window t) times) times).
  { unfold times. repeat (constructor; [repeat constructor|]). constructor. }
  split; [split; [reflexivity|exact H]|].
  exact (proj1 (ten_attempts_per_minute "user1" times empty_state eq_refl H)).
Defined.

(** ** Creating an account on first use *)

Lemma create_create a s : create a (create a s) = create a s.
Proof.
  unfold create at 1. by rewrite bool_decide_eq_true_2 by apply create_has_account.
Qed.

Lemma create_commute a b s : create b (create a s) = create a (create b s).
Proof.
  destruct (decide (a = b)) as [->|Hne]; [done|].
  unfold create.
  destruct (bool_decide (is_Some (accounts s !! a))) eqn:Ea;
    destruct (bool_decide (is_Some (accounts s !! b))) eqn:Eb;
    cbn [accounts set_ledger set_accounts];
    rewrite ?lookup_insert_ne by done; rewrite ?Ea, ?Eb; try done.
  unfold set_ledger, set_accounts.
  cbn [accounts ledger account_locks idempotency_store rate_limits].
  f_equal; by apply insert_insert_ne.
Qed.

(** X19. [ensure_account] creates an account once and never touches one
    that exists.  On books in which every account has its history, it
    always returns; afterwards the account is stored with the balance and
    the history it read as before (0 and no entries when it is new); every
    account and history that was stored is stored unchanged, and nothing is
    stored for any other account.  Ensuring the same account again changes
    nothing, and two accounts can be ensured in either order. *)
Theorem ensure_account_creates_once (a : string) (s : State) :
  books_wf s →
  let s1 := final (ensure_account a s) in
  outcome (ensure_account a s) = Returned tt ∧
  accounts s1 !! a = Some (balance_of s a) ∧
  ledger s1 !! a = Some (ledger_of s a) ∧
  (accounts s !! a = None → balance_of s a = 0 ∧ ledger_of s a = []) ∧
  (∀ b v, accounts s !! b = Some v → accounts s1 !! b = Some v) ∧
  (∀ b l, ledger s !! b = Some l → ledger s1 !! b = Some l) ∧
  (∀ b, b ≠ a →
        accounts s1 !! b = accounts s !! b ∧ ledger s1 !! b = ledger s !! b) ∧
  final (ensure_account a s1) = s1 ∧
  (∀ b, final (ensure_account b s1) =
        final (ensure_account a (final (ensure_account b s)))) ∧
  books_wf s1.
Proof.
  intros Hwf s1. subst s1.
  repeat (rewrite run_ensure_account; cbn [outcome final]).
  split_and!.
  - done.
  - apply accounts_create_is_Some.
  - by apply ledger_create_is_Some.
  - intros Hnone. unfold balance_of, ledger_of. rewrite Hnone.
    assert (ledger s !! a = None) as ->; [|done].
    apply eq_None_not_Some. intros H%Hwf. rewrite Hnone in H. by destruct H.
  - intros b v Hb. unfold create. case_bool_decide as Ha; [done|].
    cbn [accounts set_ledger set_accounts].
    rewrite lookup_insert_ne; [done|]. intros <-. apply Ha. by eexists.
  - intros b l Hb. unfold create. case_bool_decide as Ha; [done|].
    cbn [ledger set_ledger set_accounts].
    rewrite lookup_insert_ne; [done|]. intros <-. apply Ha, Hwf. by eexists.
  - intros b Hne. unfold create. case_bool_decide as Ha; [done|].
    cbn [accounts ledger set_ledger set_accounts].
    by rewrite !lookup_insert_ne.
  - apply create_create.
  - intros b. repeat (rewrite run_ensure_account; cbn [outcome final]).
    apply create_commute.
  - by apply create_books_wf.
Qed.

Lemma ensure_account_creates_once_witness :
  books_wf paid ∧
  accounts (final (ensure_account "user9" paid)) !! "user9"
  = Some (balance_of paid "user9").
Proof.
  split; [exact (reachable_books_wf paid reachable_paid)|].
  exact (proj1 (proj2 (ensure_account_creates_once "user9" paid
                         (reachable_books_wf paid reachable_paid)))).
Defined.

(** ** What a read leaves behind *)

Lemma same_view_create a s : books_wf s → same_view s (create a s).
Proof.
  intros Hwf. split_and!.
  - by apply same_reading_create.
  - intros l. apply held_create.
  - apply create_idempotency_store.
  - apply create_rate_limits.
Qed.

Lemma deposit_same_view req env s s' :
  books_wf s → books_wf s' → same_view s s' →
  outcome (deposit req env s') = outcome (deposit req env s).
Proof.
  intros Hwf Hwf' (Hread & Hlocks & _).
  pose proof (Hlocks (account_id req)) as Hh.
  destruct (deposit_sound req env s Hwf);
    destruct (deposit_sound req env s' Hwf');
    cbn [outcome]; try done; try tauto.
  f_equal. unfold deposit_entry. by destruct (Hread (account_id req)) as [-> _].
Qed.

Lemma withdraw_same_view req env s s' :
  books_wf s → books_wf s' → same_view s s' →
  outcome (withdraw req env s') = outcome (withdraw req env s).
Proof.
  intros Hwf Hwf' (Hread & Hlocks & _).
  pose proof (Hlocks (account_id req)) as Hh.
  destruct (Hread (account_id req)) as [Hb _].
  destruct (withdraw_sound req env s Hwf);
    destruct (withdraw_sound req env s' Hwf');
    cbn [outcome]; try done; try tauto; try lia.
  f_equal. unfold withdrawal_entry. by rewrite Hb.
Qed.

Lemma transfer_same_view req key env s s' :
  books_wf s → books_wf s' → same_view s s' →
  outcome (transfer req key env s') = outcome (transfer req key env s).
Proof.
  intros Hwf Hwf' (Hread & Hlocks & Hstore & Hrate).
  assert (Hc : cache_lookup key (time_check env) s'
               = cache_lookup key (time_check env) s).
  { unfold cache_lookup. by rewrite Hstore. }
  assert (Hr : rate_exceeded req env s' ↔ rate_exceeded req env s).
  { rewrite !rate_exceeded_iff. unfold rate_window. by rewrite Hrate. }
  assert (H1 : held (first_lock req) (at_first req env s') ↔
               held (first_lock req) (at_first req env s)).
  { rewrite !held_at_first. apply Hlocks. }
  assert (H2 : held (second_lock req) (at_second req env s') ↔
               held (second_lock req) (at_second req env s)).
  { rewrite !held_at_second. by rewrite (Hlocks (second_lock req)). }
  assert (Hd : daily_exceeded req env s' ↔ daily_exceeded req env s).
  { rewrite !daily_exceeded_iff by done.
    by destruct (Hread (from_account req)) as [_ ->]. }
  assert (Hf : short_of_funds req env s' ↔ short_of_funds req env s).
  { rewrite !short_of_funds_iff.
    by destruct (Hread (from_account req)) as [-> _]. }
  destruct (transfer_sound req key env s Hwf);
    destruct (transfer_sound req key env s' Hwf');
    cbn [outcome]; try done; try tauto; try congruence.
Qed.

(** X20. A read changes no answer.  After a request to the balance, the
    history or the summary endpoint, every request, to any of the endpoints,
    gets the outcome it would have got before it; so these endpoints,
    although they create the account they are asked about, cannot be told
    from reads that write nothing.  The three always return. *)
Theorem reads_are_invisible (c : Call) (s : State) :
  reachable s → is_read c →
  let s' := step c s in
  returns c s ∧
  (∀ a, outcome (get_balance a s') = outcome (get_balance a s)) ∧
  (∀ a limit cursor,
     outcome (get_transactions a limit cursor s') =
     outcome (get_transactions a limit cursor s)) ∧
  (∀ a env, outcome (account_summary a env s') =
            outcome (account_summary a env s)) ∧
  (∀ req env, outcome (deposit req env s') = outcome (deposit req env s)) ∧
  (∀ req env, outcome (withdraw req env s') = outcome (withdraw req env s)) ∧
  (∀ req key env, outcome (transfer req key env s') =
                  outcome (transfer req key env s)).
Proof.
  intros Hs Hc s'. pose proof (reachable_books_wf s Hs) as Hwf.
  assert (Hwf' : books_wf s').
  { apply reachable_books_wf. by constructor. }
  assert (∃ a, s' = create a s ∧ returns c s) as (a & E & Hnb).
  { subst s'.
    destruct c as [a|?|?|?|a limit cursor|a env]; try done;
      exists a; cbn [step returns].
    - rewrite run_get_balance. split; [done|by eexists].
    - rewrite run_get_transactions by done. split; [done|by eexists].
    - rewrite run_account_summary by done. split; [done|by eexists]. }
  pose proof (same_view_create a s Hwf) as Hv. rewrite <- E in Hv.
  pose proof Hv as (Hread & _).
  split_and!.
  - done.
  - intros b. rewrite !run_get_balance. cbn [outcome].
    by destruct (Hread b) as [-> _].
  - intros b limit cursor. rewrite !run_get_transactions by done.
    cbn [outcome]. by destruct (Hread b) as [_ ->].
  - intros b env. rewrite !run_account_summary by done. cbn [outcome].
    by destruct (Hread b) as [-> ->].
  - intros req env. by apply deposit_same_view.
  - intros req env. by apply withdraw_same_view.
  - intros req key env. by apply transfer_same_view.
Qed.

Lemma reads_are_invisible_witness :
  (reachable paid ∧ is_read (CallBalance "user9")) ∧
  ∀ req key env,
    outcome (transfer req key env (step (CallBalance "user9") paid)) =
    outcome (transfer req key env paid).
Proof.
  split; [split; [exact reachable_paid|exact I]|].
  exact (proj2 (proj2 (proj2 (proj2 (proj2 (proj2
           (reads_are_invisible (CallBalance "user9") paid reachable_paid I))))))).
Defined.

(** ** Requests on other accounts *)

Lemma same_at_refl b s : same_at b s s.
Proof. by split_and!. Qed.

Lemma same_at_create a b s s1 :
  b ≠ a → same_at b s s1 → same_at b s (create a s1).
Proof.
  intros Hne (Ha & Hl & Hk & Hr). unfold same_at, create.
  case_bool_decide; [done|].
  cbn [accounts ledger account_locks rate_limits set_ledger set_accounts].
  by rewrite !lookup_insert_ne.
Qed.

Lemma same_at_mklock a b s s1 :
  b ≠ a → same_at b s s1 → same_at b s (mklock a s1).
Proof.
  intros Hne (Ha & Hl & Hk & Hr). unfold same_at, mklock.
  case_bool_decide; [done|].
  cbn [accounts ledger account_locks rate_limits set_account_locks].
  by rewrite !lookup_insert_ne.
Qed.

Lemma same_at_hold a b s s1 :
  b ≠ a → same_at b s s1 → same_at b s (hold a s1).
Proof.
  intros Hne (Ha & Hl & Hk & Hr). unfold same_at, hold.
  cbn [accounts ledger account_locks rate_limits set_account_locks].
  by rewrite !lookup_insert_ne.
Qed.

Lemma same_at_free a b s s1 :
  b ≠ a → same_at b s s1 → same_at b s (free a s1).
Proof.
  intros Hne (Ha & Hl & Hk & Hr). unfold same_at, free.
  cbn [accounts ledger account_locks rate_limits set_account_locks].
  by rewrite !lookup_insert_ne.
Qed.

Lemma same_at_record_rate a now b s s1 :
  b ≠ a → same_at b s s1 → same_at b s (record_rate a now s1).
Proof.
  intros Hne (Ha & Hl & Hk & Hr). unfold same_at, record_rate.
  cbn [accounts ledger account_locks rate_limits set_rate_limits].
  by rewrite !lookup_insert_ne.
Qed.

Lemma same_at_post a tx ty amt ts b s s1 :
  b ≠ a → same_at b s s1 → same_at b s (post a tx ty amt ts s1).
Proof.
  intros Hne (Ha & Hl & Hk & Hr). unfold same_at, post.
  cbn [accounts ledger account_locks rate_limits set_ledger set_accounts].
  by rewrite !lookup_insert_ne.
Qed.

Lemma same_at_post_transfer req env b s s1 :
  b ≠ from_account req → b ≠ to_account req →
  same_at b s s1 → same_at b s (post_transfer req env s1).
Proof.
  intros Hf Ht (Ha & Hl & Hk & Hr). unfold same_at, post_transfer.
  cbn [accounts ledger account_locks rate_limits set_ledger set_accounts].
  by rewrite !lookup_insert_ne.
Qed.

Lemma same_at_store key resp now b s s1 :
  same_at b s s1 → same_at b s (store key resp now s1).
Proof.
  unfold same_at.
  by rewrite accounts_store, ledger_store, account_locks_store, rate_limits_store.
Qed.

Lemma same_at_locked2 req env b s :
  b ≠ from_account req → b ≠ to_account req →
  same_at b s (locked2 req env s).
Proof.
  intros Hf Ht.
  assert (b ≠ first_lock req ∧ b ≠ second_lock req) as [H1 H2].
  { destruct (locks_of_transfer req) as [[-> ->]|[-> ->]]; by split. }
  unfold locked2, at_second, at_first, slotted, opened.
  apply same_at_hold, same_at_mklock, same_at_hold, same_at_mklock,
    same_at_record_rate, same_at_create, same_at_create, same_at_refl;
    done.
Qed.

(** X21. A request changes nothing about an account it does not name.
    Whatever the request and its outcome, for every account other than the
    one or two accounts it names, the stored balance, the stored history,
    the lock and the rate window are after the request exactly what they
    were before it; no account is created but the ones named. *)
Theorem request_touches_only_its_accounts (c : Call) (s : State) (b : string) :
  reachable s → b ∉ names c →
  same_at b s (step c s) ∧
  balance_of (step c s) b = balance_of s b ∧
  ledger_of (step c s) b = ledger_of s b ∧
  (held b (step c s) ↔ held b s).
Proof.
  intros Hs Hb. pose proof (reachable_books_wf s Hs) as Hwf.
  assert (same_at b s (step c s)) as H.
  { destruct c as [a|req env|req env|req key env|a limit cursor|a env];
      cbn [step names] in *.
    - rewrite final_get_balance. apply same_at_create, same_at_refl. set_solver.
    - assert (b ≠ account_id req) by set_solver.
      destruct (deposit_sound req env s Hwf); cbn [final].
      + apply same_at_refl.
      + by apply same_at_mklock, same_at_create, same_at_refl.
      + unfold locked1.
        by apply same_at_free, same_at_post, same_at_hold, same_at_mklock,
          same_at_create, same_at_refl.
    - assert (b ≠ account_id req) by set_solver.
      destruct (withdraw_sound req env s Hwf); cbn [final].
      + apply same_at_refl.
      + by apply same_at_mklock, same_at_create, same_at_refl.
      + unfold locked1.
        by apply same_at_free, same_at_hold, same_at_mklock,
          same_at_create, same_at_refl.
      + unfold locked1.
        by apply same_at_free, same_at_post, same_at_hold, same_at_mklock,
          same_at_create, same_at_refl.
    - assert (b ≠ from_account req ∧ b ≠ to_account req) as [Hf Ht]
        by set_solver.
      assert (b ≠ first_lock req ∧ b ≠ second_lock req) as [H1 H2].
      { destruct (locks_of_transfer req) as [[-> ->]|[-> ->]]; by split. }
      destruct (transfer_sound req key env s Hwf); cbn [final];
        try apply same_at_refl.
      + unfold opened. by apply same_at_create, same_at_create, same_at_refl.
      + unfold at_first, slotted, opened.
        by apply same_at_mklock, same_at_record_rate, same_at_create,
          same_at_create, same_at_refl.
      + unfold at_second, at_first, slotted, opened.
        by apply same_at_mklock, same_at_hold, same_at_mklock,
          same_at_record_rate, same_at_create, same_at_create, same_at_refl.
      + unfold unlocked2.
        by apply same_at_free, same_at_free, same_at_locked2.
      + unfold unlocked2.
        by apply same_at_free, same_at_free, same_at_locked2.
      + unfold unlocked2.
        by apply same_at_store, same_at_free, same_at_free,
          same_at_post_transfer, same_at_locked2.
    - rewrite final_get_transactions by done.
      apply same_at_create, same_at_refl. set_solver.
    - rewrite final_account_summary by done.
      apply same_at_create, same_at_refl. set_solver. }
  split; [exact H|]. destruct H as (Ha & Hl & Hk & _).
  unfold balance_of, ledger_of, held. by rewrite Ha, Hl, Hk.
Qed.

Lemma request_touches_only_its_accounts_witness :
  let c := CallTransfer pay_100 None (env_at 30 "tx-3") in
  (reachable paid ∧ "user3" ∉ names c) ∧
  same_at "user3" paid (step c paid).
Proof.
  intros c.
  assert (H : "user3" ∉ names c).
  { cbn [names c pay_100 from_account to_account].
    intros [E|[E|E]%elem_of_cons]%elem_of_cons;
      [discriminate E|discriminate E|by apply elem_of_nil in E]. }
  split; [split; [exact reachable_paid|exact H]|].
  exact (proj1 (request_touches_only_its_accounts c paid "user3"
                  reachable_paid H)).
Defined.

(** ** Pages outside the checked range *)

(** X22. Nothing checks the sign of the cursor and of the limit, and the
    endpoint answers all the same.  With a negative limit, at cursor 0, the
    page is the history without its last entries, as many as the limit says
    below zero, and [has_more] is set with a negative [next_cursor].  With a
    negative cursor that counts back from the end of the history, and a
    limit that is no more than the length of the history, the page is empty
    while [has_more] is set. *)
Theorem unchecked_page_bounds (a : string) (s : State) :
  reachable s →
  let l := ledger_of s a in
  (∀ limit,
     limit < 0 →
     ∃ p, outcome (get_transactions a limit 0 s) = Returned p ∧
          items p = take (length l - Z.to_nat (- limit)) l ∧
          has_more p = true ∧ next_cursor p = Some limit) ∧
  (∀ limit cursor,
     - Z.of_nat (length l) ≤ cursor < 0 →
     0 ≤ cursor + limit → limit ≤ Z.of_nat (length l) →
     ∃ p, outcome (get_transactions a limit cursor s) = Returned p ∧
          items p = [] ∧
          has_more p = true ∧ next_cursor p = Some (cursor + limit)).
Proof.
  intros Hs l. subst l. pose proof (reachable_books_wf s Hs) as Hwf. split.
  - intros limit Hneg. rewrite run_get_transactions by done.
    eexists. split; [done|]. cbn [items has_more next_cursor].
    rewrite Z.add_0_l, bool_decide_eq_true_2 by lia. split_and!; [|done..].
    unfold slice, slice_index.
    rewrite (bool_decide_eq_false_2 (0 < 0)) by lia.
    rewrite (bool_decide_eq_true_2 (limit < 0)) by done.
    rewrite Z.min_l by lia. cbn [Z.to_nat drop]. f_equal. lia.
  - intros limit cursor Hc Hstop Hlim. rewrite run_get_transactions by done.
    eexists. split; [done|]. cbn [items has_more next_cursor].
    rewrite bool_decide_eq_true_2 by lia. split_and!; [|done..].
    unfold slice, slice_index.
    rewrite (bool_decide_eq_true_2 (cursor < 0)) by lia.
    rewrite (bool_decide_eq_false_2 (cursor + limit < 0)) by lia.
    replace (Z.to_nat _) with 0%nat by lia. done.
Qed.

Lemma unchecked_page_bounds_witness :
  reachable fourteen_entries ∧
  ∃ p, outcome (get_transactions "user1" 10 (-1) fourteen_entries) = Returned p ∧
       items p = [] ∧ has_more p = true ∧ next_cursor p = Some (-1 + 10).
Proof.
  assert (H : reachable fourteen_entries)
    by (apply reachable_run; constructor).
  split; [exact H|].
  apply (proj2 (unchecked_page_bounds "user1" fourteen_entries H) 10 (-1));
    by vm_compute.
Defined.

(** ** The records of the idempotency store *)

Lemma store_changes c s :
  books_wf s →
  idempotency_store (step c s) = idempotency_store s ∨
  ∃ req key env,
    c = CallTransfer req key env ∧
    outcome (transfer req key env s) = Returned (success env) ∧
    idempotency_store (step c s) =
    idempotency_store (store key (success env) (time_store env) s).
Proof.
  intros Hwf.
  destruct c as [a|req env|req env|req key env|a limit cursor|a env];
    cbn [step].
  - left. rewrite final_get_balance. apply create_idempotency_store.
  - left. destruct (deposit_sound req env s Hwf); cbn [final]; by frame_fields.
  - left. destruct (withdraw_sound req env s Hwf); cbn [final]; by frame_fields.
  - destruct (idempotency_store_transfer _ _ _ _ _
                (transfer_sound req key env s Hwf)) as [?|[? ?]];
      [by left|right]. by exists req, key, env.
  - left. rewrite final_get_transactions by done.
    apply create_idempotency_store.
  - left. rewrite final_account_summary by done. apply create_idempotency_store.
Qed.

(** X23. A record of the idempotency store is never removed, expired or
    not: a key that has a record keeps one through every request.  And the
    record under a key changes only when a transfer that presents this very
    key, and finds no unexpired record under it, runs and returns; the
    record is then the response of that transfer, and its expiry the float
    sum of the time of the store and 86,400. *)
Theorem records_are_never_removed (c : Call) (s : State) (k : string) :
  reachable s →
  (is_Some (idempotency_store s !! k) →
   is_Some (idempotency_store (step c s) !! k)) ∧
  (idempotency_store (step c s) !! k ≠ idempotency_store s !! k →
   ∃ req env,
     c = CallTransfer req (Some k) env ∧ k ≠ "" ∧
     cache_lookup (Some k) (time_check env) s = None ∧
     outcome (transfer req (Some k) env s) = Returned (success env) ∧
     idempotency_store (step c s) !! k =
     Some {| response := success env;
             expires_at := (time_store env + 86400)%float |}).
Proof.
  intros Hs. pose proof (reachable_books_wf s Hs) as Hwf.
  destruct (store_changes c s Hwf) as [E|(req & key & env & -> & Ho & E)];
    rewrite E.
  - by split.
  - unfold store. destruct key as [k'|]; [|by split].
    destruct (truthy k') eqn:Ht; [|by split].
    cbn [idempotency_store set_idempotency_store].
    destruct (decide (k' = k)) as [->|Hne].
    + rewrite lookup_insert_eq. split; [by eexists|]. intros Hch.
      exists req, env. split_and!; try done.
      * by apply truthy_nonempty.
      * destruct (transfer_returned req (Some k) env s _ Hwf Ho)
          as [[_ Hrun]|[Hmiss _]]; [|done].
        exfalso. apply Hch. cbn [step] in E. rewrite Hrun in E.
        cbn [final] in E. rewrite E. unfold store. rewrite Ht.
        cbn [idempotency_store set_idempotency_store].
        by rewrite lookup_insert_eq.
    + rewrite lookup_insert_ne by done. by split.
Qed.

Lemma records_are_never_removed_witness :
  reachable paid ∧
  (is_Some (idempotency_store paid !! "key-1") →
   is_Some (idempotency_store
              (step (CallTransfer pay_100 (Some "key-2") (env_at 30 "tx-3")) paid)
            !! "key-1")).
Proof.
  split; [exact reachable_paid|].
  exact (proj1 (records_are_never_removed
                  (CallTransfer pay_100 (Some "key-2") (env_at 30 "tx-3"))
                  paid "key-1" reachable_paid)).
Defined.

End Bank.
